(** * OpenTIPE front end: history manager, diff highlights, segment parsing

    A shallow embedding of the algorithmic modules of the post-editing front
    end ([HistoryManager.ts], [suggestionUtil.ts], [editorUtil.ts] with the
    helpers of [otherUtil.ts], and the methods of [store/index.ts] that
    change the text segments) together with the properties the
    specification states about them and further properties of the code. *)

From Stdlib Require Import ZArith List Lia Bool.
From stdpp Require Import base list strings gmap pretty.

(** ** JavaScript values used by the modules *)

(** A JavaScript string is a sequence of UTF-16 code units.  Text that the
    algorithms look into (editor text, diff values) is kept in that form;
    identifiers, which are only compared, are ordinary strings. *)
Definition jstring := list N.

(** [js s] is the text of an ASCII literal. *)
Definition js (s : string) : jstring :=
  map (fun a => N.of_nat (Ascii.nat_of_ascii a)) (String.list_ascii_of_string s).

(** Truthiness of a string: every string but the empty one. *)
Definition truthy_string (s : string) : bool :=
  negb (String.eqb s "").

Definition truthy_text (s : jstring) : bool :=
  match s with [] => false | _ => true end.

(** How a call ends: with a value, or with an exception. *)
Inductive completion (R : Type) : Type :=
  | Return (r : R)
  | Throw.
Arguments Return {R} r.
Arguments Throw {R}.

(** What a snapshot type has to provide for [HistoryManager<A>]: its
    truthiness, [JSON.stringify], and [getDeepCopyOfObject], which is
    [JSON.parse (JSON.stringify obj)] (otherUtil.ts).  A value that went
    through JSON and back prints as before. *)
Class JsValue (A : Type) := {
  truthy : A -> bool;
  stringify : A -> string;
  getDeepCopyOfObject : A -> A;
  stringify_copy : forall x, stringify (getDeepCopyOfObject x) = stringify x
}.

(** Numbers, as in [new HistoryManager<number>(3, false)] of the unit tests. *)
#[export] Instance JsValue_number : JsValue Z := {|
  truthy z := negb (Z.eqb z 0);
  stringify z := pretty z;
  getDeepCopyOfObject z := z;
  stringify_copy := fun _ => eq_refl
|}.

(** ** otherUtil.ts: posMod *)

(** [n % m] is the remainder of the truncated division ([Z.rem]), whose sign
    is that of [n]; [Math.floor] is the identity on integers. *)
Definition posMod (n m : Z) : Z :=
  let remain := Z.rem n m in
  if (0 <=? remain)%Z then remain else (remain + m)%Z.

(** ** HistoryManager.ts *)

Module HistoryManager.
Section WithSnapshots.
Context {A : Type} `{JsValue A}.
Local Open Scope Z_scope.

(** The object's fields.  [states] is a JavaScript array: [None] is a hole
    (reads as [undefined]). *)
Record t : Type := mk {
  maxLength : Z;
  pos : Z;
  start : Z;
  end_ : Z;
  states : list (option A);
  deepCopy : bool;
  lastReturnedState : option A
}.

(** [arr[i]]: [None] stands for [undefined] (a hole, or out of range). *)
Definition array_get (arr : list (option A)) (i : Z) : option A :=
  if i <? 0 then None else mjoin (arr !! Z.to_nat i).

(** [arr[i] = x]: inside the array the slot is replaced; past the end the
    array grows, the slots in between being holes.  (A negative index would
    set a property that is no element; the indices of this class are never
    negative, see [posMod_range].) *)
Definition array_set (arr : list (option A)) (i : Z) (x : A) : list (option A) :=
  if i <? 0 then arr
  else
    let n := Z.to_nat i in
    if (n <? length arr)%nat then <[n := Some x]> arr
    else arr ++ replicate (n - length arr)%nat None ++ [Some x].

(** What [getState] hands back. *)
Inductive state_result : Type :=
  | Null
  | Undefined
  | Value (a : A).

Definition clear (h : t) : t :=
  {| maxLength := maxLength h; pos := 0; start := 0; end_ := 0;
     states := []; deepCopy := deepCopy h; lastReturnedState := None |}.

(** [new HistoryManager(maxLength, deepCopy)] *)
Definition new (maxLength : Z) (deepCopy : bool) : t :=
  clear {| maxLength := maxLength; pos := 0; start := 0; end_ := 0;
           states := []; deepCopy := deepCopy; lastReturnedState := None |}.

Definition canGoBack (h : t) : bool :=
  if (pos h =? start h) || (length (states h) =? 0)%nat then false else true.

Definition goBack (h : t) : bool * t :=
  if negb (canGoBack h) then (false, h)
  else (true,
        {| maxLength := maxLength h; pos := posMod (pos h - 1) (maxLength h);
           start := start h; end_ := end_ h; states := states h;
           deepCopy := deepCopy h; lastReturnedState := lastReturnedState h |}).

Definition canGoForward (h : t) : bool :=
  if (pos h =? end_ h) || (length (states h) =? 0)%nat then false else true.

Definition goForward (h : t) : bool * t :=
  if negb (canGoForward h) then (false, h)
  else (true,
        {| maxLength := maxLength h; pos := posMod (pos h + 1) (maxLength h);
           start := start h; end_ := end_ h; states := states h;
           deepCopy := deepCopy h; lastReturnedState := lastReturnedState h |}).

(** [getState]: with [deepCopy], the entry goes through
    [getDeepCopyOfObject]; [JSON.parse(undefined)] throws. *)
Definition getState (h : t) : completion state_result :=
  if (length (states h) =? 0)%nat then Return Null
  else
    match array_get (states h) (pos h) with
    | Some result =>
        Return (Value (if deepCopy h then getDeepCopyOfObject result else result))
    | None => if deepCopy h then Throw else Return Undefined
    end.

(** The guard of [addToHistory]:
    [this.getState() && JSON.stringify(this.getState()) === JSON.stringify(state)]. *)
Definition isCurrentState (r : state_result) (state : A) : bool :=
  match r with
  | Value a => truthy a && String.eqb (stringify a) (stringify state)
  | _ => false
  end.

Definition addToHistory (state : A) (h : t) : completion bool * t :=
  match getState h with
  | Throw => (Throw, h)
  | Return current =>
      if isCurrentState current state then (Return false, h)
      else
        let moved :=
          if negb (length (states h) =? 0)%nat then
            let end' := posMod (pos h + 1) (maxLength h) in
            let start' :=
              if start h =? end' then posMod (end' + 1) (maxLength h)
              else start h in
            (end', start', end')
          else (pos h, start h, end_ h) in
        let '(pos', start', end') := moved in
        (Return true,
         {| maxLength := maxLength h; pos := pos'; start := start'; end_ := end';
            states := array_set (states h) pos'
                        (if deepCopy h then getDeepCopyOfObject state else state);
            deepCopy := deepCopy h; lastReturnedState := lastReturnedState h |})
  end.

(** The calls a client can make, and the object after each of them (a call
    that throws leaves the object as it was). *)
Inductive call : Type :=
  | AddToHistory (state : A)
  | GoBack
  | GoForward
  | CanGoBack
  | CanGoForward
  | GetState
  | Clear.

Definition after (c : call) (h : t) : t :=
  match c with
  | AddToHistory state => snd (addToHistory state h)
  | GoBack => snd (goBack h)
  | GoForward => snd (goForward h)
  | CanGoBack | CanGoForward | GetState => h
  | Clear => clear h
  end.

Definition run (cs : list call) (h : t) : t :=
  fold_left (fun h c => after c h) cs h.

(** The indices lie in [[0, maxLength)] and the array holds at most
    [maxLength] entries. *)
Definition bounded (h : t) : Prop :=
  0 <= pos h < maxLength h /\ 0 <= start h < maxLength h /\
  0 <= end_ h < maxLength h /\ Z.of_nat (length (states h)) <= maxLength h.

End WithSnapshots.
Arguments t A : clear implicits.
Arguments call A : clear implicits.
Arguments state_result A : clear implicits.
End HistoryManager.

(** ** otherUtil.ts: whitespace *)

(** The code units that [\s] matches. *)
Definition isWhitespace (c : N) : bool :=
  match c with
  | 9 | 10 | 11 | 12 | 13 | 32 | 160 | 5760 | 8232 | 8233 | 8239 | 8287
  | 12288 | 65279 => true
  | _ => (8192 <=? c)%N && (c <=? 8202)%N
  end%N.

(** [!str.replace(/(\s|\n|\r|\n)*/g, '').length]: nothing is left once
    every run of whitespace is removed. *)
Definition stringContainsOnlyWhitespace (str : jstring) : bool :=
  (length (filter (fun c => isWhitespace c = false) str) =? 0)%nat.

(** ** Arrays: reduce and forEach with the index and the array *)

(** [arr.reduce(f, init)] where [f] receives the accumulator, the element,
    its index and the array. *)
Fixpoint reduce_from {E B : Type} (f : B -> E -> nat -> list E -> B)
    (arr : list E) (i : nat) (rest : list E) (acc : B) : B :=
  match rest with
  | [] => acc
  | c :: rest' => reduce_from f arr (S i) rest' (f acc c i arr)
  end.

Definition reduce {E B : Type} (f : B -> E -> nat -> list E -> B)
    (arr : list E) (init : B) : B :=
  reduce_from f arr 0 arr init.

(** ** suggestionUtil.ts: highlights *)

(** A change of the diff library: [value], and the optional flags [added]
    and [removed] (absent reads as false). *)
Module Change.
Record t : Type := mk { value : jstring; added : bool; removed : bool }.
End Change.

Record TextSegmentStructureElement : Type := {
  value : jstring;
  highlight : bool
}.

Inductive Strategy : Type := StrategyRemoved | StrategyAdded.

(** [c[strategy]] *)
Definition flag (strategy : Strategy) (c : Change.t) : bool :=
  match strategy with
  | StrategyRemoved => Change.removed c
  | StrategyAdded => Change.added c
  end.

Module Whitespace.
(** The accumulator of [highlightWhitespaceBetweenHighlights]. *)
Record acc : Type := {
  a : option TextSegmentStructureElement;
  b : option TextSegmentStructureElement;
  result : list TextSegmentStructureElement
}.

Definition initialVal : acc := {| a := None; b := None; result := [] |}.

Definition reducer (acc0 : acc) (c : TextSegmentStructureElement) (i : nat)
    (arr : list TextSegmentStructureElement) : acc :=
  let acc1 :=
    match a acc0, b acc0 with
    | Some ea, Some eb =>
        if highlight ea && negb (highlight eb) && highlight c
           && stringContainsOnlyWhitespace (value eb)
        then
          let newElement :=
            {| value := value ea ++ value eb ++ value c; highlight := true |} in
          {| a := None; b := Some newElement; result := result acc0 |}
        else
          {| a := b acc0; b := Some c; result := result acc0 ++ [ea] |}
    | _, _ => {| a := b acc0; b := Some c; result := result acc0 |}
    end in
  if (i =? length arr - 1)%nat then
    {| a := a acc1; b := b acc1;
       result := result acc1 ++ option_list (a acc1) ++ option_list (b acc1) |}
  else acc1.
End Whitespace.

Definition highlightWhitespaceBetweenHighlights
    (arr : list TextSegmentStructureElement) : list TextSegmentStructureElement :=
  Whitespace.result (reduce Whitespace.reducer arr Whitespace.initialVal).

Module Chain.
(** The accumulator of [getHighlightsWithStrategy]. *)
Record acc : Type := {
  currentChain : option TextSegmentStructureElement;
  result : list TextSegmentStructureElement
}.

Definition initialVal : acc := {| currentChain := None; result := [] |}.

Definition otherStrategy (strategy : Strategy) : Strategy :=
  match strategy with
  | StrategyRemoved => StrategyAdded
  | StrategyAdded => StrategyRemoved
  end.

Definition filterAndCombineChanges (strategy : Strategy) (acc0 : acc)
    (c : Change.t) (i : nat) (arr : list Change.t) : acc :=
  let acc2 :=
    if negb (flag (otherStrategy strategy) c) then
      (* End a chain *)
      let acc1 :=
        match currentChain acc0 with
        | Some chain =>
            if negb (Bool.eqb (highlight chain) (flag strategy c))
            then {| currentChain := None; result := result acc0 ++ [chain] |}
            else acc0
        | None => acc0
        end in
      (* Start a chain, or continue it *)
      match currentChain acc1 with
      | None =>
          {| currentChain :=
               Some {| value := Change.value c; highlight := flag strategy c |};
             result := result acc1 |}
      | Some chain =>
          {| currentChain :=
               Some {| value := value chain ++ Change.value c;
                       highlight := highlight chain |};
             result := result acc1 |}
      end
    else acc0 in
  (* Tidy up if it is the last change *)
  if (i =? length arr - 1)%nat then
    match currentChain acc2 with
    | Some chain =>
        {| currentChain := currentChain acc2; result := result acc2 ++ [chain] |}
    | None => acc2
    end
  else acc2.
End Chain.

Definition getHighlightsWithStrategy (strategy : Strategy) (diff : list Change.t)
    : list TextSegmentStructureElement :=
  let result :=
    Chain.result (reduce (Chain.filterAndCombineChanges strategy) diff Chain.initialVal) in
  highlightWhitespaceBetweenHighlights result.

Record Highlights : Type := {
  fromHighlights : list TextSegmentStructureElement;
  toHighlights : list TextSegmentStructureElement
}.

(** [getHighlights].  [diffWords] belongs to the npm package [diff] and is a
    parameter here. *)
Definition getHighlights (diffWords : jstring -> jstring -> list Change.t)
    (from to : jstring) : Highlights :=
  let diff := diffWords from to in
  {| fromHighlights := getHighlightsWithStrategy StrategyRemoved diff;
     toHighlights := getHighlightsWithStrategy StrategyAdded diff |}.

(** ** otherUtil.ts: splitting text into sentences and whitespace *)

(** A regular expression that is a sequence of groups, each a greedy
    repetition of one character class taken at least [atLeast] times. *)
Record Group : Type := { class : N -> bool; atLeast : nat }.

(** Length of the longest prefix of [s] inside the class. *)
Fixpoint span (p : N -> bool) (s : jstring) : nat :=
  match s with
  | c :: s' => if p c then S (span p s') else 0
  | [] => 0
  end.

(** Backtracking match of the groups at the start of [s]: each group first
    takes as much as it can and gives characters back one at a time while the
    rest of the expression fails.  The result is the captured groups and the
    text after the match. *)
Fixpoint matchGroups (groups : list Group) (s : jstring)
    : option (list jstring * jstring) :=
  match groups with
  | [] => Some ([], s)
  | g :: groups' =>
      (fix try (k : nat) : option (list jstring * jstring) :=
         let attempt :=
           if (atLeast g <=? k)%nat then
             match matchGroups groups' (drop k s) with
             | Some (captures, rest) => Some (take k s :: captures, rest)
             | None => None
             end
           else None in
         match attempt, k with
         | Some m, _ => Some m
         | None, S k' => try k'
         | None, O => None
         end) (span (class g) s)
  end.

(** [str.replace(re, replacement)] with the [g] flag, for an expression that
    matches no empty string: scan from the left, and continue behind each
    match.  [skip] counts the characters of the current match still to pass. *)
Fixpoint replaceAll (groups : list Group) (replacement : list jstring -> jstring)
    (s : jstring) (skip : nat) : jstring :=
  match s with
  | [] => []
  | c :: s' =>
      match skip with
      | S n => replaceAll groups replacement s' n
      | O =>
          match matchGroups groups s with
          | Some (captures, rest) =>
              replacement captures
                ++ replaceAll groups replacement s' (length s - length rest - 1)
          | None => c :: replaceAll groups replacement s' 0
          end
      end
  end.

(** [str.split(sep)] for a separator of one character. *)
Fixpoint split (sep : N) (s : jstring) : list jstring :=
  match s with
  | [] => [[]]
  | c :: s' =>
      if (c =? sep)%N then [] :: split sep s'
      else
        match split sep s' with
        | piece :: pieces => (c :: piece) :: pieces
        | [] => [[c]]
        end
  end.

Definition pipe : N := 124.

(** The classes of the expression.  Inside brackets [|] is an ordinary
    character, so it belongs to each of them. *)
Definition isTerminator (c : N) : bool :=          (* [.|:|!|?] *)
  match c with
  | 46 | 124 | 58 | 33 | 63 => true
  | _ => false
  end%N.

(** The second class: the double quote, the typographic quotes U+201C,
    U+201D, U+2018 and U+2019, the apostrophe, the guillemets, the corner
    brackets U+300C and U+300D, and the round, curly and square brackets. *)
Definition isClosing (c : N) : bool :=
  match c with
  | 34 | 124 | 8220 | 8221 | 8216 | 8217 | 39 | 171 | 187 | 12300 | 12301
  | 40 | 41 | 123 | 125 | 91 | 93 => true
  | _ => false
  end%N.

Definition isSeparator (c : N) : bool :=           (* [\s|\n|\r|\n] *)
  isWhitespace c || (c =? 124)%N.

(** The expression of [splitStringIntoSentencesAndWhitespace]: terminators
    (one or more), closing characters (any number), terminators (any number),
    separators (one or more). *)
Definition sentenceEnd : list Group :=
  [ {| class := isTerminator; atLeast := 1 |};
    {| class := isClosing; atLeast := 0 |};
    {| class := isTerminator; atLeast := 0 |};
    {| class := isSeparator; atLeast := 1 |} ].

(** The replacement: groups 1 to 3, a pipe, group 4, a pipe. *)
Definition markSentenceEnd (captures : list jstring) : jstring :=
  match captures with
  | [g1; g2; g3; g4] => g1 ++ g2 ++ g3 ++ [pipe] ++ g4 ++ [pipe]
  | _ => []
  end.

Definition splitStringIntoSentencesAndWhitespace (str : jstring) : list jstring :=
  let matchedString := replaceAll sentenceEnd markSentenceEnd str 0 in
  List.filter (fun s => (0 <? length s)%nat) (split pipe matchedString).

(** ** types.ts: document trees, marks and text segments *)

(** Attribute values; a node's or a mark's [attrs] is a JSON object. *)
Inductive AttrValue : Type :=
  | AString (s : string)
  | ABoolean (b : bool)
  | ANull.

Definition Attrs := list (string * AttrValue).

(** [attrs[key]] *)
Fixpoint attr_get (key : string) (attrs : Attrs) : option AttrValue :=
  match attrs with
  | [] => None
  | (k, v) :: attrs' => if String.eqb k key then Some v else attr_get key attrs'
  end.

Module Mark.
Record t : Type := mk { type : string; attrs : option Attrs }.
End Mark.

(** [JSONContentStructure] of types.ts: [JSONContent] of the editor with the
    field [textSegmentId] added; every field is optional.  [I] is the type
    of the identifiers: types.ts declares them as strings, and a tree of
    that type is a [JSONContent] below (a document tree of the editor has
    the field absent).  What the parser holds at run time is an [IdValue]
    (see there). *)
#[local] Unset Elimination Schemes.
Inductive JSONContentStructure (I : Type) : Type :=
  mkJSONContent {
    type : option string;
    attrs : option Attrs;
    content : option (list (JSONContentStructure I));
    text : option jstring;
    marks : option (list Mark.t);
    textSegmentId : option I
  }.
#[local] Set Elimination Schemes.
Arguments mkJSONContent {I} type attrs content text marks textSegmentId.
Arguments type {I} j.
Arguments attrs {I} j.
Arguments content {I} j.
Arguments text {I} j.
Arguments marks {I} j.
Arguments textSegmentId {I} j.

Abbreviation JSONContent := (JSONContentStructure string).

Module Translatable.
(** [Translatable] of types.ts, with identifiers of type [I]; [t] is the
    declared type, whose identifiers are strings. *)
Record segment (I : Type) : Type := mk { _id : I; srcText : jstring }.
Arguments mk {I} _id srcText.
Arguments _id {I} s.
Arguments srcText {I} s.
Abbreviation t := (segment string).
End Translatable.

Inductive TextSegmentEditType : Type :=
  | edited | accepted | rejected | created | deleted.

Record TextSegmentEdit : Type := {
  edit_type : TextSegmentEditType;
  before : jstring;
  after : jstring
}.

Module TextSegment.
Record t : Type := mk {
  _id : string;
  srcText : jstring;
  mtText : jstring;
  mtTextStructure : list TextSegmentStructureElement;
  apeText : jstring;
  apeTextStructure : list TextSegmentStructureElement;
  hpeText : jstring;
  suggestionIsActive : bool;
  edits : list TextSegmentEdit
}.
End TextSegment.

(** ** Identifiers at run time *)

(** The parser keeps the replacements of identifiers in a plain object,
    [idReplacements], and reads it with [idReplacements[textSegmentId]].
    A plain object inherits the members of [Object.prototype], so for an
    identifier that is the name of such a member the value read is that
    member although nothing was stored: the object [Object.prototype]
    itself for [__proto__], a built-in function for the other names.  The
    value then takes the place of the identifier.  An [IdValue] is what the
    parser can hold where types.ts says [string]. *)
Inductive IdValue : Type :=
  | IdString (s : string)
  | ObjectPrototype
  | BuiltinFunction (name : string).

#[export] Instance IdValue_eq_dec : EqDecision IdValue.
Proof. solve_decision. Defined.

(** Truthiness: an object and a function are truthy. *)
Definition truthy_value (v : IdValue) : bool :=
  match v with
  | IdString s => truthy_string s
  | ObjectPrototype | BuiltinFunction _ => true
  end.

(** The methods of [Object.prototype] (ECMAScript, with its annex B); the
    property [constructor] holds the function [Object], and [__proto__] is
    an accessor. *)
Definition prototypeMethods : list string :=
  [ "__defineGetter__"; "__defineSetter__"; "__lookupGetter__";
    "__lookupSetter__"; "hasOwnProperty"; "isPrototypeOf";
    "propertyIsEnumerable"; "toLocaleString"; "toString"; "valueOf" ].

(** [Object.prototype[name]], read through an object that has
    [Object.prototype] as its prototype; [None] is [undefined]. *)
Definition inheritedProperty (name : string) : option IdValue :=
  if String.eqb name "__proto__" then Some ObjectPrototype
  else if String.eqb name "constructor" then Some (BuiltinFunction "Object")
  else if bool_decide (name ∈ prototypeMethods) then Some (BuiltinFunction name)
  else None.

(** The property key that a value used in [object[value]] is converted to:
    a string is the key, an object is converted by its [toString], and a
    built-in function to its source text (as V8 prints it). *)
Definition propertyKey (v : IdValue) : string :=
  match v with
  | IdString s => s
  | ObjectPrototype => "[object Object]"
  | BuiltinFunction name => "function " +:+ name +:+ "() { [native code] }"
  end.

Module IdReplacements.
(** [IdReplacements]: the own properties of the object, all of them set by
    the parser to identifiers that [uuid()] returned.  The object starts as
    [{}]. *)
Abbreviation t := (gmap string string).

(** [idReplacements[name]] for a string [name]: an own property, or else
    the member of [Object.prototype] of that name. *)
Definition get (idReplacements : t) (name : string) : option IdValue :=
  match idReplacements !! name with
  | Some replacement => Some (IdString replacement)
  | None => inheritedProperty name
  end.

(** [idReplacements[key] = newId]: the key is converted to a property key;
    the assignment sets an own property, except for [__proto__], whose
    setter ignores a string. *)
Definition set (idReplacements : t) (key : IdValue) (newId : string) : t :=
  let name := propertyKey key in
  if String.eqb name "__proto__" then idReplacements
  else <[name := newId]> idReplacements.
End IdReplacements.

(** The segments and the trees that the parser holds and returns. *)
Abbreviation ParsedSegment := (Translatable.segment IdValue).
Abbreviation ParsedStructure := (JSONContentStructure IdValue).

(** A tree and a segment of the declared types as values at run time. *)
Fixpoint atRunTime (node : JSONContent) : ParsedStructure :=
  match node with
  | mkJSONContent type0 attrs0 content0 text0 marks0 id0 =>
      {| type := type0; attrs := attrs0;
         content :=
           match content0 with
           | Some content1 => Some (map atRunTime content1)
           | None => None
           end;
         text := text0; marks := marks0;
         textSegmentId :=
           match id0 with Some id => Some (IdString id) | None => None end |}
  end.

Definition segmentAtRunTime (ts : Translatable.t) : ParsedSegment :=
  Translatable.mk (IdString (Translatable._id ts)) (Translatable.srcText ts).

(** ** editorUtil.ts: parsing the editor content *)

(** A value that is a string, [null] or [undefined]: [None] is either of the
    last two. *)
Definition truthy_id (textSegmentId : option string) : bool :=
  match textSegmentId with
  | Some s => truthy_string s
  | None => false
  end.

(** The same for a value at run time. *)
Definition truthy_idValue (textSegmentId : option IdValue) : bool :=
  match textSegmentId with
  | Some v => truthy_value v
  | None => false
  end.

(** [m.attrs?.textSegmentId]; the attribute holds a string when it is there
    ([MarkIds] in types.ts). *)
Definition mark_textSegmentId (m : Mark.t) : option string :=
  match Mark.attrs m with
  | Some attrs0 =>
      match attr_get "textSegmentId" attrs0 with
      | Some (AString s) => Some s
      | _ => None
      end
  | None => None
  end.

Definition getTextSegmentIdFromMarks (marks : list Mark.t) : option string :=
  fold_left
    (fun textSegmentId m =>
       if truthy_id textSegmentId then textSegmentId else mark_textSegmentId m)
    marks None.

Module Merge.
(** The variables of [mergeTextSegmentsWithSameId]; [currentId] and
    [currentText] are undefined until the first segment is seen. *)
Record vars : Type := {
  cleanedTextSegments : list ParsedSegment;
  currentId : option IdValue;
  currentText : option jstring
}.

Definition initial : vars :=
  {| cleanedTextSegments := []; currentId := None; currentText := None |}.

Definition truthy_currentText (v : vars) : bool :=
  match currentText v with
  | Some s => truthy_text s
  | None => false
  end.

Definition push (v : vars) : vars :=
  {| cleanedTextSegments :=
       cleanedTextSegments v
         ++ [Translatable.mk (default (IdString "") (currentId v))
               (default [] (currentText v))];
     currentId := currentId v; currentText := currentText v |}.

Definition body (v : vars) (ts : ParsedSegment) (i : nat)
    (arr : list ParsedSegment) : vars :=
  let v2 :=
    if negb (bool_decide (Some (Translatable._id ts) = currentId v)) then
      (* End chain and start new one *)
      let v1 :=
        if truthy_currentText v && truthy_idValue (currentId v) then push v else v in
      {| cleanedTextSegments := cleanedTextSegments v1;
         currentId := Some (Translatable._id ts);
         currentText := Some (Translatable.srcText ts) |}
    else
      (* Continue chain *)
      {| cleanedTextSegments := cleanedTextSegments v;
         currentId := currentId v;
         currentText := Some (default [] (currentText v) ++ Translatable.srcText ts) |} in
  if (length arr =? i + 1)%nat then
    if truthy_currentText v2 then push v2 else v2
  else v2.
End Merge.

(** [mergeTextSegmentsWithSameId]; the segments are those of the parser,
    with the identifiers it holds at run time. *)
Definition mergeTextSegmentsWithSameId
    (textSegments : list ParsedSegment)
    : list ParsedSegment :=
  Merge.cleanedTextSegments (reduce Merge.body textSegments Merge.initial).

(** [removeDuplicateTextNodes]: the state is the new content and [lastId]. *)
Definition removeDuplicateTextNodes (content : list ParsedStructure)
    : list ParsedStructure :=
  fst
    (fold_left
       (fun '(newContent, lastId) node =>
          (if negb (truthy_idValue (textSegmentId node))
              || negb (bool_decide (lastId = textSegmentId node))
           then newContent ++ [node] else newContent,
           textSegmentId node))
       content ([], None)).

(** [getLastElementInArray] *)
Definition getLastElementInArray {E : Type} (arr : list E) : option E :=
  last arr.

(** [requiresNewTextSegmentId]; the parse history holds identifiers and the
    words [blank] and [break]. *)
Definition requiresNewTextSegmentId (textSegmentId : option IdValue)
    (parseHistory : list IdValue) : bool :=
  match textSegmentId with
  | Some id =>
      negb (truthy_value id)
      || (negb (bool_decide (getLastElementInArray parseHistory = Some id))
          && bool_decide (id ∈ parseHistory))
  | None => true
  end.

(** [getTextSegmentIdFromMarksWithReplacement]: the identifier of the marks,
    or what [idReplacements] has under that name when it is truthy. *)
Definition getTextSegmentIdFromMarksWithReplacement (marks : list Mark.t)
    (idReplacements : IdReplacements.t) : option IdValue :=
  let textSegmentId := getTextSegmentIdFromMarks marks in
  if negb (truthy_id textSegmentId) then None
  else
    match textSegmentId with
    | Some id =>
        match IdReplacements.get idReplacements id with
        | Some replacement =>
            if truthy_value replacement then Some replacement else Some (IdString id)
        | None => Some (IdString id)
        end
    | None => None
    end.

(** What [parseEditorContentInternal] returns, and the number of calls of
    [uuid()] made so far. *)
Record ParseResult : Type := {
  textSegments : list ParsedSegment;
  structures : list ParsedStructure;
  parseHistory : list IdValue;
  idReplacements : IdReplacements.t;
  uuidCalls : nat
}.

(** [{ ...structureProps, textSegmentId }] *)
Definition segmentLeaf {I : Type} (type0 : option string) (attrs0 : option Attrs)
    (id : I) : JSONContentStructure I :=
  {| type := type0; attrs := attrs0; content := None; text := None;
     marks := None; textSegmentId := Some id |}.

(** [{ ...structureProps, text: str }] *)
Definition textLeaf {I : Type} (type0 : option string) (attrs0 : option Attrs)
    (str : jstring) : JSONContentStructure I :=
  {| type := type0; attrs := attrs0; content := None; text := Some str;
     marks := None; textSegmentId := None |}.

Section Parse.
(** [uuid n] is what the [n]-th call of [uuid()] returns (counting from 0). *)
Variable uuid : nat -> string.

(** A leaf with text and marks. *)
Definition parseMarkedLeaf (type0 : option string) (attrs0 : option Attrs)
    (text0 : jstring) (marks0 : list Mark.t) (parseHistory0 : list IdValue)
    (idReplacements0 : IdReplacements.t) (calls : nat) : ParseResult :=
  let textSegmentId0 :=
    getTextSegmentIdFromMarksWithReplacement marks0 idReplacements0 in
  let '(id, idReplacements1, calls1) :=
    match textSegmentId0 with
    | Some id0 =>
        if negb (truthy_idValue textSegmentId0)
           || requiresNewTextSegmentId textSegmentId0 parseHistory0
        then
          let newId := uuid calls in
          (IdString newId,
           if truthy_idValue textSegmentId0
           then IdReplacements.set idReplacements0 id0 newId
           else idReplacements0,
           S calls)
        else (id0, idReplacements0, calls)
    | None => (IdString (uuid calls), idReplacements0, S calls)
    end in
  {| textSegments := [Translatable.mk id text0];
     structures := [segmentLeaf type0 attrs0 id];
     parseHistory := [id];
     idReplacements := idReplacements1;
     uuidCalls := calls1 |}.

(** A leaf with text and no marks: the body of [splitText.forEach]. *)
Definition parseRawPiece (type0 : option string) (attrs0 : option Attrs)
    (r : ParseResult) (str : jstring) : ParseResult :=
  if stringContainsOnlyWhitespace str then
    {| textSegments := textSegments r;
       structures := structures r ++ [textLeaf type0 attrs0 str];
       parseHistory := parseHistory r ++ [IdString "blank"];
       idReplacements := idReplacements r;
       uuidCalls := uuidCalls r |}
  else
    let id := IdString (uuid (uuidCalls r)) in
    {| textSegments := textSegments r ++ [Translatable.mk id str];
       structures := structures r ++ [segmentLeaf type0 attrs0 id];
       parseHistory := parseHistory r ++ [id];
       idReplacements := idReplacements r;
       uuidCalls := S (uuidCalls r) |}.

Definition parseRawText (type0 : option string) (attrs0 : option Attrs)
    (text0 : jstring) (idReplacements0 : IdReplacements.t) (calls : nat)
    : ParseResult :=
  fold_left (parseRawPiece type0 attrs0)
    (splitStringIntoSentencesAndWhitespace text0)
    {| textSegments := []; structures := []; parseHistory := [];
       idReplacements := idReplacements0; uuidCalls := calls |}.

(** [content.forEach((child) => ...)]: [r] holds [tempTextSegments],
    [tempContent], [localParseHistory], [idReplacements] and the calls of
    [uuid()]; [parseChild] is the recursive call. *)
Fixpoint forEachChild
    (parseChild : JSONContent -> list IdValue -> IdReplacements.t -> nat -> ParseResult)
    (parseHistory0 : list IdValue) (children : list JSONContent) (r : ParseResult)
    : ParseResult :=
  match children with
  | [] => r
  | child :: children' =>
      let c :=
        parseChild child (parseHistory0 ++ parseHistory r) (idReplacements r)
          (uuidCalls r) in
      forEachChild parseChild parseHistory0 children'
        {| textSegments := textSegments r ++ textSegments c;
           structures := structures r ++ structures c;
           parseHistory := parseHistory r ++ parseHistory c;
           idReplacements := idReplacements c;
           uuidCalls := uuidCalls c |}
  end.

(** What a node with children returns, given the result of the loop. *)
Definition finishNode (type0 : option string) (attrs0 : option Attrs)
    (r : ParseResult) : ParseResult :=
  {| textSegments := mergeTextSegmentsWithSameId (textSegments r);
     structures :=
       [ {| type := type0; attrs := attrs0;
            content := Some (removeDuplicateTextNodes (structures r));
            text := None; marks := None; textSegmentId := None |} ];
     parseHistory := parseHistory r ++ [IdString "break"];
     idReplacements := idReplacements r;
     uuidCalls := uuidCalls r |}.

(** [parseEditorContentInternal].  The node is a JSON tree of the declared
    type, on which [getDeepCopyOfObject] is the identity. *)
Fixpoint parseEditorContentInternal (contentNode : JSONContent)
    (parseHistory0 : list IdValue) (oldIdReplacements : IdReplacements.t)
    (calls : nat) {struct contentNode} : ParseResult :=
  match contentNode with
  | mkJSONContent type0 attrs0 content0 text0 marks0 _ =>
      match text0 with
      | Some text1 =>
          (* Leaf node *)
          match marks0 with
          | Some marks1 =>
              parseMarkedLeaf type0 attrs0 text1 marks1 parseHistory0
                oldIdReplacements calls
          | None => parseRawText type0 attrs0 text1 oldIdReplacements calls
          end
      | None =>
          match content0 with
          | None =>
              (* Leaf node without text *)
              {| textSegments := []; structures := [atRunTime contentNode];
                 parseHistory := [IdString "break"];
                 idReplacements := oldIdReplacements; uuidCalls := calls |}
          | Some content1 =>
              (* Not a leaf node *)
              finishNode type0 attrs0
                (forEachChild parseEditorContentInternal parseHistory0 content1
                   {| textSegments := []; structures := []; parseHistory := [];
                      idReplacements := oldIdReplacements; uuidCalls := calls |})
          end
      end
  end.

(** [parseEditorContent]: [structures[0]] is [None] when the array is
    empty. *)
Definition parseEditorContent (editorContent : JSONContent)
    : list ParsedSegment * option ParsedStructure :=
  let r := parseEditorContentInternal editorContent [] ∅ 0 in
  (textSegments r, head (structures r)).
End Parse.

(** ** editorUtil.ts: building the editor content *)

(** [TextSegmentMark.name], [TextSegmentMark.idName], [SuggestionMark.name] *)
Definition TextSegmentMark_name : string := "textSegmentMark".
Definition TextSegmentMark_idName : string := "textSegmentId".
Definition SuggestionMark_name : string := "suggestionMark".

(** suggestionUtil.ts *)
Definition hasActiveSuggestion (textSegment : TextSegment.t) : bool :=
  TextSegment.suggestionIsActive textSegment.

(** [{ type: 'text', text, marks }] *)
Definition textRegion (text0 : jstring) (marks0 : list Mark.t) : JSONContent :=
  {| type := Some "text"; attrs := None; content := None; text := Some text0;
     marks := Some marks0; textSegmentId := None |}.

(** The text nodes that stand for one text segment. *)
Definition textSegmentRegions (textSegment : TextSegment.t) (takeSource : bool)
    : list JSONContent :=
  let textSegmentMark :=
    Mark.mk TextSegmentMark_name
      (Some [ (TextSegmentMark_idName, AString (TextSegment._id textSegment));
              ("hasSuggestion", ABoolean (TextSegment.suggestionIsActive textSegment)) ]) in
  let suggestionMark :=
    Mark.mk SuggestionMark_name
      (Some [ (TextSegmentMark_idName, AString (TextSegment._id textSegment)) ]) in
  if hasActiveSuggestion textSegment then
    if takeSource then
      [ textRegion (TextSegment.srcText textSegment) [textSegmentMark; suggestionMark] ]
    else
      map (fun s =>
             textRegion (value s)
               (if highlight s then [textSegmentMark; suggestionMark]
                else [textSegmentMark]))
          (TextSegment.mtTextStructure textSegment)
  else
    [ textRegion
        (if takeSource then TextSegment.srcText textSegment
         else TextSegment.hpeText textSegment)
        [textSegmentMark] ].

(** [textSegments.find((ts) => ts._id === textSegmentId)] *)
Definition findTextSegment (textSegments : list TextSegment.t) (id : string)
    : option TextSegment.t :=
  List.find (fun ts => String.eqb (TextSegment._id ts) id) textSegments.

(** [content.forEach((element) => ...)] of the builder; an exception of a
    child ends the loop. *)
Fixpoint buildEach (build : JSONContent -> completion (list JSONContent))
    (content0 : list JSONContent) (newContent : list JSONContent)
    : completion (list JSONContent) :=
  match content0 with
  | [] => Return newContent
  | element :: content1 =>
      match build element with
      | Return childTargetObjects =>
          buildEach build content1 (newContent ++ childTargetObjects)
      | Throw => Throw
      end
  end.

Fixpoint buildEditorContentWithMarksInternal (structure : JSONContent)
    (textSegments0 : list TextSegment.t) (takeSource : bool) {struct structure}
    : completion (list JSONContent) :=
  match structure with
  | mkJSONContent type0 attrs0 content0 text0 _ textSegmentId0 =>
      match text0 with
      | Some text1 =>
          (* Text nodes cannot be empty *)
          if truthy_text text1 then Return [structure] else Return []
      | None =>
          match textSegmentId0 with
          | Some id =>
              match findTextSegment textSegments0 id with
              | None => Throw
              | Some textSegment =>
                  Return
                    (List.filter
                       (fun x => negb (bool_decide (text x = Some [])))
                       (textSegmentRegions textSegment takeSource))
              end
          | None =>
              match content0 with
              | Some content1 =>
                  match
                    buildEach
                      (fun element =>
                         buildEditorContentWithMarksInternal element textSegments0
                           takeSource)
                      content1 []
                  with
                  | Return newContent =>
                      Return
                        [ {| type := type0; attrs := attrs0;
                             content := Some newContent; text := None;
                             marks := None; textSegmentId := None |} ]
                  | Throw => Throw
                  end
              | None =>
                  Return
                    [ {| type := type0; attrs := attrs0; content := None;
                         text := None; marks := None; textSegmentId := None |} ]
              end
          end
      end
  end.

(** [buildEditorContentWithMarks]: element 0 of the array, [None] when the
    array is empty. *)
Definition buildEditorContentWithMarks (structure : JSONContent)
    (textSegments0 : list TextSegment.t) (takeSource : bool)
    : completion (option JSONContent) :=
  match buildEditorContentWithMarksInternal structure textSegments0 takeSource with
  | Return targetObjects => Return (head targetObjects)
  | Throw => Throw
  end.

(** The text of a tree: the text of its leaves, from left to right. *)
Fixpoint leafText (node : JSONContent) : jstring :=
  match node with
  | mkJSONContent _ _ content0 text0 _ _ =>
      default [] text0
        ++ match content0 with
           | Some content1 => concat (map leafText content1)
           | None => []
           end
  end.

(** A segment of the parser taken as a segment without suggestion, whose
    displayed text is its source text. *)
Definition nonSuggesting (ts : Translatable.t) : TextSegment.t :=
  {| TextSegment._id := Translatable._id ts;
     TextSegment.srcText := Translatable.srcText ts;
     TextSegment.mtText := [];
     TextSegment.mtTextStructure := [];
     TextSegment.apeText := [];
     TextSegment.apeTextStructure := [];
     TextSegment.hpeText := Translatable.srcText ts;
     TextSegment.suggestionIsActive := false;
     TextSegment.edits := [] |}.

(** ** otherUtil.ts: removeTrailingWhitespace and onlyUniqueValues *)

(** Line terminators, before which [$] matches under the [m] flag. *)
Definition isLineTerminator (c : N) : bool :=
  match c with
  | 10 | 13 | 8232 | 8233 => true
  | _ => false
  end%N.

(** [$] with the [m] flag at the start of [s]: the end of the input, or the
    position before a line terminator. *)
Definition atLineEnd (s : jstring) : bool :=
  match s with
  | [] => true
  | c :: _ => isLineTerminator c
  end.

(** The match of [(\s|\n|\r|\n)*$] at the start of [s]: the star takes the
    whole run of whitespace and gives characters back one at a time until
    [$] matches.  The result is the length of the match. *)
Fixpoint matchTrailing_from (s : jstring) (k : nat) : option nat :=
  if atLineEnd (drop k s) then Some k
  else
    match k with
    | S k' => matchTrailing_from s k'
    | O => None
    end.

Definition matchTrailing (s : jstring) : option nat :=
  matchTrailing_from s (span isWhitespace s).

(** [str.replace(/(\s|\n|\r|\n)*$/gm, '')]: scan from the left and continue
    behind each match; a match of length zero removes nothing and the scan
    moves on by one character.  [skip] counts the characters of the current
    match still to pass. *)
Fixpoint removeTrailingWhitespace_from (s : jstring) (skip : nat) : jstring :=
  match s with
  | [] => []
  | c :: s' =>
      match skip with
      | S n => removeTrailingWhitespace_from s' n
      | O =>
          match matchTrailing s with
          | Some (S n) => removeTrailingWhitespace_from s' n
          | _ => c :: removeTrailingWhitespace_from s' 0
          end
      end
  end.

Definition removeTrailingWhitespace (str : jstring) : jstring :=
  removeTrailingWhitespace_from str 0.

(** [self.indexOf(value)], as an index when the value occurs. *)
Fixpoint indexOf (self : list string) (value : string) : option nat :=
  match self with
  | [] => None
  | x :: self' =>
      if String.eqb x value then Some 0%nat
      else option_map S (indexOf self' value)
  end.

Definition onlyUniqueValues (value : string) (index : nat) (self : list string)
    : bool :=
  bool_decide (indexOf self value = Some index).

(** [arr.filter(f)] where [f] receives the element, its index and the
    array. *)
Fixpoint filter_from {E : Type} (f : E -> nat -> list E -> bool)
    (arr : list E) (i : nat) (rest : list E) : list E :=
  match rest with
  | [] => []
  | x :: rest' =>
      if f x i arr then x :: filter_from f arr (S i) rest'
      else filter_from f arr (S i) rest'
  end.

Definition filter_indexed {E : Type} (f : E -> nat -> list E -> bool)
    (arr : list E) : list E :=
  filter_from f arr 0 arr.

(** ** suggestionUtil.ts: moving between the suggestions *)

Definition defaultTextSegmentId : string := "-1".

(** [getCleanId]: [None] is [null] or [undefined]; [String(id)] of a string
    is the string. *)
Definition getCleanId (id : option string) : string :=
  match id with
  | None => defaultTextSegmentId
  | Some s => s
  end.

Inductive Direction : Type := forward | backward.

(** [arr.findIndex(p)]: -1 when no element satisfies [p]. *)
Fixpoint findIndex {E : Type} (p : E -> bool) (arr : list E) : Z :=
  match arr with
  | [] => (-1)%Z
  | x :: arr' =>
      if p x then 0%Z
      else
        let i := findIndex p arr' in
        if (i <? 0)%Z then (-1)%Z else (i + 1)%Z
  end.

(** [arr[i]] of an array without holes; [None] is [undefined]. *)
Definition element_at {E : Type} (arr : list E) (i : Z) : option E :=
  if (i <? 0)%Z then None else arr !! Z.to_nat i.

Definition getIdOfAdjacentTextSegmentWithActiveSuggestion
    (currentTextSegment : TextSegment.t) (textSegments : list TextSegment.t)
    (direction : Direction) : string :=
  let tsWithSuggestion :=
    List.filter
      (fun ts =>
         TextSegment.suggestionIsActive ts
         || String.eqb (TextSegment._id ts) (TextSegment._id currentTextSegment))
      textSegments in
  let currentIndex :=
    findIndex
      (fun ts => String.eqb (TextSegment._id ts) (TextSegment._id currentTextSegment))
      tsWithSuggestion in
  let newId :=
    option_map TextSegment._id
      (element_at tsWithSuggestion
         (currentIndex + match direction with forward => 1 | backward => -1 end)%Z) in
  getCleanId newId.

Definition getTextSegmentsWithActiveSuggestion (textSegments : list TextSegment.t)
    : list TextSegment.t :=
  List.filter hasActiveSuggestion textSegments.

(** ** store/index.ts: the methods that change the text segments *)

Module TranslationResult.
Record t : Type := mk {
  _id : string;
  srcText : jstring;
  mtText : jstring;
  apeText : jstring
}.
End TranslationResult.

Module Store.

(** [arr.forEach(f)] where [f] changes the element it is given, or throws:
    the outcome and the array afterwards.  An exception ends the loop; the
    elements visited before stay changed. *)
Fixpoint forEachSegment (f : TextSegment.t -> completion TextSegment.t)
    (arr : list TextSegment.t) : completion unit * list TextSegment.t :=
  match arr with
  | [] => (Return tt, [])
  | ts :: arr' =>
      match f ts with
      | Throw => (Throw, ts :: arr')
      | Return ts' =>
          let r := forEachSegment f arr' in
          (fst r, ts' :: snd r)
      end
  end.

(** The callback of [applySuggestion]. *)
Definition acceptIn (_id : string) (ts : TextSegment.t) : completion TextSegment.t :=
  if String.eqb (TextSegment._id ts) _id then
    if negb (TextSegment.suggestionIsActive ts) then Throw
    else
      let before0 := TextSegment.hpeText ts in
      let after0 := TextSegment.apeText ts in
      Return
        {| TextSegment._id := TextSegment._id ts;
           TextSegment.srcText := TextSegment.srcText ts;
           TextSegment.mtText := TextSegment.mtText ts;
           TextSegment.mtTextStructure := TextSegment.mtTextStructure ts;
           TextSegment.apeText := TextSegment.apeText ts;
           TextSegment.apeTextStructure := TextSegment.apeTextStructure ts;
           TextSegment.hpeText := after0;
           TextSegment.suggestionIsActive := false;
           TextSegment.edits :=
             TextSegment.edits ts
               ++ [ {| edit_type := accepted; before := before0; after := after0 |} ] |}
  else Return ts.

(** [applySuggestion]: the state's [augmentedTextSegments] is an array or
    [null]. *)
Definition applySuggestion (textSegment : TextSegment.t)
    (augmentedTextSegments : option (list TextSegment.t))
    : completion unit * option (list TextSegment.t) :=
  match augmentedTextSegments with
  | None => (Throw, None)
  | Some segments =>
      let r := forEachSegment (acceptIn (TextSegment._id textSegment)) segments in
      (fst r, Some (snd r))
  end.

(** The callback of [discardSuggestion]. *)
Definition rejectIn (_id : string) (ts : TextSegment.t) : completion TextSegment.t :=
  if String.eqb (TextSegment._id ts) _id then
    if negb (TextSegment.suggestionIsActive ts) then Throw
    else
      let before0 := TextSegment.hpeText ts in
      let after0 := TextSegment.mtText ts in
      Return
        {| TextSegment._id := TextSegment._id ts;
           TextSegment.srcText := TextSegment.srcText ts;
           TextSegment.mtText := TextSegment.mtText ts;
           TextSegment.mtTextStructure := TextSegment.mtTextStructure ts;
           TextSegment.apeText := TextSegment.apeText ts;
           TextSegment.apeTextStructure := TextSegment.apeTextStructure ts;
           TextSegment.hpeText := after0;
           TextSegment.suggestionIsActive := false;
           TextSegment.edits :=
             TextSegment.edits ts
               ++ [ {| edit_type := rejected; before := before0; after := after0 |} ] |}
  else Return ts.

Definition discardSuggestion (textSegment : TextSegment.t)
    (augmentedTextSegments : option (list TextSegment.t))
    : completion unit * option (list TextSegment.t) :=
  match augmentedTextSegments with
  | None => (Throw, None)
  | Some segments =>
      let r := forEachSegment (rejectIn (TextSegment._id textSegment)) segments in
      (fst r, Some (snd r))
  end.

(** The segment that [applyEdits] adds for an identifier it has not seen. *)
Definition createdSegment (nts : Translatable.t) : TextSegment.t :=
  {| TextSegment._id := Translatable._id nts;
     TextSegment.srcText := [];
     TextSegment.mtText := [];
     TextSegment.mtTextStructure := [];
     TextSegment.apeText := [];
     TextSegment.apeTextStructure := [];
     TextSegment.hpeText := Translatable.srcText nts;
     TextSegment.suggestionIsActive := false;
     TextSegment.edits :=
       [ {| edit_type := created; before := []; after := Translatable.srcText nts |} ] |}.

(** The callback of the first loop of [applyEdits].  [find] returns the
    first segment with the identifier; changing that object changes the
    array at its index. *)
Definition applyEdit (segments : list TextSegment.t) (nts : Translatable.t)
    : list TextSegment.t :=
  match list_find (fun s => TextSegment._id s = Translatable._id nts) segments with
  | None => segments ++ [createdSegment nts]
  | Some (i, existingTextSegment) =>
      if negb (bool_decide (Translatable.srcText nts
                            = TextSegment.hpeText existingTextSegment))
      then
        let before0 := TextSegment.hpeText existingTextSegment in
        let after0 := Translatable.srcText nts in
        <[ i :=
             {| TextSegment._id := TextSegment._id existingTextSegment;
                TextSegment.srcText := TextSegment.srcText existingTextSegment;
                TextSegment.mtText := TextSegment.mtText existingTextSegment;
                TextSegment.mtTextStructure :=
                  TextSegment.mtTextStructure existingTextSegment;
                TextSegment.apeText := TextSegment.apeText existingTextSegment;
                TextSegment.apeTextStructure :=
                  TextSegment.apeTextStructure existingTextSegment;
                TextSegment.hpeText := after0;
                TextSegment.suggestionIsActive := false;
                TextSegment.edits :=
                  TextSegment.edits existingTextSegment
                    ++ [ {| edit_type := edited; before := before0; after := after0 |} ] |}
        ]> segments
      else segments
  end.

(** The callback of the second loop of [applyEdits]. *)
Definition markDeleted (newTextSegments : list Translatable.t)
    (existingTextSegment : TextSegment.t) : TextSegment.t :=
  match
    List.find
      (fun s => String.eqb (Translatable._id s) (TextSegment._id existingTextSegment))
      newTextSegments
  with
  | Some _ => existingTextSegment
  | None =>
      {| TextSegment._id := TextSegment._id existingTextSegment;
         TextSegment.srcText := TextSegment.srcText existingTextSegment;
         TextSegment.mtText := TextSegment.mtText existingTextSegment;
         TextSegment.mtTextStructure := TextSegment.mtTextStructure existingTextSegment;
         TextSegment.apeText := TextSegment.apeText existingTextSegment;
         TextSegment.apeTextStructure :=
           TextSegment.apeTextStructure existingTextSegment;
         TextSegment.hpeText := [];
         TextSegment.suggestionIsActive := false;
         TextSegment.edits :=
           TextSegment.edits existingTextSegment
             ++ [ {| edit_type := deleted;
                     before := TextSegment.hpeText existingTextSegment;
                     after := [] |} ] |}
  end.

Definition applyEdits (newTextSegments : list Translatable.t)
    (augmentedTextSegments : option (list TextSegment.t))
    : completion unit * option (list TextSegment.t) :=
  match augmentedTextSegments with
  | None => (Throw, None)
  | Some segments =>
      (Return tt,
       Some (map (markDeleted newTextSegments)
               (fold_left applyEdit newTextSegments segments)))
  end.

(** The segments that [updateState] derives from [textSegmentsFromApi]. *)
Definition augment (diffWords : jstring -> jstring -> list Change.t)
    (ts : TranslationResult.t) : TextSegment.t :=
  let hasActiveSuggestion0 :=
    negb (bool_decide (TranslationResult.mtText ts = TranslationResult.apeText ts)) in
  let structure :=
    getHighlights diffWords (TranslationResult.mtText ts) (TranslationResult.apeText ts) in
  {| TextSegment._id := TranslationResult._id ts;
     TextSegment.srcText := TranslationResult.srcText ts;
     TextSegment.mtText := TranslationResult.mtText ts;
     TextSegment.mtTextStructure := fromHighlights structure;
     TextSegment.apeText := TranslationResult.apeText ts;
     TextSegment.apeTextStructure := toHighlights structure;
     TextSegment.hpeText := TranslationResult.mtText ts;
     TextSegment.suggestionIsActive := hasActiveSuggestion0;
     TextSegment.edits := [] |}.

(** The calls that change the segments, and the segments after each of them
    (an exception leaves what was changed before it). *)
Inductive call : Type :=
  | ApplySuggestion (textSegment : TextSegment.t)
  | DiscardSuggestion (textSegment : TextSegment.t)
  | ApplyEdits (newTextSegments : list Translatable.t).

Definition afterCall (c : call) (augmentedTextSegments : option (list TextSegment.t))
    : option (list TextSegment.t) :=
  match c with
  | ApplySuggestion ts => snd (applySuggestion ts augmentedTextSegments)
  | DiscardSuggestion ts => snd (discardSuggestion ts augmentedTextSegments)
  | ApplyEdits nts => snd (applyEdits nts augmentedTextSegments)
  end.

Definition run (cs : list call) (augmentedTextSegments : option (list TextSegment.t))
    : option (list TextSegment.t) :=
  fold_left (fun s c => afterCall c s) cs augmentedTextSegments.

End Store.

(** ** Sample inputs *)

(** A diff function that returns an edit script of at most two changes; it
    stands in for [diffWords] where a concrete function is needed. *)
Definition coarseDiff (from to : jstring) : list Change.t :=
  if bool_decide (from = to) then [Change.mk from false false]
  else [Change.mk from false true; Change.mk to true false].

(** An identifier generator: [uuid-0], [uuid-1], ... *)
Definition sampleUuid (n : nat) : string := "uuid-" +:+ pretty n.

Definition docNode {I : Type} (children : list (JSONContentStructure I))
    : JSONContentStructure I :=
  {| type := Some "doc"; attrs := None; content := Some children; text := None;
     marks := None; textSegmentId := None |}.

Definition paragraph {I : Type} (children : list (JSONContentStructure I))
    : JSONContentStructure I :=
  {| type := Some "paragraph"; attrs := None; content := Some children;
     text := None; marks := None; textSegmentId := None |}.

Definition rawText (s : string) : JSONContent :=
  {| type := Some "text"; attrs := None; content := None; text := Some (js s);
     marks := None; textSegmentId := None |}.

Definition markedText (id : string) (s : string) : JSONContent :=
  {| type := Some "text"; attrs := None; content := None; text := Some (js s);
     marks := Some [Mark.mk TextSegmentMark_name
                      (Some [(TextSegmentMark_idName, AString id)])];
     textSegmentId := None |}.

(** The segments of the unit test: identifiers 0 to 9, a suggestion on the
    even ones. *)
Definition numberedSegment (i : nat) : TextSegment.t :=
  {| TextSegment._id := pretty i; TextSegment.srcText := [];
     TextSegment.mtText := []; TextSegment.mtTextStructure := [];
     TextSegment.apeText := []; TextSegment.apeTextStructure := [];
     TextSegment.hpeText := []; TextSegment.suggestionIsActive := Nat.even i;
     TextSegment.edits := [] |}.

(** A paragraph with a segment that has an active suggestion, some
    whitespace and a segment without suggestion. *)
Definition sampleSkeleton : JSONContent :=
  docNode [paragraph [segmentLeaf (Some "text") None "b";
                      textLeaf (Some "text") None (js " ");
                      segmentLeaf (Some "text") None "a"]].

Definition sampleStore : list TextSegment.t :=
  [ {| TextSegment._id := "a"; TextSegment.srcText := js "Hallo";
       TextSegment.mtText := js "Hello"; TextSegment.mtTextStructure := [];
       TextSegment.apeText := js "Hello"; TextSegment.apeTextStructure := [];
       TextSegment.hpeText := js "Hello"; TextSegment.suggestionIsActive := false;
       TextSegment.edits := [] |};
    {| TextSegment._id := "b"; TextSegment.srcText := js "kleine Welt";
       TextSegment.mtText := js "small World";
       TextSegment.mtTextStructure :=
         [ {| value := js "small"; highlight := true |};
           {| value := []; highlight := false |};
           {| value := js " World"; highlight := false |} ];
       TextSegment.apeText := js "little World"; TextSegment.apeTextStructure := [];
       TextSegment.hpeText := js "small World"; TextSegment.suggestionIsActive := true;
       TextSegment.edits := [] |} ].

Definition sampleBuilt : JSONContent :=
  let mark id hasSuggestion :=
    Mark.mk TextSegmentMark_name
      (Some [ (TextSegmentMark_idName, AString id);
              ("hasSuggestion", ABoolean hasSuggestion) ]) in
  let suggestion id :=
    Mark.mk SuggestionMark_name (Some [ (TextSegmentMark_idName, AString id) ]) in
  docNode [paragraph [textRegion (js "small") [mark "b" true; suggestion "b"];
                      textRegion (js " World") [mark "b" true];
                      textLeaf (Some "text") None (js " ");
                      textRegion (js "Hello") [mark "a" false]]].

(** What a click on the suggestion of segment b passes on: only the
    identifier matters. *)
Definition sampleTarget : TextSegment.t :=
  {| TextSegment._id := "b"; TextSegment.srcText := []; TextSegment.mtText := [];
     TextSegment.mtTextStructure := []; TextSegment.apeText := [];
     TextSegment.apeTextStructure := []; TextSegment.hpeText := [];
     TextSegment.suggestionIsActive := true; TextSegment.edits := [] |}.

(** * Properties *)

(** ** posMod *)

Lemma posMod_range (n m : Z) : (0 < m)%Z -> (0 <= posMod n m < m)%Z.
Proof.
  intros Hm. unfold posMod. cbv zeta.
  destruct (Z.leb_spec 0 (Z.rem n m)) as [Hr | Hr].
  - split; [done|].
    destruct (Z.le_gt_cases 0 n) as [Hn | Hn].
    + by apply Z.rem_bound_pos.
    + pose proof (Z.rem_bound_pos_neg n m Hm ltac:(lia)) as Hb. lia.
  - destruct (Z.le_gt_cases 0 n) as [Hn | Hn].
    + pose proof (Z.rem_bound_pos n m Hn Hm). lia.
    + pose proof (Z.rem_bound_pos_neg n m Hm ltac:(lia)) as Hb. lia.
Qed.

Lemma posMod_small (n m : Z) : (0 <= n < m)%Z -> posMod n m = n.
Proof.
  intros Hn. unfold posMod. rewrite Z.rem_small by done.
  destruct (Z.leb_spec 0 n); [done | lia].
Qed.

Lemma posMod_same (m : Z) : (0 < m)%Z -> posMod m m = 0%Z.
Proof.
  intros Hm. unfold posMod. rewrite Z.rem_same by lia. done.
Qed.

(** The table of the unit test of [posMod]. *)
Example posMod_unit_test :
  map (fun '(n, m) => posMod n m)
      [(5, 22); (25, 22); (-1, 22); (-2, 22); (10, 3); (10, -3); (-13, 64)]%Z
  = [5; 3; 21; 20; 1; 1; 51]%Z.
Proof. reflexivity. Qed.

(** ** The history manager *)

Module HistoryFacts.
Import HistoryManager.
Section WithSnapshots.
Context {A : Type} `{JsValue A}.
Local Open Scope Z_scope.

Lemma length_array_set (arr : list (option A)) (i : Z) (x : A) :
  0 <= i ->
  length (array_set arr i x) = Nat.max (length arr) (Z.to_nat i + 1).
Proof.
  intros Hi. unfold array_set.
  destruct (Z.ltb_spec i 0) as [? | _]; [lia|]. cbv zeta.
  destruct (Nat.ltb_spec (Z.to_nat i) (length arr)) as [Hlt | Hge].
  - rewrite length_insert. lia.
  - rewrite !length_app, length_replicate. simpl. lia.
Qed.

Lemma bounded_clear (h : t A) : 0 < maxLength h -> bounded (clear h).
Proof. intros Hm. unfold bounded; simpl. lia. Qed.

Lemma maxLength_after (c : call A) (h : t A) :
  maxLength (after c h) = maxLength h.
Proof.
  destruct c; simpl; try done.
  - unfold addToHistory. destruct (getState h) as [cur|]; [|done].
    destruct (isCurrentState cur state); [done|].
    by destruct (negb _).
  - unfold goBack. by destruct (negb _).
  - unfold goForward. by destruct (negb _).
Qed.

Lemma bounded_after (c : call A) (h : t A) :
  0 < maxLength h -> bounded h -> bounded (after c h).
Proof.
  intros Hm (Hp & Hs & He & Hl). destruct c; simpl; try done.
  - unfold addToHistory. destruct (getState h) as [cur|]; [|done].
    destruct (isCurrentState cur state); [done|].
    destruct (negb (length (states h) =? 0)%nat) eqn:Hne; simpl.
    + pose proof (posMod_range (pos h + 1) (maxLength h) Hm) as Hq.
      pose proof (posMod_range (posMod (pos h + 1) (maxLength h) + 1)
                    (maxLength h) Hm) as Hq'.
      unfold bounded; simpl. rewrite length_array_set by lia.
      repeat split; try lia; destruct (_ =? _); lia.
    + unfold bounded; simpl. rewrite length_array_set by lia.
      repeat split; lia.
  - unfold goBack. destruct (negb _); [done|].
    pose proof (posMod_range (pos h - 1) (maxLength h) Hm).
    unfold bounded; simpl. lia.
  - unfold goForward. destruct (negb _); [done|].
    pose proof (posMod_range (pos h + 1) (maxLength h) Hm).
    unfold bounded; simpl. lia.
  - by apply bounded_clear.
Qed.

Lemma run_snoc (cs : list (call A)) (c : call A) (h : t A) :
  run (cs ++ [c]) h = after c (run cs h).
Proof. unfold run. by rewrite fold_left_app. Qed.

Lemma maxLength_run (cs : list (call A)) (h : t A) :
  maxLength (run cs h) = maxLength h.
Proof.
  induction cs as [|c cs IH] using rev_ind; [done|].
  by rewrite run_snoc, maxLength_after.
Qed.

End WithSnapshots.
End HistoryFacts.

(** C10.  Whatever calls are made on a history manager built with a positive
    [maxLength], the indices [pos], [start] and [end] stay in
    [[0, maxLength)] and the array [states] holds at most [maxLength]
    entries. *)
Theorem history_indices_bounded {A : Type} `{JsValue A}
    (maxLength : Z) (deepCopy : bool) (calls : list (HistoryManager.call A)) :
  (0 < maxLength)%Z ->
  HistoryManager.bounded
    (HistoryManager.run calls (HistoryManager.new maxLength deepCopy))
  /\ HistoryManager.maxLength
       (HistoryManager.run calls (HistoryManager.new maxLength deepCopy))
     = maxLength.
Proof.
  intros Hm. split; [|by rewrite HistoryFacts.maxLength_run].
  induction calls as [|c cs IH] using rev_ind.
  - unfold HistoryManager.bounded; simpl. lia.
  - rewrite HistoryFacts.run_snoc. apply HistoryFacts.bounded_after; [|done].
    by rewrite HistoryFacts.maxLength_run.
Qed.

Lemma history_indices_bounded_witness :
  HistoryManager.bounded
    (HistoryManager.run
       [HistoryManager.AddToHistory 1%Z; HistoryManager.AddToHistory 2%Z;
        HistoryManager.AddToHistory 3%Z; HistoryManager.AddToHistory 4%Z;
        HistoryManager.GoBack; HistoryManager.GoBack; HistoryManager.GoForward;
        HistoryManager.GetState; HistoryManager.Clear;
        HistoryManager.AddToHistory 5%Z]
       (HistoryManager.new 3%Z false))
  /\ HistoryManager.maxLength
       (HistoryManager.run
          [HistoryManager.AddToHistory 1%Z; HistoryManager.AddToHistory 2%Z;
           HistoryManager.AddToHistory 3%Z; HistoryManager.AddToHistory 4%Z;
           HistoryManager.GoBack; HistoryManager.GoBack; HistoryManager.GoForward;
           HistoryManager.GetState; HistoryManager.Clear;
           HistoryManager.AddToHistory 5%Z]
          (HistoryManager.new 3%Z false))
     = 3%Z.
Proof. apply (history_indices_bounded 3%Z false); lia. Defined.

Module HistoryRing.
Import HistoryManager.
Section WithSnapshots.
Context {A : Type} `{JsValue A}.
Local Open Scope Z_scope.

(** What is written into the array, and what is read back. *)
Definition stored (dc : bool) (s : A) : A :=
  if dc then getDeepCopyOfObject s else s.

Lemma stringify_stored (dc : bool) (s : A) :
  stringify (stored dc s) = stringify s.
Proof. destruct dc; simpl; [apply stringify_copy | done]. Qed.

(** The manager after the states of [l] were added to an empty history of
    capacity at least [length l]. *)
Definition filled (N : Z) (dc : bool) (l : list A) : t A :=
  {| maxLength := N; pos := Z.of_nat (length l) - 1; start := 0;
     end_ := Z.of_nat (length l) - 1;
     states := map (fun s => Some (stored dc s)) l;
     deepCopy := dc; lastReturnedState := None |}.

Lemma add_first (N : Z) (dc : bool) (s : A) :
  after (AddToHistory s) (new N dc) = filled N dc [s].
Proof. reflexivity. Qed.

Lemma getState_filled (N : Z) (dc : bool) (l : list A) (x : A) :
  getState (filled N dc (l ++ [x])) = Return (Value (stored dc (stored dc x))).
Proof.
  unfold getState, filled; simpl.
  rewrite length_map, length_app; simpl.
  destruct (Nat.eqb_spec (length l + 1) 0) as [? | _]; [lia|].
  unfold array_get.
  destruct (Z.ltb_spec (Z.of_nat (length l + 1) - 1) 0) as [? | _]; [lia|].
  replace (Z.to_nat (Z.of_nat (length l + 1) - 1)) with (length l) by lia.
  rewrite list_lookup_fmap, lookup_app_r, Nat.sub_diag by done. simpl.
  by destruct dc.
Qed.

Lemma add_next (N : Z) (dc : bool) (l : list A) (x s : A) :
  Z.of_nat (length (l ++ [x])) < N ->
  stringify x <> stringify s ->
  after (AddToHistory s) (filled N dc (l ++ [x])) = filled N dc ((l ++ [x]) ++ [s]).
Proof.
  intros Hlen Hne. simpl. unfold addToHistory.
  rewrite getState_filled. unfold isCurrentState.
  rewrite !stringify_stored.
  destruct (String.eqb_spec (stringify x) (stringify s)) as [? | _]; [done|].
  rewrite andb_false_r.
  assert (Hl : length (states (filled N dc (l ++ [x]))) = length (l ++ [x]))
    by (simpl; by rewrite length_map).
  rewrite Hl.
  destruct (Nat.eqb_spec (length (l ++ [x])) 0) as [Hz | _].
  { rewrite length_app in Hz; simpl in Hz; lia. }
  cbn [negb fst snd pos start end_ maxLength filled].
  replace (Z.of_nat (length (l ++ [x])) - 1 + 1) with (Z.of_nat (length (l ++ [x])))
    by lia.
  rewrite posMod_small by lia.
  destruct (Z.eqb_spec 0 (Z.of_nat (length (l ++ [x])))) as [Hz | _].
  { rewrite length_app in Hz; simpl in Hz; lia. }
  unfold filled. f_equal.
  - rewrite (length_app (l ++ [x])); simpl; lia.
  - rewrite (length_app (l ++ [x])); simpl; lia.
  - cbn [states deepCopy]. unfold array_set.
    destruct (Z.ltb_spec (Z.of_nat (length (l ++ [x]))) 0) as [? | _]; [lia|].
    cbv zeta. rewrite Nat2Z.id, length_map.
    destruct (Nat.ltb_spec (length (l ++ [x])) (length (l ++ [x]))) as [? | _]; [lia|].
    rewrite Nat.sub_diag. simpl. by rewrite (map_app _ (l ++ [x])).
Qed.

Lemma run_adds (N : Z) (dc : bool) (l : list A) :
  l <> [] -> Z.of_nat (length l) <= N -> NoDup (map stringify l) ->
  run (map AddToHistory l) (new N dc) = filled N dc l.
Proof.
  induction l as [|s l IH] using rev_ind; [done|].
  intros _ Hlen Hnd. rewrite map_app. simpl.
  rewrite HistoryFacts.run_snoc.
  destruct l as [|y l' _] using rev_ind; [apply add_first|].
  rewrite length_app in Hlen; simpl in Hlen.
  rewrite map_app in Hnd. apply NoDup_app in Hnd as (Hnd1 & Hnd2 & _).
  rewrite IH; [| by destruct l' | lia | done].
  apply add_next; [lia|].
  intros Heq. apply (Hnd2 (stringify s)).
  - rewrite map_app, <- Heq. apply elem_of_app. right. simpl. apply list_elem_of_here.
  - simpl. apply list_elem_of_here.
Qed.

(** The manager once the capacity is exceeded by one: [s] was added to a
    full history that began with [first]. *)
Lemma add_to_full (N : Z) (dc : bool) (first : A) (mid : list A) (s : A) :
  Z.of_nat (length (first :: mid)) = N ->
  Forall (fun x => stringify x <> stringify s) (first :: mid) ->
  states (after (AddToHistory s) (filled N dc (first :: mid)))
  = Some (stored dc s) :: map (fun x => Some (stored dc x)) mid.
Proof.
  intros Hlen Hne.
  assert (Hex : exists l x, first :: mid = l ++ [x]).
  { clear. revert first. induction mid as [|y mid IH]; intros first.
    - by exists [], first.
    - destruct (IH y) as (l & x & Hlx). exists (first :: l), x.
      by rewrite Hlx. }
  destruct Hex as (l & x & Hlx).
  simpl. unfold addToHistory. rewrite Hlx, getState_filled.
  unfold isCurrentState. rewrite !stringify_stored.
  assert (Hx : stringify x <> stringify s).
  { rewrite Forall_forall in Hne. apply Hne. rewrite Hlx.
    apply elem_of_app. right. apply list_elem_of_here. }
  destruct (String.eqb_spec (stringify x) (stringify s)) as [? | _]; [done|].
  rewrite andb_false_r. rewrite <- Hlx.
  assert (Hl : length (states (filled N dc (first :: mid))) = length (first :: mid))
    by (simpl; by rewrite length_map).
  rewrite Hl.
  destruct (Nat.eqb_spec (length (first :: mid)) 0) as [Hz | _]; [done|].
  cbn [negb fst snd pos start end_ maxLength filled states deepCopy].
  replace (Z.of_nat (length (first :: mid)) - 1 + 1) with N by lia.
  rewrite posMod_same by (simpl in Hlen; lia).
  reflexivity.
Qed.

(** A state in which every slot holds (the stored form of) one of the
    states of [l]. *)
Definition holds (l : list A) (h : t A) : Prop :=
  Forall (fun e => exists x, x ∈ l /\ e = Some (stored (deepCopy h) x)) (states h)
  /\ Z.of_nat (length (states h)) = maxLength h
  /\ 0 < maxLength h
  /\ bounded h.

Lemma holds_goBack (l : list A) (h : t A) : holds l h -> holds l (snd (goBack h)).
Proof.
  intros (Hall & Hlen & Hm & Hb). unfold goBack.
  destruct (negb (canGoBack h)); [done|]. simpl.
  pose proof (posMod_range (pos h - 1) (maxLength h) Hm).
  destruct Hb as (? & ? & ? & ?).
  repeat split; simpl; try done; lia.
Qed.

Lemma holds_iter_goBack (l : list A) (h : t A) (k : nat) :
  holds l h -> holds l (Nat.iter k (fun h => snd (goBack h)) h).
Proof. intros Hh. induction k as [|k IH]; [done|]. simpl. by apply holds_goBack. Qed.

Lemma getState_holds (l : list A) (h : t A) :
  holds l h ->
  exists v x, getState h = Return (Value v) /\ x ∈ l /\ stringify v = stringify x.
Proof.
  intros (Hall & Hlen & Hm & (Hp & _)). unfold getState.
  destruct (Nat.eqb_spec (length (states h)) 0) as [? | _]; [lia|].
  unfold array_get. destruct (Z.ltb_spec (pos h) 0) as [? | _]; [lia|].
  destruct (states h !! Z.to_nat (pos h)) as [e|] eqn:He.
  - rewrite Forall_forall in Hall.
    destruct (Hall e) as (x & Hx & ->).
    { apply list_elem_of_lookup. eauto. }
    simpl. eexists _, x. split; [done|]. split; [done|].
    destruct (deepCopy h); simpl; by rewrite ?stringify_copy.
  - apply lookup_ge_None in He. lia.
Qed.

End WithSnapshots.
End HistoryRing.

(** C4.  A history manager of capacity [N >= 1] that received [N + 1]
    states, no two of them structurally equal, never shows the first of them
    again: after any number of [goBack()] calls, [getState()] returns a
    state that is not structurally equal to the first one. *)
Theorem oldest_state_unreachable {A : Type} `{JsValue A}
    (N : Z) (deepCopy : bool) (first : A) (rest : list A) (k : nat) :
  (1 <= N)%Z ->
  Z.of_nat (length rest) = N ->
  NoDup (map stringify (first :: rest)) ->
  exists v,
    HistoryManager.getState
      (Nat.iter k (fun h => snd (HistoryManager.goBack h))
         (HistoryManager.run (map HistoryManager.AddToHistory (first :: rest))
            (HistoryManager.new N deepCopy)))
    = Return (HistoryManager.Value v)
    /\ stringify v <> stringify first.
Proof.
  intros HN Hlen Hnd.
  destruct rest as [|s mid _] using rev_ind; [simpl in Hlen; lia|].
  rewrite length_app in Hlen; simpl in Hlen.
  rewrite app_comm_cons, map_app in *. simpl (map _ [s]) in *.
  rewrite HistoryFacts.run_snoc.
  apply NoDup_app in Hnd as (Hnd1 & Hnd2 & _).
  rewrite HistoryRing.run_adds; [| done | simpl; lia | done].
  set (h := HistoryManager.after _ _).
  assert (Hh : HistoryRing.holds (mid ++ [s]) h).
  { assert (Hst := HistoryRing.add_to_full N deepCopy first mid s).
    fold h in Hst.
    assert (Hb := HistoryFacts.bounded_after (HistoryManager.AddToHistory s)
                    (HistoryRing.filled N deepCopy (first :: mid))).
    assert (Hml := HistoryFacts.maxLength_after (HistoryManager.AddToHistory s)
                    (HistoryRing.filled N deepCopy (first :: mid))).
    fold h in Hb, Hml. simpl in Hml.
    assert (Hdc : HistoryManager.deepCopy h = deepCopy).
    { subst h. simpl. unfold HistoryManager.addToHistory.
      destruct (HistoryManager.getState _) as [cur|]; [|done].
      by destruct (HistoryManager.isCurrentState cur s). }
    unfold HistoryRing.holds. rewrite Hst.
    2: { simpl; lia. }
    2: { rewrite Forall_forall. intros x Hx Heq. apply (Hnd2 (stringify x)).
         - by apply list_elem_of_fmap_2.
         - rewrite Heq. apply list_elem_of_here. }
    split; [|split; [|split]].
    - rewrite Hdc. constructor.
      + exists s. split; [|done]. apply elem_of_app. right. apply list_elem_of_here.
      + rewrite Forall_fmap, Forall_forall. intros x Hx. simpl.
        exists x. split; [|done]. apply elem_of_app. by left.
    - rewrite Hml. simpl. rewrite length_map. lia.
    - lia.
    - apply Hb; [simpl; lia|]. unfold HistoryManager.bounded. simpl.
      rewrite length_map. lia. }
  destruct (HistoryRing.getState_holds _ _ (HistoryRing.holds_iter_goBack _ _ k Hh))
    as (v & x & Hv & Hx & Hvx).
  exists v. split; [done|]. rewrite Hvx. intros Heq.
  apply NoDup_cons in Hnd1 as [Hnotin _]. apply Hnotin.
  rewrite <- Heq.
  apply elem_of_app in Hx as [Hx | Hx].
  - by apply list_elem_of_fmap_2.
  - apply list_elem_of_singleton in Hx as ->.
    exfalso. apply (Hnd2 (stringify s)).
    + rewrite Heq. simpl. apply list_elem_of_here.
    + apply list_elem_of_here.
Qed.

Lemma oldest_state_unreachable_witness :
  exists v,
    HistoryManager.getState
      (Nat.iter 2 (fun h => snd (HistoryManager.goBack h))
         (HistoryManager.run (map HistoryManager.AddToHistory [1; 2; 3; 4]%Z)
            (HistoryManager.new 3%Z false)))
    = Return (HistoryManager.Value v)
    /\ stringify v <> stringify 1%Z.
Proof.
  apply (oldest_state_unreachable 3%Z false 1%Z [2; 3; 4]%Z 2).
  - lia.
  - reflexivity.
  - apply (bool_decide_unpack (NoDup (map stringify [1; 2; 3; 4]%Z))).
    vm_compute. reflexivity.
Defined.

(** The unit tests "Handles more states than maxLength" and "Handles going
    back and adding something". *)
Example history_unit_tests :
  HistoryManager.states
    (HistoryManager.run (map HistoryManager.AddToHistory [1; 2; 3; 4]%Z)
       (HistoryManager.new 3%Z false))
  = [Some 4; Some 2; Some 3]%Z
  /\ HistoryManager.states
       (HistoryManager.run
          (map HistoryManager.AddToHistory [1; 2; 3; 4]%Z
             ++ [HistoryManager.GoBack; HistoryManager.GoBack;
                 HistoryManager.AddToHistory 5%Z])
          (HistoryManager.new 3%Z false))
     = [Some 4; Some 2; Some 5]%Z.
Proof. split; reflexivity. Qed.

(** When the current state is truthy, adding a state that prints like it
    changes nothing and returns [false]. *)
Lemma addToHistory_duplicate {A : Type} `{JsValue A}
    (h : HistoryManager.t A) (current state : A) :
  HistoryManager.getState h = Return (HistoryManager.Value current) ->
  truthy current = true ->
  stringify current = stringify state ->
  HistoryManager.addToHistory state h = (Return false, h).
Proof.
  intros Hget Htruthy Heq. unfold HistoryManager.addToHistory.
  rewrite Hget. simpl. rewrite Htruthy, Heq, String.eqb_refl. done.
Qed.

(** C5.  The guard of [addToHistory] tests the current state for truthiness
    before it compares: with the number 0 as the current state, adding 0
    again is not refused.  The call returns [true], [pos] and [end] move to
    1 and the array holds the state twice. *)
Theorem addToHistory_falsy_duplicate :
  let h := snd (HistoryManager.addToHistory 0%Z (HistoryManager.new 3%Z false)) in
  HistoryManager.getState h = Return (HistoryManager.Value 0%Z)
  /\ HistoryManager.pos h = 0%Z
  /\ fst (HistoryManager.addToHistory 0%Z h) = Return true
  /\ HistoryManager.pos (snd (HistoryManager.addToHistory 0%Z h)) = 1%Z
  /\ HistoryManager.end_ (snd (HistoryManager.addToHistory 0%Z h)) = 1%Z
  /\ HistoryManager.states (snd (HistoryManager.addToHistory 0%Z h))
     = [Some 0%Z; Some 0%Z].
Proof. repeat split. Qed.

(** ** Arrays: reduce with a last-element clause *)

(** A callback that treats the last element specially is a fold followed by
    the closing step. *)
Lemma reduce_with_last {E B : Type} (f : B -> E -> nat -> list E -> B)
    (step : B -> E -> B) (finish : B -> B) (arr : list E) (init : B) :
  (forall acc c i, i + 1 = length arr -> f acc c i arr = finish (step acc c)) ->
  (forall acc c i, i + 1 < length arr -> f acc c i arr = step acc c) ->
  reduce f arr init
  = match arr with
    | [] => init
    | _ => finish (fold_left step arr init)
    end.
Proof.
  intros Hlast Hinner. unfold reduce.
  assert (Hgen : forall rest pre acc,
             arr = pre ++ rest ->
             reduce_from f arr (length pre) rest acc
             = match rest with
               | [] => acc
               | _ => finish (fold_left step rest acc)
               end).
  { induction rest as [|c rest IH]; intros pre acc Harr; [done|].
    simpl. specialize (IH (pre ++ [c]) (f acc c (length pre) arr)).
    rewrite length_app in IH. simpl in IH.
    replace (length pre + 1) with (S (length pre)) in IH by lia.
    rewrite IH by (by rewrite <- app_assoc).
    destruct rest as [|c' rest].
    - rewrite Hlast; [done|]. rewrite Harr, length_app. simpl. lia.
    - rewrite Hinner; [done|]. rewrite Harr, length_app. simpl. lia. }
  by apply (Hgen arr []).
Qed.

(** ** Highlights *)

(** A list of highlight flags in which neighbours differ. *)
Fixpoint alternates (l : list bool) : Prop :=
  match l with
  | x :: l' =>
      match l' with
      | y :: _ => x <> y /\ alternates l'
      | [] => True
      end
  | [] => True
  end.

(** No two adjacent spans have the same highlight flag. *)
Definition adjacent_differ (spans : list TextSegmentStructureElement) : Prop :=
  forall i x y,
    spans !! i = Some x -> spans !! S i = Some y -> highlight x <> highlight y.

(** The text a list of spans spells. *)
Definition spelled (spans : list TextSegmentStructureElement) : jstring :=
  concat (map value spans).

Lemma alternates_adjacent (spans : list TextSegmentStructureElement) :
  alternates (map highlight spans) -> adjacent_differ spans.
Proof.
  induction spans as [|x spans IH]; intros Halt i a b Ha Hb; [done|].
  destruct spans as [|y spans]; [by destruct i|].
  destruct Halt as [Hxy Halt].
  destruct i as [|i]; simpl in Ha, Hb.
  - by simplify_eq.
  - by apply (IH Halt i).
Qed.

Lemma alternates_app (l1 : list bool) (x : bool) (l2 : list bool) :
  alternates (l1 ++ x :: l2) <-> alternates (l1 ++ [x]) /\ alternates (x :: l2).
Proof.
  induction l1 as [|y l1 IH]; simpl.
  - tauto.
  - destruct l1 as [|z l1]; simpl in *; tauto.
Qed.

Lemma alternates_tail (x : bool) (l : list bool) :
  alternates (x :: l) -> alternates l.
Proof. destruct l; simpl; tauto. Qed.

Lemma alternates_snoc (l : list bool) (x y : bool) :
  alternates (l ++ [x]) -> x <> y -> alternates (l ++ [x; y]).
Proof. intros Hl Hxy. apply alternates_app. by split. Qed.

(** One step of merging: a highlighted span, a plain one and a highlighted
    one become a single highlighted span. *)
Inductive merges : list TextSegmentStructureElement ->
                   list TextSegmentStructureElement -> Prop :=
  | merges_refl l : merges l l
  | merges_step l r ea eb ec rest :
      merges l (r ++ ea :: eb :: ec :: rest) ->
      highlight ea = true -> highlight eb = false -> highlight ec = true ->
      merges l
        (r ++ {| value := value ea ++ value eb ++ value ec; highlight := true |}
           :: rest).

Lemma merges_spelled l l' : merges l l' -> spelled l' = spelled l.
Proof.
  induction 1 as [|l r ea eb ec rest _ IH]; [done|].
  rewrite <- IH. unfold spelled. rewrite !map_app, !concat_app. simpl.
  by rewrite <- !app_assoc.
Qed.

Lemma merges_alternates l l' :
  merges l l' -> alternates (map highlight l) -> alternates (map highlight l').
Proof.
  induction 1 as [|l r ea eb ec rest _ IH Ha Hb Hc]; [done|].
  intros Hl. specialize (IH Hl). revert IH.
  rewrite !map_app. simpl. rewrite Ha, Hb, Hc.
  intros IH. apply alternates_app in IH as [H1 H2].
  apply alternates_app. split; [done|].
  by apply alternates_tail, alternates_tail in H2.
Qed.

Module WhitespaceFacts.
Import Whitespace.

(** The buffer update of the reducer, and its closing step. *)
Definition step (acc0 : acc) (c : TextSegmentStructureElement) : acc :=
  match a acc0, b acc0 with
  | Some ea, Some eb =>
      if highlight ea && negb (highlight eb) && highlight c
         && stringContainsOnlyWhitespace (value eb)
      then
        {| a := None;
           b := Some {| value := value ea ++ value eb ++ value c;
                        highlight := true |};
           result := result acc0 |}
      else {| a := b acc0; b := Some c; result := result acc0 ++ [ea] |}
  | _, _ => {| a := b acc0; b := Some c; result := result acc0 |}
  end.

Definition finish (acc1 : acc) : acc :=
  {| a := a acc1; b := b acc1;
     result := result acc1 ++ option_list (a acc1) ++ option_list (b acc1) |}.

(** Everything the accumulator holds, in order. *)
Definition view (acc0 : acc) : list TextSegmentStructureElement :=
  result acc0 ++ option_list (a acc0) ++ option_list (b acc0).

(** The first buffer slot is only used when the second is. *)
Definition shaped (acc0 : acc) : Prop :=
  a acc0 = None \/ is_Some (b acc0).

Lemma whitespace_reducer_unfold (arr : list TextSegmentStructureElement) (init : acc) :
  reduce reducer arr init
  = match arr with
    | [] => init
    | _ => finish (fold_left step arr init)
    end.
Proof.
  apply reduce_with_last; intros acc0 c i Hi; unfold reducer, step, finish.
  - replace (i =? length arr - 1)%nat with true
      by (symmetry; apply Nat.eqb_eq; lia).
    by destruct (a acc0), (b acc0); try destruct (_ && _).
  - replace (i =? length arr - 1)%nat with false
      by (symmetry; apply Nat.eqb_neq; lia).
    by destruct (a acc0), (b acc0); try destruct (_ && _).
Qed.

Lemma step_shaped (acc0 : acc) c : shaped acc0 -> shaped (step acc0 c).
Proof.
  intros Hs. unfold step, shaped.
  destruct (a acc0) as [ea|], (b acc0) as [eb|]; simpl;
    try destruct (_ && _); simpl; eauto.
Qed.

Lemma step_merges l (acc0 : acc) c rest :
  shaped acc0 ->
  merges l (view acc0 ++ c :: rest) ->
  merges l (view (step acc0 c) ++ rest).
Proof.
  intros Hs Hl. unfold step, view in *.
  destruct (a acc0) as [ea|] eqn:Ea, (b acc0) as [eb|] eqn:Eb; simpl in *.
  - destruct (highlight ea && negb (highlight eb) && highlight c
              && stringContainsOnlyWhitespace (value eb)) eqn:Hc; simpl.
    + apply andb_prop in Hc as [Hc _]. apply andb_prop in Hc as [Hc Hc3].
      apply andb_prop in Hc as [Hc1 Hc2]. apply negb_true_iff in Hc2.
      rewrite <- app_assoc. simpl.
      apply merges_step; [|done..].
      by rewrite <- app_assoc in Hl.
    + by rewrite <- !app_assoc in *.
  - unfold shaped in Hs. rewrite Ea, Eb in Hs.
    destruct Hs as [? | [? ?]]; done.
  - by rewrite <- !app_assoc in *.
  - by rewrite <- !app_assoc in *.
Qed.

Lemma fold_merges l rest (acc0 : acc) :
  shaped acc0 ->
  merges l (view acc0 ++ rest) ->
  merges l (view (fold_left step rest acc0)).
Proof.
  revert acc0. induction rest as [|c rest IH]; intros acc0 Hs Hl; simpl.
  - by rewrite app_nil_r in Hl.
  - apply IH; [by apply step_shaped | by apply step_merges].
Qed.
End WhitespaceFacts.

Lemma highlightWhitespace_merges (arr : list TextSegmentStructureElement) :
  merges arr (highlightWhitespaceBetweenHighlights arr).
Proof.
  unfold highlightWhitespaceBetweenHighlights.
  rewrite WhitespaceFacts.whitespace_reducer_unfold.
  destruct arr as [|c arr]; [constructor|].
  change (Whitespace.result (WhitespaceFacts.finish ?x)) with (WhitespaceFacts.view x).
  apply WhitespaceFacts.fold_merges; [by left | constructor].
Qed.

Module ChainFacts.
Import Chain.

(** The changes a strategy looks at, and the text they spell. *)
Definition kept (strategy : Strategy) (diff : list Change.t) : list Change.t :=
  List.filter (fun c => negb (flag (otherStrategy strategy) c)) diff.

Definition keptText (strategy : Strategy) (diff : list Change.t) : jstring :=
  concat (map Change.value (kept strategy diff)).

Definition step (strategy : Strategy) (acc0 : acc) (c : Change.t) : acc :=
  if negb (flag (otherStrategy strategy) c) then
    let acc1 :=
      match currentChain acc0 with
      | Some chain =>
          if negb (Bool.eqb (highlight chain) (flag strategy c))
          then {| currentChain := None; result := result acc0 ++ [chain] |}
          else acc0
      | None => acc0
      end in
    match currentChain acc1 with
    | None =>
        {| currentChain :=
             Some {| value := Change.value c; highlight := flag strategy c |};
           result := result acc1 |}
    | Some chain =>
        {| currentChain :=
             Some {| value := value chain ++ Change.value c;
                     highlight := highlight chain |};
           result := result acc1 |}
    end
  else acc0.

Definition finish (acc2 : acc) : acc :=
  match currentChain acc2 with
  | Some chain =>
      {| currentChain := currentChain acc2; result := result acc2 ++ [chain] |}
  | None => acc2
  end.

Definition view (acc0 : acc) : list TextSegmentStructureElement :=
  result acc0 ++ option_list (currentChain acc0).

(** Chains are only closed once one was opened. *)
Definition opened (acc0 : acc) : Prop :=
  currentChain acc0 = None -> result acc0 = [].

Lemma chain_reducer_unfold (strategy : Strategy) (diff : list Change.t) :
  result (reduce (filterAndCombineChanges strategy) diff initialVal)
  = view (fold_left (step strategy) diff initialVal).
Proof.
  rewrite (reduce_with_last _ (step strategy) finish).
  - destruct diff as [|c diff]; [done|].
    unfold finish, view.
    destruct (currentChain (fold_left _ _ _)); simpl; [done|].
    by rewrite app_nil_r.
  - intros acc0 c i Hi. unfold filterAndCombineChanges.
    replace (i =? length diff - 1)%nat with true
      by (symmetry; apply Nat.eqb_eq; lia).
    reflexivity.
  - intros acc0 c i Hi. unfold filterAndCombineChanges.
    replace (i =? length diff - 1)%nat with false
      by (symmetry; apply Nat.eqb_neq; lia).
    reflexivity.
Qed.

Lemma step_opened strategy (acc0 : acc) c : opened acc0 -> opened (step strategy acc0 c).
Proof.
  unfold opened, step. intros Ho.
  destruct (negb (flag _ c)); [|done].
  destruct (currentChain acc0) as [chain|] eqn:E; simpl;
    try destruct (negb (Bool.eqb _ _)); simpl; rewrite ?E; try done.
Qed.

Lemma step_spelled strategy (acc0 : acc) c :
  spelled (view (step strategy acc0 c))
  = spelled (view acc0) ++ keptText strategy [c].
Proof.
  unfold step, keptText, kept, view, spelled. simpl.
  destruct (negb (flag _ c)); simpl; [|by rewrite app_nil_r].
  destruct (currentChain acc0) as [chain|] eqn:E; simpl.
  - destruct (negb (Bool.eqb _ _)); simpl.
    + rewrite !map_app, !concat_app. simpl. by rewrite <- !app_assoc.
    + rewrite E. rewrite !map_app, !concat_app. simpl.
      by rewrite !app_nil_r, <- !app_assoc.
  - rewrite E. rewrite !map_app, !concat_app. simpl. by rewrite !app_nil_r.
Qed.

Lemma step_alternates strategy (acc0 : acc) c :
  opened acc0 ->
  alternates (map highlight (view acc0)) ->
  alternates (map highlight (view (step strategy acc0 c))).
Proof.
  unfold step, view, opened. intros Ho Halt.
  destruct (negb (flag _ c)); [|done].
  destruct (currentChain acc0) as [chain|] eqn:E; simpl in *.
  - destruct (Bool.eqb (highlight chain) (flag strategy c)) eqn:Hh; simpl.
    + rewrite E. rewrite !map_app in *. done.
    + rewrite !map_app in *. simpl in *. rewrite <- app_assoc. simpl.
      apply alternates_snoc; [done|]. by apply eqb_false_iff.
  - rewrite E. rewrite Ho by done. done.
Qed.

Lemma fold_spelled strategy diff (acc0 : acc) :
  spelled (view (fold_left (step strategy) diff acc0))
  = spelled (view acc0) ++ keptText strategy diff.
Proof.
  revert acc0. induction diff as [|c diff IH]; intros acc0; simpl.
  - by rewrite app_nil_r.
  - rewrite IH, step_spelled, <- app_assoc. f_equal.
    unfold keptText, kept. simpl. destruct (negb _); simpl; [|done].
    by rewrite app_nil_r.
Qed.

Lemma fold_alternates strategy diff (acc0 : acc) :
  opened acc0 ->
  alternates (map highlight (view acc0)) ->
  alternates (map highlight (view (fold_left (step strategy) diff acc0))).
Proof.
  revert acc0. induction diff as [|c diff IH]; intros acc0 Ho Halt; [done|].
  simpl. apply IH; [by apply step_opened | by apply step_alternates].
Qed.

(** Changes that are neither added nor removed all go into one plain
    chain. *)
Lemma fold_unchanged strategy diff (v : jstring) :
  Forall (fun c => Change.added c = false /\ Change.removed c = false) diff ->
  fold_left (step strategy) diff
    {| currentChain := Some {| value := v; highlight := false |}; result := [] |}
  = {| currentChain :=
         Some {| value := v ++ concat (map Change.value diff); highlight := false |};
       result := [] |}.
Proof.
  revert v. induction diff as [|c diff IH]; intros v Hall; simpl.
  - by rewrite app_nil_r.
  - apply Forall_cons in Hall as [[Ha Hr] Hall].
    replace (step strategy _ c)
      with {| currentChain := Some {| value := v ++ Change.value c; highlight := false |};
              result := [] |}.
    + rewrite IH by done. by rewrite <- app_assoc.
    + unfold step. destruct strategy; simpl; by rewrite Ha, Hr.
Qed.
End ChainFacts.

(** The spans of a strategy spell the text of the changes it keeps. *)
Lemma getHighlightsWithStrategy_spelled (strategy : Strategy) (diff : list Change.t) :
  spelled (getHighlightsWithStrategy strategy diff) = ChainFacts.keptText strategy diff.
Proof.
  unfold getHighlightsWithStrategy. cbv zeta.
  rewrite (merges_spelled _ _ (highlightWhitespace_merges _)).
  by rewrite ChainFacts.chain_reducer_unfold, ChainFacts.fold_spelled.
Qed.

Lemma getHighlightsWithStrategy_alternates (strategy : Strategy) (diff : list Change.t) :
  adjacent_differ (getHighlightsWithStrategy strategy diff).
Proof.
  apply alternates_adjacent.
  unfold getHighlightsWithStrategy. cbv zeta.
  apply (merges_alternates _ _ (highlightWhitespace_merges _)).
  rewrite ChainFacts.chain_reducer_unfold.
  by apply ChainFacts.fold_alternates.
Qed.

(** A diff between [from] and [to] is an edit script: the changes that are
    not additions spell [from], those that are not removals spell [to]. *)
Definition edit_script (diff : list Change.t) (from to : jstring) : Prop :=
  ChainFacts.keptText StrategyRemoved diff = from
  /\ ChainFacts.keptText StrategyAdded diff = to.


(** Hence the highlights spell [from] and [to] for every diff function that
    returns an edit script between its arguments. *)
Corollary edit_script_spelled (diffWords : jstring -> jstring -> list Change.t)
    (from to : jstring) :
  edit_script (diffWords from to) from to ->
  concat (map value (fromHighlights (getHighlights diffWords from to))) = from
  /\ concat (map value (toHighlights (getHighlights diffWords from to))) = to.
Proof.
  intros [Hfrom Hto]. unfold getHighlights. simpl.
  split.
  - rewrite <- Hfrom at 2. apply getHighlightsWithStrategy_spelled.
  - rewrite <- Hto at 2. apply getHighlightsWithStrategy_spelled.
Qed.



(** C7.  In both span lists of [getHighlights] no two adjacent spans have the
    same highlight flag, whatever the diff function returns. *)
Theorem highlights_alternate (diffWords : jstring -> jstring -> list Change.t)
    (from to : jstring) :
  adjacent_differ (fromHighlights (getHighlights diffWords from to))
  /\ adjacent_differ (toHighlights (getHighlights diffWords from to)).
Proof. split; apply getHighlightsWithStrategy_alternates. Qed.

(** C9.  When the diff of a string with itself consists of unchanged pieces
    that spell the string (at least one piece), both span lists are the
    single plain span holding the string. *)
Theorem highlights_of_equal_strings (diffWords : jstring -> jstring -> list Change.t)
    (s : jstring) :
  diffWords s s <> [] ->
  Forall (fun c => Change.added c = false /\ Change.removed c = false) (diffWords s s) ->
  concat (map Change.value (diffWords s s)) = s ->
  fromHighlights (getHighlights diffWords s s) = [ {| value := s; highlight := false |} ]
  /\ toHighlights (getHighlights diffWords s s) = [ {| value := s; highlight := false |} ].
Proof.
  intros Hne Hall Hs. unfold getHighlights. simpl.
  assert (Hone : forall strategy,
             getHighlightsWithStrategy strategy (diffWords s s)
             = [ {| value := s; highlight := false |} ]).
  { intros strategy. unfold getHighlightsWithStrategy. cbv zeta.
    rewrite ChainFacts.chain_reducer_unfold.
    destruct (diffWords s s) as [|c diff]; [done|].
    apply Forall_cons in Hall as [[Ha Hr] Hall]. simpl in Hs.
    simpl fold_left.
    replace (ChainFacts.step strategy Chain.initialVal c)
      with {| Chain.currentChain := Some {| value := Change.value c; highlight := false |};
              Chain.result := [] |}
      by (unfold ChainFacts.step; destruct strategy; simpl; by rewrite Ha, Hr).
    rewrite ChainFacts.fold_unchanged by done.
    unfold ChainFacts.view. simpl. by rewrite Hs. }
  by rewrite !Hone.
Qed.

Example edit_script_spelled_sample :
  concat (map value
            (fromHighlights
               (getHighlights coarseDiff (js "I like beans.") (js "I like pasta."))))
  = js "I like beans."
  /\ concat (map value
               (toHighlights
                  (getHighlights coarseDiff (js "I like beans.") (js "I like pasta."))))
     = js "I like pasta.".
Proof.
  apply (edit_script_spelled coarseDiff (js "I like beans.") (js "I like pasta.")).
  split; reflexivity.
Qed.

Lemma highlights_of_equal_strings_witness :
  fromHighlights
    (getHighlights coarseDiff (js "Mountains are inspiring!")
       (js "Mountains are inspiring!"))
  = [ {| value := js "Mountains are inspiring!"; highlight := false |} ]
  /\ toHighlights
       (getHighlights coarseDiff (js "Mountains are inspiring!")
          (js "Mountains are inspiring!"))
     = [ {| value := js "Mountains are inspiring!"; highlight := false |} ].
Proof.
  apply (highlights_of_equal_strings coarseDiff (js "Mountains are inspiring!")).
  - discriminate.
  - repeat constructor.
  - reflexivity.
Defined.

(** The unit test "Consecutive different words", on the changes the diff
    library reports for the two sentences. *)
Example highlights_unit_test :
  let diff :=
    [ Change.mk (js "I ") false false;
      Change.mk (js "like") false true; Change.mk (js "hate") true false;
      Change.mk (js " ") false false;
      Change.mk (js "white") false true; Change.mk (js "pink") true false;
      Change.mk (js " houses.") false false ] in
  getHighlightsWithStrategy StrategyRemoved diff
  = [ {| value := js "I "; highlight := false |};
      {| value := js "like white"; highlight := true |};
      {| value := js " houses."; highlight := false |} ]
  /\ getHighlightsWithStrategy StrategyAdded diff
     = [ {| value := js "I "; highlight := false |};
         {| value := js "hate pink"; highlight := true |};
         {| value := js " houses."; highlight := false |} ].
Proof. split; reflexivity. Qed.

(** The unit tests of [splitStringIntoSentencesAndWhitespace]. *)
Example split_unit_tests :
  splitStringIntoSentencesAndWhitespace (js "") = []
  /\ splitStringIntoSentencesAndWhitespace (js "Noch ein Satz!") = [js "Noch ein Satz!"]
  /\ splitStringIntoSentencesAndWhitespace (js "    ") = [js "    "]
  /\ splitStringIntoSentencesAndWhitespace (js "(Apple juice!). ")
     = [js "(Apple juice!)."; js " "]
  /\ splitStringIntoSentencesAndWhitespace (js "My people need me!?!?!?!))]]}}}] ")
     = [js "My people need me!?!?!?!))]]}}}]"; js " "]
  /\ splitStringIntoSentencesAndWhitespace
       (js "Sentence 1. Sentence 2?!!           (Sentence 3.).")
     = [js "Sentence 1."; js " "; js "Sentence 2?!!"; js "           ";
        js "(Sentence 3.)."].
Proof. repeat split. Qed.

(** ** Document trees *)

(** Induction on a tree: the property holds for a node when it holds for all
    its children. *)
Lemma JSONContent_tree_ind {I : Type} (P : JSONContentStructure I -> Prop) :
  (forall type0 attrs0 content0 text0 marks0 id0,
      match content0 with
      | Some children => Forall P children
      | None => True
      end ->
      P (mkJSONContent type0 attrs0 content0 text0 marks0 id0)) ->
  forall node, P node.
Proof.
  intros Hnode.
  fix IH 1. intros [type0 attrs0 content0 text0 marks0 id0].
  apply Hnode. destruct content0 as [children|]; [|done].
  induction children as [|c children IHc]; constructor; [apply IH | apply IHc].
Qed.

(** All the nodes of a tree. *)
Fixpoint nodes {I : Type} (node : JSONContentStructure I)
    : list (JSONContentStructure I) :=
  node
  :: match content node with
     | Some children => concat (map nodes children)
     | None => []
     end.

Lemma elem_of_concat_map {X Y : Type} (f : X -> list Y) (l : list X) (y : Y) :
  y ∈ concat (map f l) <-> exists x, x ∈ l /\ y ∈ f x.
Proof.
  induction l as [|x l IH]; simpl.
  - split; [intros Hin; by apply elem_of_nil in Hin|].
    intros (x & Hin & _). by apply elem_of_nil in Hin.
  - rewrite elem_of_app, IH. split.
    + intros [Hy | (x' & Hx' & Hy)].
      * exists x. split; [apply list_elem_of_here | done].
      * exists x'. split; [by apply list_elem_of_further | done].
    + intros (x' & Hx' & Hy). apply elem_of_cons in Hx' as [-> | Hx'].
      * by left.
      * right. by exists x'.
Qed.

(** The skeleton of the data model: a node has at most one of [text],
    [textSegmentId] and [content]. *)
Definition one_role {I : Type} (node : JSONContentStructure I) : Prop :=
  match text node, textSegmentId node, content node with
  | Some _, None, None | None, Some _, None | None, None, _ => True
  | _, _, _ => False
  end.

Definition skeleton {I : Type} (structure : JSONContentStructure I) : Prop :=
  Forall one_role (nodes structure).

(** Some leaf carries a [textSegmentId] that no segment has. *)
Definition dangling (structure : JSONContent) (segments : list TextSegment.t) : Prop :=
  exists leaf id,
    leaf ∈ nodes structure /\ content leaf = None
    /\ textSegmentId leaf = Some id
    /\ id ∉ map TextSegment._id segments.

Lemma findTextSegment_None (segments : list TextSegment.t) (id : string) :
  findTextSegment segments id = None <-> id ∉ map TextSegment._id segments.
Proof.
  unfold findTextSegment. induction segments as [|ts segments IH]; simpl.
  - split; [|done]. intros _ Hin. by apply elem_of_nil in Hin.
  - destruct (String.eqb_spec (TextSegment._id ts) id) as [-> | Hne].
    + split; [done|]. intros Hn. exfalso. apply Hn. apply list_elem_of_here.
    + rewrite IH, not_elem_of_cons. split; [|by intros [_ ?]].
      intros Hn. split; [congruence | done].
Qed.

Lemma buildEach_Throw (build : JSONContent -> completion (list JSONContent))
    (children newContent : list JSONContent) :
  buildEach build children newContent = Throw
  <-> exists child, child ∈ children /\ build child = Throw.
Proof.
  revert newContent. induction children as [|c children IH]; intros newContent; simpl.
  - split; [done|]. intros (child & Hin & _). by apply elem_of_nil in Hin.
  - destruct (build c) as [objs|] eqn:Hc.
    + rewrite IH. split.
      * intros (child & Hin & Hth). exists child. split; [by right | done].
      * intros (child & Hin & Hth). apply elem_of_cons in Hin as [-> | Hin].
        -- congruence.
        -- by exists child.
    + split; [|done]. intros _. exists c. split; [by left | done].
Qed.

Lemma build_Throw_iff (structure : JSONContent) (segments : list TextSegment.t)
    (takeSource : bool) :
  skeleton structure ->
  buildEditorContentWithMarksInternal structure segments takeSource = Throw
  <-> dangling structure segments.
Proof.
  induction structure as [type0 attrs0 content0 text0 marks0 id0 IH]
    using JSONContent_tree_ind.
  intros Hsk. unfold skeleton in Hsk. simpl in Hsk.
  apply Forall_cons in Hsk as [Hrole Hsk]. unfold one_role in Hrole. simpl in Hrole.
  simpl. destruct text0 as [text1|].
  - (* a literal never throws *)
    destruct id0; [done|]. destruct content0; [done|].
    destruct (truthy_text text1); (split; [done|]).
    all: intros (leaf & id & Hin & _ & Hid & _); simpl in Hin.
    all: apply list_elem_of_singleton in Hin as ->; done.
  - destruct id0 as [id|].
    + destruct content0; [done|].
      destruct (findTextSegment segments id) as [ts|] eqn:Hfind.
      * split; [done|].
        intros (leaf & id' & Hin & _ & Hid & Hnot); simpl in Hin.
        apply list_elem_of_singleton in Hin as ->. simpl in Hid. simplify_eq.
        apply findTextSegment_None in Hnot. congruence.
      * split; [|done]. intros _. exists (mkJSONContent type0 attrs0 None None marks0 (Some id)), id.
        repeat split; [apply list_elem_of_here | by apply findTextSegment_None].
    + destruct content0 as [children|].
      * destruct (buildEach _ children []) as [newContent|] eqn:Hb.
        -- split; [done|].
           intros (leaf & id & Hin & Hleaf & Hid & Hnot); simpl in Hin.
           apply elem_of_cons in Hin as [-> | Hin]; [done|].
           apply elem_of_concat_map in Hin as (child & Hchild & Hin).
           assert (Hth : buildEach
                           (fun element =>
                              buildEditorContentWithMarksInternal element segments takeSource)
                           children [] = Throw); [|congruence].
           apply buildEach_Throw. exists child. split; [done|].
           rewrite Forall_forall in IH. apply IH; [done| |by exists leaf, id].
           unfold skeleton. rewrite Forall_forall in Hsk |- *.
           intros n Hn. apply Hsk. apply elem_of_concat_map. by exists child.
        -- split; [|done]. intros _.
           apply buildEach_Throw in Hb as (child & Hchild & Hth).
           rewrite Forall_forall in IH. apply IH in Hth; [|done|].
           ++ destruct Hth as (leaf & id & Hin & Hrest).
              exists leaf, id. split; [|done]. simpl. right.
              apply elem_of_concat_map. by exists child.
           ++ unfold skeleton. rewrite Forall_forall in Hsk |- *.
              intros n Hn. apply Hsk. apply elem_of_concat_map. by exists child.
      * split; [done|].
        intros (leaf & id & Hin & _ & Hid & _); simpl in Hin.
        apply list_elem_of_singleton in Hin as ->. done.
Qed.

(** C8.  On a skeleton, [buildEditorContentWithMarks] throws exactly when
    some leaf carries a [textSegmentId] that no supplied segment has;
    otherwise it returns, and what it returns is a tree unless the skeleton
    is a lone text literal. *)
Theorem build_throws_iff_dangling (structure : JSONContent)
    (segments : list TextSegment.t) (takeSource : bool) :
  skeleton structure ->
  (buildEditorContentWithMarks structure segments takeSource = Throw
   <-> dangling structure segments)
  /\ (~ dangling structure segments ->
      exists result,
        buildEditorContentWithMarks structure segments takeSource = Return result
        /\ (text structure = None -> textSegmentId structure = None ->
            is_Some result)).
Proof.
  intros Hsk.
  pose proof (build_Throw_iff structure segments takeSource Hsk) as Hiff.
  unfold buildEditorContentWithMarks.
  destruct (buildEditorContentWithMarksInternal structure segments takeSource)
    as [objs|] eqn:Hb.
  - split; [split; [done | intros Hd; by apply Hiff in Hd]|].
    intros _. exists (head objs). split; [done|].
    intros Htext Hid. destruct structure as [type0 attrs0 content0 text0 marks0 id0].
    simpl in Htext, Hid. subst. simpl in Hb.
    destruct content0 as [children|].
    + destruct (buildEach _ children []); [|done]. by simplify_eq.
    + by simplify_eq.
  - split; [split; [intros _; by apply Hiff | done]|].
    intros Hnd. exfalso. apply Hnd. by apply Hiff.
Qed.

Lemma build_throws_iff_dangling_witness :
  (buildEditorContentWithMarks
     (docNode [paragraph [segmentLeaf (Some "text") None "a";
                          textLeaf (Some "text") None (js " ");
                          segmentLeaf (Some "text") None "b"]])
     [nonSuggesting (Translatable.mk "a" (js "Sentence 1."))] false = Throw
   <-> dangling
         (docNode [paragraph [segmentLeaf (Some "text") None "a";
                              textLeaf (Some "text") None (js " ");
                              segmentLeaf (Some "text") None "b"]])
         [nonSuggesting (Translatable.mk "a" (js "Sentence 1."))])
  /\ (~ dangling
          (docNode [paragraph [segmentLeaf (Some "text") None "a";
                               textLeaf (Some "text") None (js " ");
                               segmentLeaf (Some "text") None "b"]])
          [nonSuggesting (Translatable.mk "a" (js "Sentence 1."))] ->
      exists result,
        buildEditorContentWithMarks
          (docNode [paragraph [segmentLeaf (Some "text") None "a";
                               textLeaf (Some "text") None (js " ");
                               segmentLeaf (Some "text") None "b"]])
          [nonSuggesting (Translatable.mk "a" (js "Sentence 1."))] false
        = Return result
        /\ (text
              (docNode [paragraph [segmentLeaf (Some "text") None "a";
                                   textLeaf (Some "text") None (js " ");
                                   segmentLeaf (Some "text") None "b"]]) = None ->
            textSegmentId
              (docNode [paragraph [segmentLeaf (Some "text") None "a";
                                   textLeaf (Some "text") None (js " ");
                                   segmentLeaf (Some "text") None "b"]]) = None ->
            is_Some result)).
Proof.
  apply (build_throws_iff_dangling
           (docNode [paragraph [segmentLeaf (Some "text") None "a";
                                textLeaf (Some "text") None (js " ");
                                segmentLeaf (Some "text") None "b"]])
           [nonSuggesting (Translatable.mk "a" (js "Sentence 1."))] false).
  unfold skeleton. simpl. repeat constructor.
Defined.

(** ** Round trip through parse and build *)

(** C1.  A pipe in raw text is lost: [splitStringIntoSentencesAndWhitespace]
    uses the pipe as its own separator, so the document with the text [a|b]
    is parsed into the segments [a] and [b] (with identifiers of the
    generator, values of the declared types), and the tree built from them
    reads [ab]. *)
Theorem roundtrip_loses_pipe :
  let T := docNode [paragraph [rawText "a|b"]] in
  leafText T = js "a|b"
  /\ exists segments structure tree,
       parseEditorContent sampleUuid T
       = (map segmentAtRunTime segments, Some (atRunTime structure))
       /\ map Translatable.srcText segments = [js "a"; js "b"]
       /\ buildEditorContentWithMarks structure (map nonSuggesting segments) false
          = Return (Some tree)
       /\ leafText tree = js "ab".
Proof.
  split; [reflexivity|].
  exists [Translatable.mk "uuid-0" (js "a"); Translatable.mk "uuid-1" (js "b")],
    (docNode [paragraph [segmentLeaf (Some "text") None "uuid-0";
                         segmentLeaf (Some "text") None "uuid-1"]]).
  eexists. repeat split.
Qed.

(** ** Parse history *)

(** The words the parser writes into the parse history next to the
    identifiers. *)
Definition reserved : list string := ["blank"; "break"].

(** Every identifier of the list (reserved words apart) occupies one run of
    consecutive positions. *)
Fixpoint contiguous {X : Type} (P : X -> Prop) (l : list X) : Prop :=
  match l with
  | [] => True
  | x :: l' => (P x -> x ∈ l' -> head l' = Some x) /\ contiguous P l'
  end.

Section Contiguous.
Context {X : Type}.
Variable P : X -> Prop.

Lemma contiguous_app_r (l1 l2 : list X) :
  contiguous P (l1 ++ l2) -> contiguous P l2.
Proof. induction l1 as [|x l1 IH]; simpl; [done|]. intros [_ H]. by apply IH. Qed.

Lemma contiguous_snoc (l : list X) (e : X) :
  contiguous P l ->
  ~ P e \/ e ∉ l \/ last l = Some e ->
  contiguous P (l ++ [e]).
Proof.
  induction l as [|x l IH]; intros Hc He; simpl.
  - split; [|done]. intros _ Hin. by apply elem_of_nil in Hin.
  - destruct Hc as [Hx Hc]. split.
    + intros HP Hin. apply elem_of_app in Hin as [Hin | Hin].
      * specialize (Hx HP Hin). destruct l; [done|]. done.
      * apply list_elem_of_singleton in Hin as ->.
        destruct He as [He | [He | He]].
        -- done.
        -- exfalso. apply He. apply list_elem_of_here.
        -- destruct l as [|y l]; [done|].
           assert (Hin : e ∈ y :: l).
           { rewrite last_cons_cons in He. apply last_Some in He as [l' ->].
             apply elem_of_app. right. apply list_elem_of_here. }
           apply (Hx HP Hin).
    + apply IH; [done|].
      destruct He as [He | [He | He]]; [by left | |].
      * right. left. intros Hin. apply He. by apply list_elem_of_further.
      * destruct l as [|y l]; [right; left; apply not_elem_of_nil|].
        right. right. by rewrite last_cons_cons in He.
Qed.

Lemma contiguous_head (x : X) (h s : list X) :
  contiguous P (x :: h) -> P x -> s `sublist_of` h -> x ∈ s -> head s = Some x.
Proof.
  revert s. induction h as [|y h IH]; intros s Hc HP Hsub Hin.
  - apply sublist_nil_r in Hsub as ->. by apply elem_of_nil in Hin.
  - destruct Hc as [Hx Hc].
    assert (Hy : y = x).
    { assert (Hxh : x ∈ y :: h) by (by eapply elem_of_sublist).
      specialize (Hx HP Hxh). simpl in Hx. by simplify_eq. }
    subst y. inversion Hsub as [| ? s' ? Hsub' | ? ? ? Hsub']; subst; [done|].
    apply IH; [|done..]. simpl. split; [|by destruct Hc].
    intros _ Hxh. destruct Hc as [Hc _]. by apply Hc.
Qed.

Lemma contiguous_sublist (s h : list X) :
  s `sublist_of` h -> contiguous P h -> contiguous P s.
Proof.
  induction 1 as [| x s h Hsub IH | x s h Hsub IH]; intros Hc; [done| |].
  - simpl. split; [|apply IH; by destruct Hc].
    intros HP Hin. by apply (contiguous_head x h).
  - apply IH. by destruct Hc.
Qed.

(** An identifier that differs from the last one of a prefix does not
    occur in that prefix. *)
Lemma contiguous_new (p rest : list X) (c y : X) :
  contiguous P (p ++ y :: rest) -> P y -> last p = Some c -> c <> y -> y ∉ p.
Proof.
  induction p as [|x p IH]; intros Hc HP Hlast Hne; [apply not_elem_of_nil|].
  destruct Hc as [Hx Hc].
  destruct p as [|x' p].
  - simpl in Hlast. simplify_eq. apply not_elem_of_cons. split; [done|].
    apply not_elem_of_nil.
  - rewrite last_cons_cons in Hlast. specialize (IH Hc HP Hlast Hne).
    apply not_elem_of_cons. split; [|done].
    intros ->. apply IH.
    assert (Hin : x ∈ (x' :: p) ++ x :: rest)
      by (apply elem_of_app; right; apply list_elem_of_here).
    specialize (Hx HP Hin). simpl in Hx. simplify_eq. apply list_elem_of_here.
Qed.
End Contiguous.

Lemma contiguous_all {X : Type} (P : X -> Prop) (l : list X) :
  Forall P l -> contiguous P l -> contiguous (fun _ => True) l.
Proof.
  induction l as [|x l IH]; [done|]. intros HP [Hx Hc].
  apply Forall_cons in HP as [HPx HP]. split; [|by apply IH].
  intros _. by apply Hx.
Qed.

(** ** Merging segments *)

Definition segmentIds {I : Type} (l : list (Translatable.segment I)) : list I :=
  map Translatable._id l.

Module MergeFacts.
Import Merge.

Definition step (v : vars) (ts : ParsedSegment) : vars :=
  if negb (bool_decide (Some (Translatable._id ts) = currentId v)) then
    let v1 :=
      if truthy_currentText v && truthy_idValue (currentId v) then push v else v in
    {| cleanedTextSegments := cleanedTextSegments v1;
       currentId := Some (Translatable._id ts);
       currentText := Some (Translatable.srcText ts) |}
  else
    {| cleanedTextSegments := cleanedTextSegments v;
       currentId := currentId v;
       currentText := Some (default [] (currentText v) ++ Translatable.srcText ts) |}.

Definition finish (v : vars) : vars :=
  if truthy_currentText v then push v else v.

Lemma merge_unfold (l : list ParsedSegment) :
  mergeTextSegmentsWithSameId l
  = cleanedTextSegments
      match l with
      | [] => initial
      | _ => finish (fold_left step l initial)
      end.
Proof.
  unfold mergeTextSegmentsWithSameId. f_equal.
  apply reduce_with_last; intros v ts i Hi; unfold body.
  - replace (length l =? i + 1)%nat with true
      by (symmetry; apply Nat.eqb_eq; lia).
    reflexivity.
  - replace (length l =? i + 1)%nat with false
      by (symmetry; apply Nat.eqb_neq; lia).
    reflexivity.
Qed.

(** The state of the loop after the segments of [p]. *)
Record inv (v : vars) (p : list ParsedSegment) : Prop := {
  inv_nodup : NoDup (segmentIds (cleanedTextSegments v));
  inv_sub :
    segmentIds (cleanedTextSegments v) ++ option_list (currentId v)
      `sublist_of` segmentIds p;
  inv_last : currentId v = last (segmentIds p);
  inv_current : forall c, currentId v = Some c -> c ∉ segmentIds (cleanedTextSegments v);
  inv_text : is_Some (currentText v) -> is_Some (currentId v)
}.

Lemma inv_initial : inv initial [].
Proof.
  split; simpl; try done. constructor.
Qed.

Lemma step_inv (v : vars) (p rest : list ParsedSegment) (ts : ParsedSegment) :
  inv v p ->
  contiguous (fun _ => True) (segmentIds (p ++ ts :: rest)) ->
  inv (step v ts) (p ++ [ts]).
Proof.
  intros [Hnd Hsub Hlast Hcur Htext] Hc. unfold step.
  unfold segmentIds in *. rewrite map_app in *. simpl in *.
  destruct (decide (Some (Translatable._id ts) = currentId v)) as [Heq | Hne].
  - rewrite bool_decide_eq_true_2 by done. simpl.
    split; unfold segmentIds; rewrite ?map_app; simpl; try done.
    { rewrite <- Heq in *. simpl in *. by apply sublist_inserts_r. }
    rewrite last_snoc. done.
  - rewrite bool_decide_eq_false_2 by done. simpl.
    (* the new identifier does not occur before *)
    assert (Hfresh : Translatable._id ts ∉ map Translatable._id p).
    { destruct (last (map Translatable._id p)) as [c|] eqn:Hl.
      - eapply (contiguous_new (fun _ => True)); [exact Hc|done|exact Hl|].
        intros ->. by rewrite Hlast in Hne.
      - apply last_None in Hl. rewrite Hl. apply not_elem_of_nil. }
    assert (Hsub' : map Translatable._id (cleanedTextSegments v)
                      `sublist_of` map Translatable._id p).
    { etrans; [|exact Hsub]. by apply sublist_inserts_r. }
    destruct (truthy_currentText v && truthy_idValue (currentId v)) eqn:Hpush.
    + apply andb_prop in Hpush as [_ Hid].
      destruct (currentId v) as [c|] eqn:Ec; [|done].
      unfold push. rewrite Ec. simpl.
      split; unfold segmentIds; simpl; rewrite ?map_app; simpl.
      * apply NoDup_app. split; [done|].
        split; [|apply NoDup_singleton].
        intros x Hx Hx'. apply list_elem_of_singleton in Hx' as ->.
        by apply (Hcur c).
      * by apply sublist_app.
      * by rewrite last_snoc.
      * intros c' [= <-].
        intros Hin. apply Hfresh. eapply elem_of_sublist; [exact Hin|].
        exact Hsub.
      * intros _. by eexists.
    + split; unfold segmentIds; simpl; rewrite ?map_app; simpl.
      * done.
      * by apply sublist_app.
      * by rewrite last_snoc.
      * intros c' [= <-] Hin. apply Hfresh. by eapply elem_of_sublist.
      * intros _. by eexists.
Qed.

Lemma fold_inv (rest p : list ParsedSegment) (v : vars) :
  inv v p ->
  contiguous (fun _ => True) (segmentIds (p ++ rest)) ->
  inv (fold_left step rest v) (p ++ rest).
Proof.
  revert p v. induction rest as [|ts rest IH]; intros p v Hinv Hc; simpl.
  - by rewrite app_nil_r.
  - replace (p ++ ts :: rest) with ((p ++ [ts]) ++ rest) in *
      by (by rewrite <- app_assoc).
    apply IH; [|done]. apply (step_inv v p rest); [done|].
    by rewrite <- app_assoc in Hc.
Qed.

Lemma finish_inv (v : vars) (p : list ParsedSegment) :
  inv v p ->
  NoDup (segmentIds (cleanedTextSegments (finish v)))
  /\ segmentIds (cleanedTextSegments (finish v)) `sublist_of` segmentIds p.
Proof.
  intros [Hnd Hsub Hlast Hcur Htext]. unfold finish.
  destruct (truthy_currentText v) eqn:Ht.
  - assert (Hsome : is_Some (currentId v)).
    { apply Htext. unfold truthy_currentText in Ht.
      destruct (currentText v); [by eexists | done]. }
    destruct Hsome as [c Ec]. unfold push, segmentIds in *.
    rewrite Ec in *. simpl in *. rewrite map_app. simpl. split; [|done].
    apply NoDup_app. split; [done|]. split; [|apply NoDup_singleton].
    intros x Hx Hx'. apply list_elem_of_singleton in Hx' as ->.
    by apply (Hcur c).
  - split; [done|]. etrans; [|exact Hsub]. by apply sublist_inserts_r.
Qed.
End MergeFacts.

(** Merging segments whose identifiers come in runs leaves every identifier
    once, and takes no identifier from elsewhere. *)
Lemma merge_contiguous (l : list ParsedSegment) :
  contiguous (fun _ => True) (segmentIds l) ->
  NoDup (segmentIds (mergeTextSegmentsWithSameId l))
  /\ segmentIds (mergeTextSegmentsWithSameId l) `sublist_of` segmentIds l.
Proof.
  intros Hc. rewrite MergeFacts.merge_unfold.
  destruct l as [|ts l]; [split; [constructor | done]|].
  apply MergeFacts.finish_inv.
  apply (MergeFacts.fold_inv (ts :: l) []); [apply MergeFacts.inv_initial | done].
Qed.

(** ** Identifiers during a parse *)

(** The identifiers the marks of a node list carry, and those of a tree. *)
Definition markIdsOf (marks0 : list Mark.t) : list string :=
  omap mark_textSegmentId marks0.

Definition markIds (node : JSONContent) : list string :=
  concat (map (fun n => markIdsOf (default [] (marks n))) (nodes node)).

Lemma getTextSegmentIdFromMarks_origin (marks0 : list Mark.t) (id : string) :
  getTextSegmentIdFromMarks marks0 = Some id -> id ∈ markIdsOf marks0.
Proof.
  unfold getTextSegmentIdFromMarks, markIdsOf.
  assert (Hgen : forall acc,
             fold_left
               (fun textSegmentId m =>
                  if truthy_id textSegmentId then textSegmentId
                  else mark_textSegmentId m) marks0 acc = Some id ->
             acc = Some id \/ id ∈ omap mark_textSegmentId marks0).
  { induction marks0 as [|m marks0 IH]; intros acc Hf; simpl in *; [by left|].
    apply IH in Hf as [Hf | Hf].
    - destruct (truthy_id acc); [by left|]. right.
      rewrite Hf. apply list_elem_of_here.
    - right. destruct (mark_textSegmentId m); [by apply list_elem_of_further | done]. }
  intros Hf. by destruct (Hgen None Hf).
Qed.

(** What is read under a name that is not an own property is no string. *)
Lemma inheritedProperty_value (name : string) (v : IdValue) :
  inheritedProperty name = Some v -> truthy_value v = true /\ forall s, v <> IdString s.
Proof.
  unfold inheritedProperty.
  destruct (String.eqb name "__proto__"); [by intros [= <-]|].
  destruct (String.eqb name "constructor"); [by intros [= <-]|].
  destruct (bool_decide (name ∈ prototypeMethods)); [by intros [= <-] | done].
Qed.

Lemma elem_of_IdString (s : string) (l : list string) :
  IdString s ∈ map IdString l <-> s ∈ l.
Proof.
  induction l as [|x l IH]; simpl.
  - split; intros Hin; by apply elem_of_nil in Hin.
  - rewrite !elem_of_cons, IH. split; (intros [Heq | Hin]; [left | by right]).
    + by injection Heq.
    + by rewrite Heq.
Qed.

Lemma elem_of_IdString_inv (v : IdValue) (l : list string) :
  v ∈ map IdString l -> exists s, v = IdString s /\ s ∈ l.
Proof.
  induction l as [|x l IH]; simpl; intros Hin.
  - by apply elem_of_nil in Hin.
  - apply elem_of_cons in Hin as [-> | Hin].
    + exists x. split; [done | apply list_elem_of_here].
    + destruct (IH Hin) as (s & -> & Hs). exists s. split; [done|].
      by apply list_elem_of_further.
Qed.

(** Where a resolved identifier comes from: the marks, a replacement that
    was stored, or [Object.prototype]. *)
Lemma resolved_origin (marks0 : list Mark.t) (repl : IdReplacements.t) (id : IdValue) :
  getTextSegmentIdFromMarksWithReplacement marks0 repl = Some id ->
  truthy_value id = true
  /\ ((exists raw, id = IdString raw /\ raw ∈ markIdsOf marks0)
      \/ (exists key v, repl !! key = Some v /\ id = IdString v)
      \/ (exists name, inheritedProperty name = Some id)).
Proof.
  unfold getTextSegmentIdFromMarksWithReplacement, IdReplacements.get. cbv zeta.
  destruct (getTextSegmentIdFromMarks marks0) as [raw|] eqn:Hraw; simpl; [|done].
  destruct (truthy_string raw) eqn:Ht; simpl; [|done].
  apply getTextSegmentIdFromMarks_origin in Hraw.
  destruct (repl !! raw) as [v|] eqn:Hv.
  - simpl. destruct (truthy_string v) eqn:Htv; intros [= <-]; split; eauto 6.
  - destruct (inheritedProperty raw) as [v|] eqn:Hin.
    + destruct (inheritedProperty_value raw v Hin) as [Htv _]. rewrite Htv.
      intros [= <-]. split; eauto 6.
    + intros [= <-]. split; eauto 6.
Qed.

Lemma requiresNew_false (id : IdValue) (hist : list IdValue) :
  requiresNewTextSegmentId (Some id) hist = false ->
  truthy_value id = true /\ (id ∉ hist \/ last hist = Some id).
Proof.
  unfold requiresNewTextSegmentId, getLastElementInArray.
  intros Hr. apply orb_false_elim in Hr as [Ht Hr].
  apply negb_false_iff in Ht. split; [done|].
  apply andb_false_elim in Hr as [Hr | Hr].
  - right. apply negb_false_iff in Hr. by apply bool_decide_eq_true_1 in Hr.
  - left. by apply bool_decide_eq_false_1 in Hr.
Qed.

Section ParseFacts.
Variable uuid : nat -> string.
Hypothesis uuid_inj : forall i j, uuid i = uuid j -> i = j.
Hypothesis uuid_real : forall j, uuid j ∉ reserved.

(** An identifier of the document: not a reserved word, and not one the
    generator returns. *)
Definition foreign (id : string) : Prop :=
  (id ∉ reserved) /\ (forall j, uuid j <> id).

(** A value of the parse history that is an identifier, not one of the
    reserved words. *)
Definition real (id : IdValue) : Prop := id ∉ map IdString reserved.

Lemma real_uuid (j : nat) : real (IdString (uuid j)).
Proof. unfold real. rewrite elem_of_IdString. apply uuid_real. Qed.

Lemma real_inherited (name : string) (v : IdValue) :
  inheritedProperty name = Some v -> real v.
Proof.
  intros Hv Hin. apply elem_of_IdString_inv in Hin as (s & -> & _).
  destruct (inheritedProperty_value name _ Hv) as [_ Hs]. by apply (Hs s).
Qed.

(** What holds between the calls: the identifiers of the history come in
    runs, the identifiers still to be generated are not in it, and the
    replacements are generated identifiers. *)
Record Inv (hist : list IdValue) (repl : IdReplacements.t) (k : nat) : Prop := {
  inv_contiguous : contiguous real hist;
  inv_unused : forall j, k <= j -> IdString (uuid j) ∉ hist;
  inv_generated : forall key v, repl !! key = Some v -> exists i, i < k /\ v = uuid i
}.

(** What a call adds. *)
Record Out (hist : list IdValue) (k : nat) (r : ParseResult) : Prop := {
  out_calls : k <= uuidCalls r;
  out_inv : Inv (hist ++ parseHistory r) (idReplacements r) (uuidCalls r);
  out_sub : segmentIds (textSegments r) `sublist_of` parseHistory r;
  out_real : Forall real (segmentIds (textSegments r))
}.

Lemma Inv_fresh (hist : list IdValue) (repl : IdReplacements.t) (k : nat) :
  Inv hist repl k -> Inv (hist ++ [IdString (uuid k)]) repl (S k).
Proof.
  intros [Hc Hu Hg]. split.
  - apply contiguous_snoc; [done|]. right. left. by apply Hu.
  - intros j Hj Hin. apply elem_of_app in Hin as [Hin | Hin].
    + apply (Hu j); [lia | done].
    + apply list_elem_of_singleton in Hin. injection Hin as Hin.
      apply uuid_inj in Hin. lia.
  - intros key v Hv. destruct (Hg key v Hv) as (i & Hi & ->).
    exists i. split; [lia | done].
Qed.

Lemma Inv_set (hist : list IdValue) (repl : IdReplacements.t) (k : nat)
    (key : IdValue) :
  Inv hist repl (S k) -> Inv hist (IdReplacements.set repl key (uuid k)) (S k).
Proof.
  intros [Hc Hu Hg]. unfold IdReplacements.set. cbv zeta.
  destruct (String.eqb (propertyKey key) "__proto__"); [done|].
  split; [done..|].
  intros key' v Hv. destruct (decide (propertyKey key = key')) as [<- | Hne].
  - rewrite lookup_insert_eq in Hv. simplify_eq. exists k. split; [lia | done].
  - rewrite lookup_insert_ne in Hv by done. by apply (Hg key').
Qed.

Lemma Inv_reserved (hist : list IdValue) (repl : IdReplacements.t) (k : nat)
    (word : string) :
  word ∈ reserved -> Inv hist repl k -> Inv (hist ++ [IdString word]) repl k.
Proof.
  intros Hw [Hc Hu Hg]. split; [| |done].
  - apply contiguous_snoc; [done|]. left. unfold real.
    intros Hn. apply Hn. by apply elem_of_IdString.
  - intros j Hj Hin. apply elem_of_app in Hin as [Hin | Hin].
    + by apply (Hu j).
    + apply list_elem_of_singleton in Hin. injection Hin as Hin.
      apply (uuid_real j). by rewrite Hin.
Qed.

Lemma parseMarkedLeaf_Out type0 attrs0 text0 (marks0 : list Mark.t)
    (hist : list IdValue) (repl : IdReplacements.t) (k : nat) :
  Forall foreign (markIdsOf marks0) ->
  Inv hist repl k ->
  Out hist k (parseMarkedLeaf uuid type0 attrs0 text0 marks0 hist repl k)
  /\ NoDup (segmentIds
              (textSegments (parseMarkedLeaf uuid type0 attrs0 text0 marks0 hist repl k))).
Proof.
  intros Hmarks Hinv. unfold parseMarkedLeaf. cbv zeta.
  destruct (getTextSegmentIdFromMarksWithReplacement marks0 repl) as [id0|] eqn:Hres.
  - apply resolved_origin in Hres as [Htruthy Horigin].
    unfold truthy_idValue. rewrite Htruthy. simpl negb. rewrite orb_false_l.
    destruct (requiresNewTextSegmentId (Some id0) hist) eqn:Hreq; simpl.
    + split; [|apply NoDup_singleton].
      split; simpl; [lia | | done |].
      * by apply Inv_set, Inv_fresh.
      * constructor; [apply real_uuid | constructor].
    + apply requiresNew_false in Hreq as [_ Hkeep].
      assert (Hid : real id0 /\ forall j, k <= j -> IdString (uuid j) <> id0).
      { destruct Horigin as [(raw & -> & Hin) | [(key & v & Hkey & ->) | (name & Hin)]].
        - rewrite Forall_forall in Hmarks. destruct (Hmarks raw Hin) as [Hr Hf].
          split; [unfold real; by rewrite elem_of_IdString|].
          intros j _ [= Heq]. by apply (Hf j).
        - destruct Hinv as [_ _ Hg]. destruct (Hg key v Hkey) as (i & Hi & ->).
          split; [apply real_uuid|]. intros j Hj [= Heq]. apply uuid_inj in Heq. lia.
        - split; [by apply (real_inherited name)|].
          intros j _ Heq. symmetry in Heq.
          destruct (inheritedProperty_value name _ Hin) as [_ Hs]. by apply (Hs (uuid j)). }
      destruct Hid as [Hreal Hunused].
      split; [|apply NoDup_singleton].
      split; simpl; [lia | | done | by repeat constructor].
      destruct Hinv as [Hc Hu Hg]. split; [| |done].
      * apply contiguous_snoc; [done|]. by right.
      * intros j Hj Hin. apply elem_of_app in Hin as [Hin | Hin].
        -- by apply (Hu j).
        -- apply list_elem_of_singleton in Hin. by apply (Hunused j).
  - split; [|apply NoDup_singleton].
    split; simpl; [lia | | done |].
    + by apply Inv_fresh.
    + constructor; [apply real_uuid | constructor].
Qed.

Lemma parseRawPiece_Out type0 attrs0 (hist : list IdValue) (k : nat)
    (r : ParseResult) (str : jstring) :
  Out hist k r /\ NoDup (segmentIds (textSegments r)) ->
  Out hist k (parseRawPiece uuid type0 attrs0 r str)
  /\ NoDup (segmentIds (textSegments (parseRawPiece uuid type0 attrs0 r str))).
Proof.
  intros [[Hk Hinv Hsub Hreal] Hnd]. unfold parseRawPiece.
  destruct (stringContainsOnlyWhitespace str).
  - split; [|done]. split; simpl; [done | | |done].
    + rewrite app_assoc. apply Inv_reserved; [|done].
      unfold reserved. apply list_elem_of_here.
    + by apply sublist_inserts_r.
  - unfold segmentIds in *. split.
    + split; unfold segmentIds; simpl; rewrite ?map_app; [lia | | |].
      * rewrite app_assoc. by apply Inv_fresh.
      * simpl. by apply sublist_app.
      * apply Forall_app. split; [done|].
        constructor; [apply real_uuid | constructor].
    + simpl. rewrite map_app. simpl. apply NoDup_app. split; [done|].
      split; [|apply NoDup_singleton].
      intros x Hx Hx'. apply list_elem_of_singleton in Hx' as ->.
      destruct Hinv as [_ Hu _]. apply (Hu (uuidCalls r)); [lia|].
      apply elem_of_app. right. by eapply elem_of_sublist.
Qed.

Lemma Out_start (hist : list IdValue) (repl : IdReplacements.t) (k : nat) :
  Inv hist repl k ->
  Out hist k
    {| textSegments := []; structures := []; parseHistory := [];
       idReplacements := repl; uuidCalls := k |}.
Proof.
  intros Hinv. split; simpl; [lia | by rewrite app_nil_r | done | constructor].
Qed.

Lemma parseRawText_Out type0 attrs0 (text0 : jstring) (hist : list IdValue)
    (repl : IdReplacements.t) (k : nat) :
  Inv hist repl k ->
  Out hist k (parseRawText uuid type0 attrs0 text0 repl k)
  /\ NoDup (segmentIds (textSegments (parseRawText uuid type0 attrs0 text0 repl k))).
Proof.
  intros Hinv. unfold parseRawText.
  assert (Hfold : forall pieces r,
             Out hist k r /\ NoDup (segmentIds (textSegments r)) ->
             Out hist k (fold_left (parseRawPiece uuid type0 attrs0) pieces r)
             /\ NoDup (segmentIds
                         (textSegments
                            (fold_left (parseRawPiece uuid type0 attrs0) pieces r)))).
  { induction pieces as [|str pieces IH]; intros r Hr; [done|].
    simpl. apply IH. by apply parseRawPiece_Out. }
  apply Hfold. split; [by apply Out_start | constructor].
Qed.

(** The specification of a call on a node. *)
Definition parses_well (node : JSONContent) : Prop :=
  forall hist repl k,
    Inv hist repl k ->
    Out hist k (parseEditorContentInternal uuid node hist repl k)
    /\ NoDup (segmentIds
                (textSegments (parseEditorContentInternal uuid node hist repl k))).

Lemma forEachChild_Out (hist : list IdValue) (k : nat) (children : list JSONContent)
    (r : ParseResult) :
  Forall parses_well children ->
  Out hist k r ->
  Out hist k (forEachChild (parseEditorContentInternal uuid) hist children r).
Proof.
  revert r. induction children as [|child children IH]; intros r Hall Hr; [done|].
  apply Forall_cons in Hall as [Hchild Hall]. simpl. apply IH; [done|].
  destruct Hr as [Hk Hinv Hsub Hreal].
  destruct (Hchild (hist ++ parseHistory r) (idReplacements r) (uuidCalls r) Hinv)
    as [[Hk' Hinv' Hsub' Hreal'] _].
  split; simpl.
  - lia.
  - by rewrite app_assoc.
  - unfold segmentIds in *. rewrite map_app. by apply sublist_app.
  - unfold segmentIds in *. rewrite map_app. by apply Forall_app.
Qed.

Lemma finishNode_Out type0 attrs0 (hist : list IdValue) (k : nat) (r : ParseResult) :
  Out hist k r ->
  Out hist k (finishNode type0 attrs0 r)
  /\ NoDup (segmentIds (textSegments (finishNode type0 attrs0 r))).
Proof.
  intros [Hk Hinv Hsub Hreal]. unfold finishNode. simpl.
  assert (Hc : contiguous (fun _ => True) (segmentIds (textSegments r))).
  { apply (contiguous_all real); [done|].
    apply (contiguous_sublist real _ (parseHistory r)); [done|].
    destruct Hinv as [Hc _ _]. by apply contiguous_app_r in Hc. }
  destruct (merge_contiguous _ Hc) as [Hnd Hmsub].
  split; [|done]. split; simpl.
  - done.
  - rewrite app_assoc. apply Inv_reserved; [|done].
    unfold reserved. apply list_elem_of_further, list_elem_of_here.
  - apply sublist_inserts_r. by etrans.
  - rewrite Forall_forall in Hreal |- *. intros x Hx. apply Hreal.
    by eapply elem_of_sublist.
Qed.

Lemma markIds_child (node child : JSONContent) (children : list JSONContent) (id : string) :
  content node = Some children -> child ∈ children ->
  id ∈ markIds child -> id ∈ markIds node.
Proof.
  intros Hcontent Hchild Hid. unfold markIds in *.
  apply elem_of_concat_map in Hid as (n & Hn & Hid).
  apply elem_of_concat_map. exists n. split; [|done].
  destruct node as [type0 attrs0 content0 text0 marks0 id0]. simpl in *. subst.
  apply list_elem_of_further. apply elem_of_concat_map. by exists child.
Qed.

Lemma markIds_own (node : JSONContent) (marks0 : list Mark.t) (id : string) :
  marks node = Some marks0 -> id ∈ markIdsOf marks0 -> id ∈ markIds node.
Proof.
  intros Hmarks Hid. unfold markIds.
  apply elem_of_concat_map. exists node. split.
  - destruct node. apply list_elem_of_here.
  - by rewrite Hmarks.
Qed.

Lemma parse_Out (node : JSONContent) :
  Forall foreign (markIds node) -> parses_well node.
Proof.
  induction node as [type0 attrs0 content0 text0 marks0 id0 IH]
    using JSONContent_tree_ind.
  intros Hforeign hist repl k Hinv. simpl.
  destruct text0 as [text1|].
  - destruct marks0 as [marks1|].
    + apply parseMarkedLeaf_Out; [|done].
      rewrite Forall_forall in Hforeign |- *. intros id Hid. apply Hforeign.
      by apply (markIds_own _ marks1).
    + by apply parseRawText_Out.
  - destruct content0 as [children|].
    + apply finishNode_Out. apply forEachChild_Out; [|by apply Out_start].
      rewrite Forall_forall in IH |- *. intros child Hchild.
      apply IH; [done|].
      rewrite Forall_forall in Hforeign |- *. intros id Hid. apply Hforeign.
      by apply (markIds_child _ child children).
    + split; [|constructor].
      split; simpl; [lia | | apply sublist_nil_l | constructor].
      apply Inv_reserved; [|done].
      unfold reserved. apply list_elem_of_further, list_elem_of_here.
Qed.
End ParseFacts.

(** X1.  The segments returned by [parseEditorContent] have pairwise distinct
    identifiers, for a document none of whose marks carries one of the words
    [blank] and [break], and a generator that returns pairwise distinct
    identifiers which are neither these words nor carried by a mark of the
    document. *)
Theorem parse_ids_distinct (uuid : nat -> string) (T : JSONContent) :
  (forall i j, uuid i = uuid j -> i = j) ->
  (forall j, uuid j ∉ reserved) ->
  (forall j, uuid j ∉ markIds T) ->
  (forall id, id ∈ markIds T -> id ∉ reserved) ->
  NoDup (map Translatable._id (fst (parseEditorContent uuid T))).
Proof.
  intros Hinj Hreal Hfresh Hreserved. unfold parseEditorContent. simpl.
  apply (parse_Out uuid Hinj Hreal T).
  - rewrite Forall_forall. intros id Hid. split; [by apply Hreserved|].
    intros j Heq. apply (Hfresh j). by rewrite Heq.
  - split; [done | |].
    + intros j _. apply not_elem_of_nil.
    + intros key v Hv. by rewrite lookup_empty in Hv.
Qed.

(** ** The sample generator *)

Lemma sampleUuid_inj (i j : nat) : sampleUuid i = sampleUuid j -> i = j.
Proof.
  unfold sampleUuid. simpl. intros Heq. simplify_eq.
  by apply (inj pretty).
Qed.

Lemma sampleUuid_real (j : nat) : sampleUuid j ∉ reserved.
Proof.
  unfold sampleUuid, reserved. simpl.
  rewrite !not_elem_of_cons. repeat split; try discriminate. apply not_elem_of_nil.
Qed.

(** The document of the unit test "Handles separated text segments with same
    id": the user pressed enter inside a segment. *)
Definition splitSegment : JSONContent :=
  docNode
    [ paragraph [markedText "b8418d2d-3491-489d-93ef-adf7d1fc06ff"
                   "First part of the sentence"];
      paragraph [markedText "b8418d2d-3491-489d-93ef-adf7d1fc06ff"
                   " Second part of the sentence."] ].

Example splitSegment_unit_test :
  fst (parseEditorContent sampleUuid splitSegment)
  = map segmentAtRunTime
      [ Translatable.mk "b8418d2d-3491-489d-93ef-adf7d1fc06ff"
          (js "First part of the sentence");
        Translatable.mk "uuid-0" (js " Second part of the sentence.") ].
Proof. reflexivity. Qed.

Lemma parse_ids_distinct_witness :
  NoDup (map Translatable._id (fst (parseEditorContent sampleUuid splitSegment))).
Proof.
  apply (parse_ids_distinct sampleUuid splitSegment).
  - apply sampleUuid_inj.
  - apply sampleUuid_real.
  - intros j.
    change (markIds splitSegment)
      with ["b8418d2d-3491-489d-93ef-adf7d1fc06ff";
            "b8418d2d-3491-489d-93ef-adf7d1fc06ff"].
    unfold sampleUuid. simpl.
    rewrite !not_elem_of_cons. repeat split; try discriminate. apply not_elem_of_nil.
  - intros id Hid.
    change (markIds splitSegment)
      with ["b8418d2d-3491-489d-93ef-adf7d1fc06ff";
            "b8418d2d-3491-489d-93ef-adf7d1fc06ff"] in Hid.
    unfold reserved.
    rewrite !elem_of_cons in Hid. rewrite !not_elem_of_cons.
    destruct Hid as [-> | [-> | Hid]].
    + repeat split; try discriminate. apply not_elem_of_nil.
    + repeat split; try discriminate. apply not_elem_of_nil.
    + by apply elem_of_nil in Hid.
Defined.

(** C3.  The identifiers of the segments are not always pairwise distinct:
    in a document whose marks carry the identifier [break], the word the
    parser itself writes into the parse history after each node, the
    identifier passes for a continuation in the third paragraph, is kept,
    and two segments of the result share it. *)
Theorem reserved_word_id_repeats :
  ~ NoDup
      (map Translatable._id
         (fst (parseEditorContent sampleUuid
                 (docNode [ paragraph [markedText "break" "x"];
                            paragraph [markedText "b" "z"];
                            paragraph [markedText "break" "y"] ])))).
Proof.
  change (~ NoDup [IdString "break"; IdString "b"; IdString "break"]).
  intros Hnd. apply NoDup_cons in Hnd as [Hnot _]. apply Hnot.
  apply list_elem_of_further, list_elem_of_here.
Qed.

(** ** Replacement of stale identifiers *)

(** The names under which [Object.prototype] has a member, and the property
    keys that these members are converted to. *)
Definition prototypeNames : list string :=
  "__proto__" :: "constructor" :: prototypeMethods.

Definition prototypeKeys : list string :=
  map propertyKey (omap inheritedProperty prototypeNames).

Lemma inheritedProperty_None (name : string) :
  name ∉ prototypeNames -> inheritedProperty name = None.
Proof.
  unfold prototypeNames, inheritedProperty. intros Hn.
  apply not_elem_of_cons in Hn as [Hp Hn]. apply not_elem_of_cons in Hn as [Hc Hn].
  destruct (String.eqb_spec name "__proto__"); [done|].
  destruct (String.eqb_spec name "constructor"); [done|].
  by rewrite bool_decide_eq_false_2.
Qed.

Lemma inheritedProperty_name (name : string) (v : IdValue) :
  inheritedProperty name = Some v -> name ∈ prototypeNames.
Proof.
  unfold prototypeNames, inheritedProperty.
  destruct (String.eqb_spec name "__proto__") as [-> | _]; [intros _; apply list_elem_of_here|].
  destruct (String.eqb_spec name "constructor") as [-> | _];
    [intros _; apply list_elem_of_further, list_elem_of_here|].
  destruct (decide (name ∈ prototypeMethods)) as [Hin | Hnot].
  - intros _. by do 2 apply list_elem_of_further.
  - by rewrite bool_decide_eq_false_2.
Qed.

Lemma inheritedProperty_key (name : string) (v : IdValue) :
  inheritedProperty name = Some v -> propertyKey v ∈ prototypeKeys.
Proof.
  intros Hv. unfold prototypeKeys.
  apply (list_elem_of_fmap_2 propertyKey). apply list_elem_of_omap.
  exists name. split; [by apply (inheritedProperty_name name v) | done].
Qed.

(** Reading an own property. *)
Lemma get_own (repl : IdReplacements.t) (name v : string) :
  repl !! name = Some v -> IdReplacements.get repl name = Some (IdString v).
Proof. unfold IdReplacements.get. by intros ->. Qed.

(** Reading a name that is neither an own property nor a member of
    [Object.prototype]. *)
Lemma get_absent (repl : IdReplacements.t) (name : string) :
  repl !! name = None -> name ∉ prototypeNames -> IdReplacements.get repl name = None.
Proof.
  unfold IdReplacements.get. intros -> Hn. by apply inheritedProperty_None.
Qed.

(** The cases of a resolved identifier, with the key it is stored under
    when it is replaced. *)
Lemma resolved_cases (marks0 : list Mark.t) (repl : IdReplacements.t) (id : IdValue) :
  getTextSegmentIdFromMarksWithReplacement marks0 repl = Some id ->
  exists raw,
    getTextSegmentIdFromMarks marks0 = Some raw
    /\ truthy_string raw = true
    /\ ((exists v, repl !! raw = Some v /\ id = IdString v /\ truthy_string v = true)
        \/ (repl !! raw = None /\ inheritedProperty raw = Some id)
        \/ (id = IdString raw
            /\ ((repl !! raw = None /\ inheritedProperty raw = None)
                \/ exists v, repl !! raw = Some v /\ truthy_string v = false))).
Proof.
  unfold getTextSegmentIdFromMarksWithReplacement, IdReplacements.get. cbv zeta.
  destruct (getTextSegmentIdFromMarks marks0) as [raw|]; simpl; [|done].
  destruct (truthy_string raw) eqn:Ht; simpl; [|done].
  intros Hid. exists raw. split; [done|]. split; [done|].
  destruct (repl !! raw) as [v|].
  - simpl in Hid. destruct (truthy_string v) eqn:Hv; simplify_eq; eauto 8.
  - destruct (inheritedProperty raw) as [v|] eqn:Hin.
    + destruct (inheritedProperty_value raw v Hin) as [Htv _]. rewrite Htv in Hid.
      simplify_eq. eauto 8.
    + simplify_eq. eauto 8.
Qed.

Section Remap.
Variable uuid : nat -> string.
Variables stale fresh : string.
Hypothesis stale_foreign : forall j, uuid j <> stale.
Hypothesis stale_plain : stale ∉ prototypeKeys.
Hypothesis fresh_truthy : truthy_string fresh = true.

(** The replacements are identifiers of the generator. *)
Definition generated (repl : IdReplacements.t) : Prop :=
  forall key v, repl !! key = Some v -> exists i, v = uuid i.

(** The entry for the stale identifier is in place. *)
Definition remapped (repl : IdReplacements.t) : Prop :=
  repl !! stale = Some fresh /\ generated repl.

Lemma remapped_set (repl : IdReplacements.t) (key : IdValue) (k : nat) :
  propertyKey key <> stale -> remapped repl ->
  remapped (IdReplacements.set repl key (uuid k)).
Proof.
  intros Hne [Hs Hg]. unfold IdReplacements.set. cbv zeta.
  destruct (String.eqb (propertyKey key) "__proto__"); [done|].
  split.
  - by rewrite lookup_insert_ne.
  - intros key' v Hv. destruct (decide (propertyKey key = key')) as [<- | Hne'].
    + rewrite lookup_insert_eq in Hv. simplify_eq. by exists k.
    + rewrite lookup_insert_ne in Hv by done. by apply (Hg key').
Qed.

Lemma parseMarkedLeaf_remapped type0 attrs0 text0 marks0 hist repl k :
  remapped repl ->
  remapped (idReplacements (parseMarkedLeaf uuid type0 attrs0 text0 marks0 hist repl k)).
Proof.
  intros Hr. unfold parseMarkedLeaf. cbv zeta.
  destruct (getTextSegmentIdFromMarksWithReplacement marks0 repl) as [id0|] eqn:Hres;
    [|done].
  destruct (negb (truthy_idValue (Some id0))
            || requiresNewTextSegmentId (Some id0) hist);
    [|done].
  cbn [idReplacements]. destruct (truthy_idValue (Some id0)); [|done].
  apply remapped_set; [|done].
  destruct Hr as [Hs Hg].
  apply resolved_cases in Hres
    as (raw & _ & _ & [(v & Hv & -> & _) | [[_ Hin] | [-> [[Hnone _] | (v & Hv & Hfalse)]]]]).
  - destruct (Hg raw v Hv) as (i & ->). apply stale_foreign.
  - intros Heq. apply stale_plain. rewrite <- Heq. by apply (inheritedProperty_key raw).
  - simpl. intros ->. congruence.
  - simpl. intros ->. rewrite Hs in Hv. simplify_eq. congruence.
Qed.

Lemma parseRawText_remapped type0 attrs0 text0 repl k :
  remapped repl ->
  remapped (idReplacements (parseRawText uuid type0 attrs0 text0 repl k)).
Proof.
  intros Hr. unfold parseRawText.
  assert (Hfold : forall pieces r,
             idReplacements (fold_left (parseRawPiece uuid type0 attrs0) pieces r)
             = idReplacements r).
  { induction pieces as [|str pieces IH]; intros r; [done|].
    simpl. rewrite IH. unfold parseRawPiece.
    by destruct (stringContainsOnlyWhitespace str). }
  by rewrite Hfold.
Qed.

Lemma parse_remapped (node : JSONContent) hist repl k :
  remapped repl ->
  remapped (idReplacements (parseEditorContentInternal uuid node hist repl k)).
Proof.
  revert hist repl k.
  induction node as [type0 attrs0 content0 text0 marks0 id0 IH]
    using JSONContent_tree_ind.
  intros hist repl k Hr. simpl.
  destruct text0 as [text1|].
  - destruct marks0 as [marks1|].
    + by apply parseMarkedLeaf_remapped.
    + by apply parseRawText_remapped.
  - destruct content0 as [children|]; [|done].
    simpl.
    assert (Hloop : forall r,
               remapped (idReplacements r) ->
               remapped
                 (idReplacements
                    (forEachChild (parseEditorContentInternal uuid) hist children r))).
    { induction children as [|child children IHc]; intros r Hrr; [done|].
      apply Forall_cons in IH as [Hchild IH]. simpl.
      apply IHc; [done|]. simpl. by apply Hchild. }
    by apply Hloop.
Qed.

(** A later leaf that carries the stale identifier. *)
Lemma later_leaf type0 attrs0 text0 marks0 hist repl k :
  getTextSegmentIdFromMarks marks0 = Some stale ->
  truthy_string stale = true ->
  repl !! stale = Some fresh ->
  getTextSegmentIdFromMarksWithReplacement marks0 repl = Some (IdString fresh)
  /\ textSegments (parseMarkedLeaf uuid type0 attrs0 text0 marks0 hist repl k)
     = [ Translatable.mk
           (IdString
              (if bool_decide (IdString fresh ∉ hist \/ last hist = Some (IdString fresh))
               then fresh else uuid k))
           text0 ].
Proof.
  intros Hraw Ht Hs.
  assert (Hres : getTextSegmentIdFromMarksWithReplacement marks0 repl
                 = Some (IdString fresh)).
  { unfold getTextSegmentIdFromMarksWithReplacement. rewrite Hraw. simpl.
    rewrite Ht. simpl. rewrite (get_own repl stale fresh Hs). simpl.
    by rewrite fresh_truthy. }
  split; [done|].
  unfold parseMarkedLeaf. rewrite Hres. cbv zeta.
  unfold truthy_idValue, truthy_value. rewrite fresh_truthy. simpl negb.
  rewrite orb_false_l.
  destruct (requiresNewTextSegmentId (Some (IdString fresh)) hist) eqn:Hreq.
  - rewrite bool_decide_eq_false_2; [done|].
    unfold requiresNewTextSegmentId, getLastElementInArray in Hreq.
    simpl in Hreq. rewrite fresh_truthy in Hreq. simpl in Hreq.
    apply andb_prop in Hreq as [Hlast Hin].
    apply negb_true_iff, bool_decide_eq_false_1 in Hlast.
    apply bool_decide_eq_true_1 in Hin. tauto.
  - apply requiresNew_false in Hreq as [_ Hkeep].
    by rewrite bool_decide_eq_true_2.
Qed.
End Remap.

(** C6.  When the identifier carried by a marked leaf, for which no
    replacement is recorded yet, is stale, the leaf gets a newly generated
    identifier, recorded as the replacement of the stale one.  The record
    stays for the rest of the parse, so every later leaf that carries the
    stale identifier is looked up to that same new identifier; the leaf is
    emitted with it when the new identifier is the last entry of the parse
    history (or not in it), and with a further new identifier otherwise.
    The stale identifier is one that [idReplacements], a plain object, keeps
    apart from the members of [Object.prototype]: not the name of a member,
    and not the property key a member is converted to. *)
Theorem stale_id_remap (uuid : nat -> string) (stale : string)
    (type0 : option string) (attrs0 : option Attrs) (text0 : jstring)
    (marks0 : list Mark.t) (hist : list IdValue) (repl : IdReplacements.t)
    (k : nat) :
  (forall j, uuid j <> stale) ->
  (forall j, truthy_string (uuid j) = true) ->
  (forall key v, repl !! key = Some v -> exists i, v = uuid i) ->
  stale ∉ prototypeNames ->
  stale ∉ prototypeKeys ->
  getTextSegmentIdFromMarks marks0 = Some stale ->
  truthy_string stale = true ->
  repl !! stale = None ->
  IdString stale ∈ hist ->
  last hist <> Some (IdString stale) ->
  let r := parseMarkedLeaf uuid type0 attrs0 text0 marks0 hist repl k in
  let fresh := uuid k in
  textSegments r = [Translatable.mk (IdString fresh) text0]
  /\ remapped uuid stale fresh (idReplacements r)
  /\ (forall node hist' repl' k',
         remapped uuid stale fresh repl' ->
         remapped uuid stale fresh
           (idReplacements (parseEditorContentInternal uuid node hist' repl' k')))
  /\ (forall type1 attrs1 text1 marks1 hist' repl' k',
         getTextSegmentIdFromMarks marks1 = Some stale ->
         repl' !! stale = Some fresh ->
         getTextSegmentIdFromMarksWithReplacement marks1 repl' = Some (IdString fresh)
         /\ textSegments (parseMarkedLeaf uuid type1 attrs1 text1 marks1 hist' repl' k')
            = [ Translatable.mk
                  (IdString
                     (if bool_decide (IdString fresh ∉ hist'
                                      \/ last hist' = Some (IdString fresh))
                      then fresh else uuid k'))
                  text1 ]).
Proof.
  intros Hforeign Htruthy Hgen Hname Hkey Hraw Hstale Hnone Hin Hlast r fresh.
  assert (Hres : getTextSegmentIdFromMarksWithReplacement marks0 repl
                 = Some (IdString stale)).
  { unfold getTextSegmentIdFromMarksWithReplacement. rewrite Hraw. simpl.
    rewrite Hstale. simpl. by rewrite (get_absent repl stale Hnone Hname). }
  assert (Hreq : requiresNewTextSegmentId (Some (IdString stale)) hist = true).
  { unfold requiresNewTextSegmentId, getLastElementInArray. simpl.
    rewrite Hstale. simpl.
    rewrite bool_decide_eq_false_2 by done. by rewrite bool_decide_eq_true_2. }
  assert (Hproto : String.eqb stale "__proto__" = false).
  { apply String.eqb_neq. intros ->. apply Hname. apply list_elem_of_here. }
  assert (Hr : r = {| textSegments := [Translatable.mk (IdString fresh) text0];
                      structures := [segmentLeaf type0 attrs0 (IdString fresh)];
                      parseHistory := [IdString fresh];
                      idReplacements := <[stale := fresh]> repl;
                      uuidCalls := S k |}).
  { subst r. unfold parseMarkedLeaf. rewrite Hres. cbv zeta.
    unfold truthy_idValue, truthy_value. rewrite Hstale, Hreq.
    unfold IdReplacements.set. simpl. by rewrite Hproto. }
  rewrite Hr. simpl. split; [done|]. split; [|split].
  - split; [apply lookup_insert_eq|].
    intros key v Hv. destruct (decide (stale = key)) as [<- | Hne].
    + rewrite lookup_insert_eq in Hv. simplify_eq. by exists k.
    + rewrite lookup_insert_ne in Hv by done. by apply (Hgen key).
  - intros node hist' repl' k' Hrm.
    apply parse_remapped; [done | done | apply Htruthy | done].
  - intros type1 attrs1 text1 marks1 hist' repl' k' Hraw' Hs.
    by apply (later_leaf uuid stale fresh (Htruthy k)).
Qed.

(** A segment split into three paragraphs: the second and the third fragment
    still carry the identifier [a], and each gets an identifier of its
    own. *)
Lemma later_fragments_differ :
  exists structure,
    snd (parseEditorContent sampleUuid
           (docNode [ paragraph [markedText "a" "x"];
                      paragraph [markedText "a" "y"];
                      paragraph [markedText "a" "z"] ]))
    = Some structure
    /\ omap textSegmentId (nodes structure)
       = [IdString "a"; IdString "uuid-0"; IdString "uuid-1"]
    /\ ~ (exists fresh, omap textSegmentId (nodes structure)
                        = [IdString "a"; fresh; fresh]).
Proof.
  eexists. split; [reflexivity|]. split; [reflexivity|].
  intros (fresh & Heq). vm_compute in Heq. by simplify_eq.
Qed.

Lemma stale_id_remap_witness :
  let marks0 :=
    [Mark.mk TextSegmentMark_name (Some [(TextSegmentMark_idName, AString "a")])] in
  let r :=
    parseMarkedLeaf sampleUuid (Some "text") None (js "y") marks0
      [IdString "a"; IdString "break"] ∅ 0 in
  let fresh := sampleUuid 0 in
  textSegments r = [Translatable.mk (IdString fresh) (js "y")]
  /\ remapped sampleUuid "a" fresh (idReplacements r)
  /\ (forall node hist' repl' k',
         remapped sampleUuid "a" fresh repl' ->
         remapped sampleUuid "a" fresh
           (idReplacements (parseEditorContentInternal sampleUuid node hist' repl' k')))
  /\ (forall type1 attrs1 text1 marks1 hist' repl' k',
         getTextSegmentIdFromMarks marks1 = Some "a" ->
         repl' !! "a" = Some fresh ->
         getTextSegmentIdFromMarksWithReplacement marks1 repl' = Some (IdString fresh)
         /\ textSegments
              (parseMarkedLeaf sampleUuid type1 attrs1 text1 marks1 hist' repl' k')
            = [ Translatable.mk
                  (IdString
                     (if bool_decide (IdString fresh ∉ hist'
                                      \/ last hist' = Some (IdString fresh))
                      then fresh else sampleUuid k'))
                  text1 ]).
Proof.
  intros marks0.
  apply (stale_id_remap sampleUuid "a" (Some "text") None (js "y") marks0
           [IdString "a"; IdString "break"] ∅ 0).
  - intros j. unfold sampleUuid. simpl. discriminate.
  - intros j. reflexivity.
  - intros key v Hv. by rewrite lookup_empty in Hv.
  - apply (bool_decide_unpack ("a" ∉ prototypeNames)). vm_compute. reflexivity.
  - apply (bool_decide_unpack ("a" ∉ prototypeKeys)). vm_compute. reflexivity.
  - reflexivity.
  - reflexivity.
  - apply lookup_empty.
  - apply list_elem_of_here.
  - simpl. discriminate.
Defined.

(** ** The skeleton the parser returns *)

Lemma skeleton_node {I : Type} type0 attrs0 (children : list (JSONContentStructure I)) :
  Forall skeleton children ->
  skeleton
    {| type := type0; attrs := attrs0; content := Some children; text := None;
       marks := None; textSegmentId := None |}.
Proof.
  intros Hall. unfold skeleton. simpl. constructor; [done|].
  rewrite Forall_forall. intros n Hn.
  apply elem_of_concat_map in Hn as (child & Hchild & Hn).
  rewrite Forall_forall in Hall. specialize (Hall child Hchild).
  unfold skeleton in Hall. rewrite Forall_forall in Hall. by apply Hall.
Qed.

Lemma removeDuplicateTextNodes_elem (l : list ParsedStructure) (x : ParsedStructure) :
  x ∈ removeDuplicateTextNodes l -> x ∈ l.
Proof.
  unfold removeDuplicateTextNodes.
  assert (Hgen : forall acc lastId,
             x ∈ fst
                   (fold_left
                      (fun '(newContent, lastId) node =>
                         (if negb (truthy_idValue (textSegmentId node))
                             || negb (bool_decide (lastId = textSegmentId node))
                          then newContent ++ [node] else newContent,
                          textSegmentId node))
                      l (acc, lastId)) ->
             x ∈ acc \/ x ∈ l).
  { induction l as [|node l IH]; intros acc lastId Hx; simpl in *; [by left|].
    apply IH in Hx as [Hx | Hx].
    - destruct (negb _ || negb _).
      + apply elem_of_app in Hx as [Hx | Hx]; [by left|].
        apply list_elem_of_singleton in Hx as ->. right. apply list_elem_of_here.
      + by left.
    - right. by apply list_elem_of_further. }
  intros Hx. apply Hgen in Hx as [Hx | Hx]; [|done]. by apply elem_of_nil in Hx.
Qed.

(** Whatever the document, the structures the parser returns are skeletons,
    which is what the builder expects. *)
Lemma parse_skeleton (uuid : nat -> string) (node : JSONContent)
    (hist : list IdValue) (repl : IdReplacements.t) (k : nat) :
  Forall skeleton (structures (parseEditorContentInternal uuid node hist repl k)).
Proof.
  revert hist repl k.
  induction node as [type0 attrs0 content0 text0 marks0 id0 IH]
    using JSONContent_tree_ind.
  intros hist repl k. simpl.
  destruct text0 as [text1|].
  - destruct marks0 as [marks1|].
    + unfold parseMarkedLeaf. cbv zeta.
      destruct (getTextSegmentIdFromMarksWithReplacement marks1 repl) as [id1|];
        [destruct (negb _ || _)|]; simpl; repeat constructor.
    + unfold parseRawText.
      assert (Hfold : forall pieces r,
                 Forall skeleton (structures r) ->
                 Forall skeleton
                   (structures (fold_left (parseRawPiece uuid type0 attrs0) pieces r))).
      { induction pieces as [|str pieces IHp]; intros r Hr; [done|].
        simpl. apply IHp. unfold parseRawPiece.
        destruct (stringContainsOnlyWhitespace str); simpl;
          (apply Forall_app; split; [done | repeat constructor]). }
      apply Hfold. constructor.
  - destruct content0 as [children|].
    + simpl. constructor; [|constructor]. apply skeleton_node.
      rewrite Forall_forall. intros x Hx. apply removeDuplicateTextNodes_elem in Hx.
      revert x Hx. apply Forall_forall.
      assert (Hloop : forall r,
                 Forall skeleton (structures r) ->
                 Forall skeleton
                   (structures
                      (forEachChild (parseEditorContentInternal uuid) hist children r))).
      { induction children as [|child children IHc]; intros r Hr; [done|].
        apply Forall_cons in IH as [Hchild IH]. simpl.
        apply IHc; [done|]. simpl. apply Forall_app. split; [done | apply Hchild]. }
      apply Hloop. constructor.
    + simpl. constructor; [|constructor].
      unfold skeleton. simpl. constructor; [|constructor].
      unfold one_role. simpl. by destruct id0.
Qed.

(** ** What splitting keeps of a text *)

(** The text without its pipes. *)
Definition withoutPipes (s : jstring) : jstring :=
  List.filter (fun c => negb (c =? pipe)%N) s.

Lemma withoutPipes_app (s1 s2 : jstring) :
  withoutPipes (s1 ++ s2) = withoutPipes s1 ++ withoutPipes s2.
Proof. unfold withoutPipes. apply List.filter_app. Qed.

Lemma span_le (p : N -> bool) (s : jstring) : span p s <= length s.
Proof. induction s as [|c s IH]; simpl; [lia|]. destruct (p c); simpl; lia. Qed.

(** A match cuts a prefix of the text into the captured groups. *)
Lemma matchGroups_cut (groups : list Group) (s : jstring)
    (captures : list jstring) (rest : jstring) :
  matchGroups groups s = Some (captures, rest) ->
  concat captures ++ rest = s
  /\ Forall2 (fun g capture => atLeast g <= length capture) groups captures.
Proof.
  revert s captures rest.
  induction groups as [|g groups IH]; intros s captures rest; simpl.
  - intros [= <- <-]. split; [done | constructor].
  - pose proof (span_le (class g) s) as Hspan. revert Hspan.
    generalize (span (class g) s). intros k.
    induction k as [|k IHk]; intros Hk.
    + destruct (Nat.leb_spec (atLeast g) 0) as [Hle | Hgt]; [|done].
      destruct (matchGroups groups (drop 0 s)) as [[captures' rest']|] eqn:Hm; [|done].
      intros [= <- <-]. apply IH in Hm as [Hcut Hall]. rewrite drop_0 in Hcut.
      simpl. split; [done|]. constructor; [simpl; lia | done].
    + destruct (Nat.leb_spec (atLeast g) (S k)) as [Hle | Hgt]; [|apply IHk; lia].
      destruct (matchGroups groups (drop (S k) s)) as [[captures' rest']|] eqn:Hm;
        [|apply IHk; lia].
      intros [= <- <-]. apply IH in Hm as [Hcut Hall].
      split.
      * simpl. rewrite <- app_assoc, Hcut. apply take_drop.
      * constructor; [|done]. rewrite length_take. lia.
Qed.

Lemma replaceAll_withoutPipes (s : jstring) (skip : nat) :
  withoutPipes (replaceAll sentenceEnd markSentenceEnd s skip)
  = withoutPipes (drop skip s).
Proof.
  revert skip. induction s as [|c s IH]; intros skip; [by destruct skip|].
  destruct skip as [|skip]; [|apply IH].
  cbn [replaceAll]. rewrite drop_0.
  destruct (matchGroups sentenceEnd (c :: s)) as [[captures rest]|] eqn:Hm.
  - apply matchGroups_cut in Hm as [Hcut Hall].
    unfold sentenceEnd in Hall.
    apply Forall2_cons_inv_l in Hall as (g1 & cs1 & Hg1 & Hall & ->).
    apply Forall2_cons_inv_l in Hall as (g2 & cs2 & _ & Hall & ->).
    apply Forall2_cons_inv_l in Hall as (g3 & cs3 & _ & Hall & ->).
    apply Forall2_cons_inv_l in Hall as (g4 & cs4 & _ & Hall & ->).
    apply Forall2_nil_inv_l in Hall as ->.
    simpl in Hg1, Hcut. rewrite app_nil_r in Hcut.
    rewrite withoutPipes_app, IH.
    replace (drop (length (c :: s) - length rest - 1) s) with rest.
    + rewrite <- Hcut. unfold markSentenceEnd.
      rewrite !withoutPipes_app. simpl. by rewrite !app_nil_r, <- !app_assoc.
    + assert (Hlen : length (c :: s) = length (g1 ++ g2 ++ g3 ++ g4) + length rest).
      { rewrite <- Hcut. rewrite !length_app. lia. }
      rewrite Hlen.
      replace (length (g1 ++ g2 ++ g3 ++ g4) + length rest - length rest - 1)
        with (length (g1 ++ g2 ++ g3 ++ g4) - 1) by lia.
      change s with (drop 1 (c :: s)). rewrite drop_drop.
      replace (1 + (length (g1 ++ g2 ++ g3 ++ g4) - 1))
        with (length (g1 ++ g2 ++ g3 ++ g4))
        by (rewrite length_app; lia).
      rewrite <- Hcut. rewrite <- !app_assoc.
      replace (g1 ++ g2 ++ g3 ++ g4 ++ rest) with ((g1 ++ g2 ++ g3 ++ g4) ++ rest)
        by (by rewrite <- !app_assoc).
      by rewrite drop_app_length.
  - simpl. destruct (c =? pipe)%N; simpl; by rewrite IH, drop_0.
Qed.

Lemma split_withoutPipes (s : jstring) :
  concat (List.filter (fun piece => (0 <? length piece)%nat) (split pipe s))
  = withoutPipes s.
Proof.
  assert (Hconcat : forall l : list jstring,
             concat (List.filter (fun piece => (0 <? length piece)%nat) l) = concat l).
  { induction l as [|piece l IH]; [done|]. simpl.
    destruct piece; simpl; by rewrite IH. }
  rewrite Hconcat.
  induction s as [|c s IH]; [done|]. simpl.
  destruct (c =? pipe)%N; simpl; [done|].
  destruct (split pipe s) as [|piece pieces]; simpl in *.
  - by rewrite <- IH.
  - by rewrite <- IH.
Qed.

(** X2.  The pieces of [splitStringIntoSentencesAndWhitespace] spell the text
    without its pipes: a text that has none is kept, and every pipe of a
    text is lost. *)
Lemma split_drops_pipes (str : jstring) :
  concat (splitStringIntoSentencesAndWhitespace str) = withoutPipes str.
Proof.
  unfold splitStringIntoSentencesAndWhitespace. cbv zeta.
  by rewrite split_withoutPipes, replaceAll_withoutPipes, drop_0.
Qed.

(** ** The unit tests of [parseEditorContent] *)

(** The expected values are of the declared types. *)
Definition expected (segments : list Translatable.t) (structure : JSONContent)
    : list ParsedSegment * option ParsedStructure :=
  (map segmentAtRunTime segments, Some (atRunTime structure)).

(** "Handles multiple sentences in one node" *)
Example parse_multiple_sentences :
  parseEditorContent sampleUuid (docNode [paragraph [rawText "Sentence 1. Sentence 2."]])
  = expected
      [ Translatable.mk "uuid-0" (js "Sentence 1.");
        Translatable.mk "uuid-1" (js "Sentence 2.") ]
      (docNode [paragraph [ segmentLeaf (Some "text") None "uuid-0";
                            textLeaf (Some "text") None (js " ");
                            segmentLeaf (Some "text") None "uuid-1" ]]).
Proof. reflexivity. Qed.

(** "Handles existing text segments" *)
Example parse_existing_segments :
  parseEditorContent sampleUuid
    (docNode [paragraph [ markedText "49c9f4eb-5801-4c01-a99d-af5c1c8d19da" "Sentence 1.";
                          rawText " ";
                          markedText "77a14b95-89ed-420f-9927-c22e0e4407b6" "Sentence 2." ]])
  = expected
      [ Translatable.mk "49c9f4eb-5801-4c01-a99d-af5c1c8d19da" (js "Sentence 1.");
        Translatable.mk "77a14b95-89ed-420f-9927-c22e0e4407b6" (js "Sentence 2.") ]
      (docNode
         [paragraph
            [ segmentLeaf (Some "text") None "49c9f4eb-5801-4c01-a99d-af5c1c8d19da";
              textLeaf (Some "text") None (js " ");
              segmentLeaf (Some "text") None "77a14b95-89ed-420f-9927-c22e0e4407b6" ]]).
Proof. reflexivity. Qed.

(** "Handles dissected text segments": the middle leaf also carries a
    suggestion mark. *)
Example parse_dissected_segment :
  let id := "49c9f4eb-5801-4c01-a99d-af5c1c8d19da" in
  let suggested :=
    {| type := Some "text"; attrs := None; content := None; text := Some (js "can");
       marks :=
         Some [ Mark.mk TextSegmentMark_name (Some [(TextSegmentMark_idName, AString id)]);
                Mark.mk SuggestionMark_name
                  (Some [ ("suggestionId", AString "-1");
                          (TextSegmentMark_idName, AString id) ]) ];
       textSegmentId := None |} in
  parseEditorContent sampleUuid
    (docNode [paragraph [markedText id "This "; suggested; markedText id " happen."]])
  = expected
      [Translatable.mk id (js "This can happen.")]
      (docNode [paragraph [segmentLeaf (Some "text") None id]]).
Proof. reflexivity. Qed.

(** "Handles an empty document" *)
Example parse_empty_document :
  let T :=
    docNode [ {| type := Some "paragraph"; attrs := None; content := None;
                 text := None; marks := None; textSegmentId := None |} ] in
  parseEditorContent sampleUuid T = expected [] T.
Proof. reflexivity. Qed.

(** Identifiers that are names of members of [Object.prototype]: the leaf
    marked [__proto__] is emitted with the object [Object.prototype] in the
    place of its identifier.  When that object is stale (fourth paragraph),
    its replacement is stored under the key the object is converted to,
    [[object Object]], where it overwrites the replacement of a segment that
    has this text as its identifier; the last leaf is then read as a
    fragment of the leaf before it. *)
Example parse_prototype_member :
  parseEditorContent sampleUuid
    (docNode [ paragraph [markedText "__proto__" "v"];
               paragraph [markedText "[object Object]" "w"];
               paragraph [markedText "[object Object]" "x"];
               paragraph [markedText "__proto__" "y";
                          markedText "[object Object]" "z"] ])
  = ( [ Translatable.mk ObjectPrototype (js "v");
        Translatable.mk (IdString "[object Object]") (js "w");
        Translatable.mk (IdString "uuid-0") (js "x");
        Translatable.mk (IdString "uuid-1") (js "yz") ],
      Some (docNode
              [ paragraph [segmentLeaf (Some "text") None ObjectPrototype];
                paragraph [segmentLeaf (Some "text") None (IdString "[object Object]")];
                paragraph [segmentLeaf (Some "text") None (IdString "uuid-0")];
                paragraph [segmentLeaf (Some "text") None (IdString "uuid-1")] ]) ).
Proof. reflexivity. Qed.

(** ** The history manager: undo and redo *)

Lemma posMod_succ (x m : Z) :
  (0 <= x < m)%Z ->
  posMod (x + 1) m = (if (x + 1 =? m)%Z then 0 else x + 1)%Z.
Proof.
  intros Hx. destruct (Z.eqb_spec (x + 1) m) as [-> | Hne].
  - apply posMod_same. lia.
  - apply posMod_small. lia.
Qed.

Lemma posMod_pred (x m : Z) :
  (0 <= x < m)%Z ->
  posMod (x - 1) m = (if (x =? 0)%Z then m - 1 else x - 1)%Z.
Proof.
  intros Hx. destruct (Z.eqb_spec x 0) as [-> | Hne].
  - unfold posMod. cbv zeta. change (0 - 1)%Z with (-1)%Z.
    destruct (Z.eq_dec m 1%Z) as [-> | Hm]; [done|].
    assert (Hrem : Z.rem (-1) m = (-1)%Z).
    { change (-1)%Z with (- (1))%Z. rewrite Z.rem_opp_l by lia.
      rewrite Z.rem_small by lia. done. }
    rewrite Hrem. simpl. lia.
  - apply posMod_small. lia.
Qed.

Module HistoryLaws.
Import HistoryManager.
Section WithSnapshots.
Context {A : Type} `{JsValue A}.
Local Open Scope Z_scope.

(** How far an index lies behind [start] on the ring. *)
Definition offset (h : t A) (x : Z) : Z :=
  if start h <=? x then x - start h else x - start h + maxLength h.

(** What holds of every manager that was built with a positive capacity:
    the position lies between [start] and [end] on the ring, the array has
    no hole, and as long as it is not full it is used from index 0. *)
Record ring (h : t A) : Prop := {
  ring_positive : 0 < maxLength h;
  ring_bounded : bounded h;
  ring_between : offset h (pos h) <= offset h (end_ h);
  ring_no_hole : Forall is_Some (states h);
  ring_empty : states h = [] -> pos h = 0 /\ start h = 0 /\ end_ h = 0;
  ring_partial :
    Z.of_nat (length (states h)) < maxLength h ->
    start h = 0 /\ (states h <> [] -> end_ h < Z.of_nat (length (states h)))
}.

Lemma ring_new (N : Z) (dc : bool) : 0 < N -> ring (new N dc).
Proof.
  intros HN. split; simpl; try done.
  - unfold bounded; simpl. lia.
Qed.

Lemma ring_clear (h : t A) : 0 < maxLength h -> ring (clear h).
Proof.
  intros HN. split; simpl; try done.
  - unfold bounded; simpl. lia.
Qed.

Lemma ring_pos_lt (h : t A) :
  ring h -> states h <> [] -> 0 <= pos h < Z.of_nat (length (states h)).
Proof.
  intros [HN (Hp & Hs & He & Hl) Hbt _ _ Hpart] Hne.
  destruct (Z.lt_ge_cases (Z.of_nat (length (states h))) (maxLength h)) as [Hlt | Hge].
  - destruct (Hpart Hlt) as [Hs0 Hend]. specialize (Hend Hne).
    unfold offset in Hbt. rewrite Hs0 in Hbt.
    destruct (Z.leb_spec 0 (pos h)), (Z.leb_spec 0 (end_ h)); lia.
  - lia.
Qed.

Lemma array_get_set_same (arr : list (option A)) (i : Z) (x : A) :
  0 <= i -> array_get (array_set arr i x) i = Some x.
Proof.
  intros Hi. unfold array_get, array_set.
  destruct (Z.ltb_spec i 0) as [? | _]; [lia|]. cbv zeta.
  destruct (Nat.ltb_spec (Z.to_nat i) (length arr)) as [Hlt | Hge].
  - by rewrite list_lookup_insert_eq.
  - rewrite lookup_app_r by lia. rewrite lookup_app_r; rewrite length_replicate; [|lia].
    replace (Z.to_nat i - length arr - (Z.to_nat i - length arr))%nat with 0%nat by lia.
    done.
Qed.

Lemma array_get_set_other (arr : list (option A)) (i j : Z) (x : A) :
  0 <= i -> i <> j -> array_get (array_set arr i x) j = array_get arr j.
Proof.
  intros Hi Hne. unfold array_get, array_set.
  destruct (Z.ltb_spec j 0) as [? | Hj]; [done|].
  destruct (Z.ltb_spec i 0) as [? | _]; [lia|]. cbv zeta.
  assert (Hn : Z.to_nat i <> Z.to_nat j) by lia.
  destruct (Nat.ltb_spec (Z.to_nat i) (length arr)) as [Hlt | Hge].
  - by rewrite list_lookup_insert_ne.
  - destruct (Nat.lt_ge_cases (Z.to_nat j) (length arr)) as [Hjl | Hjg].
    + by rewrite lookup_app_l.
    + rewrite lookup_app_r by done.
      rewrite (lookup_ge_None_2 arr) by done. simpl.
      destruct (Nat.lt_ge_cases (Z.to_nat j - length arr) (Z.to_nat i - length arr))
        as [Hin | Hout].
      * rewrite lookup_app_l by (by rewrite length_replicate).
        by rewrite lookup_replicate_2.
      * rewrite lookup_app_r by (by rewrite length_replicate).
        rewrite length_replicate.
        destruct (Z.to_nat j - length arr - (Z.to_nat i - length arr))%nat eqn:Hd; [lia|].
        done.
Qed.

Lemma no_hole_array_set (arr : list (option A)) (i : Z) (x : A) :
  0 <= i <= Z.of_nat (length arr) ->
  Forall is_Some arr -> Forall is_Some (array_set arr i x).
Proof.
  intros Hi Hall. unfold array_set.
  destruct (Z.ltb_spec i 0) as [? | _]; [lia|]. cbv zeta.
  destruct (Nat.ltb_spec (Z.to_nat i) (length arr)) as [Hlt | Hge].
  - apply Forall_insert; [done | by eexists].
  - replace (Z.to_nat i - length arr)%nat with 0%nat by lia. simpl.
    apply Forall_app. split; [done|]. constructor; [by eexists | constructor].
Qed.

(** What a successful [addToHistory] leaves. *)
Lemma addToHistory_true (s : A) (h : t A) :
  fst (addToHistory s h) = Return true ->
  snd (addToHistory s h)
  = let pos' := if (length (states h) =? 0)%nat then pos h
                else posMod (pos h + 1) (maxLength h) in
    {| maxLength := maxLength h; pos := pos';
       start := if (length (states h) =? 0)%nat then start h
                else if start h =? pos' then posMod (pos' + 1) (maxLength h)
                     else start h;
       end_ := if (length (states h) =? 0)%nat then end_ h else pos';
       states := array_set (states h) pos'
                   (if deepCopy h then getDeepCopyOfObject s else s);
       deepCopy := deepCopy h; lastReturnedState := lastReturnedState h |}.
Proof.
  unfold addToHistory. destruct (getState h) as [cur|]; [|done].
  destruct (isCurrentState cur s); [done|]. intros _.
  by destruct (length (states h) =? 0)%nat.
Qed.

Lemma addToHistory_unchanged (s : A) (h : t A) :
  fst (addToHistory s h) <> Return true -> snd (addToHistory s h) = h.
Proof.
  unfold addToHistory. destruct (getState h) as [cur|]; [|done].
  destruct (isCurrentState cur s); [done|].
  by destruct (negb _).
Qed.

Lemma ring_addToHistory (s : A) (h : t A) :
  ring h -> ring (snd (addToHistory s h)).
Proof.
  intros Hr.
  destruct (fst (addToHistory s h)) as [[|]|] eqn:Hadd;
    [|by rewrite addToHistory_unchanged by congruence..].
  pose proof (HistoryFacts.bounded_after (AddToHistory s) h
                (ring_positive h Hr) (ring_bounded h Hr)) as Hb'.
  simpl in Hb'.
  rewrite (addToHistory_true s h Hadd) in Hb' |- *. cbv zeta in Hb' |- *.
  destruct Hr as [HN Hb Hbt Hall Hemp Hpart].
  pose proof Hb as (Hp & Hs & He & Hl).
  destruct (Nat.eqb_spec (length (states h)) 0) as [Hz | Hnz].
  - (* the first state *)
    apply length_zero_iff_nil in Hz. destruct (Hemp Hz) as (Hp0 & Hs0 & He0).
    rewrite Hz in *. rewrite Hp0, Hs0, He0 in *.
    split; simpl; try done.
    + constructor; [by eexists | constructor].
  - assert (Hne : states h <> []) by (intros Heq; by rewrite Heq in Hnz).
    pose proof (ring_pos_lt h (Build_ring h HN Hb Hbt Hall Hemp Hpart) Hne) as Hpl.
    rewrite posMod_succ in Hb' |- * by done.
    set (pos' := if pos h + 1 =? maxLength h then 0 else pos h + 1) in *.
    assert (Hpos' : 0 <= pos' <= Z.of_nat (length (states h))).
    { subst pos'. destruct (Z.eqb_spec (pos h + 1) (maxLength h)); lia. }
    split; simpl; try done.
    + by apply no_hole_array_set.
    + intros Heq. apply (f_equal length) in Heq.
      rewrite HistoryFacts.length_array_set in Heq by lia. simpl in Heq. lia.
    + rewrite HistoryFacts.length_array_set by lia. intros Hlen.
      assert (Hlt : Z.of_nat (length (states h)) < maxLength h) by lia.
      destruct (Hpart Hlt) as [Hs0 Hend]. specialize (Hend Hne).
      assert (Hp' : pos' = pos h + 1).
      { subst pos'. destruct (Z.eqb_spec (pos h + 1) (maxLength h)); lia. }
      destruct (Z.eqb_spec (start h) pos') as [? | _]; [lia|].
      split; [done|]. intros _. lia.
Qed.

Lemma goBack_true (h : t A) :
  fst (goBack h) = true ->
  pos h <> start h /\ states h <> []
  /\ snd (goBack h)
     = {| maxLength := maxLength h; pos := posMod (pos h - 1) (maxLength h);
          start := start h; end_ := end_ h; states := states h;
          deepCopy := deepCopy h; lastReturnedState := lastReturnedState h |}.
Proof.
  unfold goBack, canGoBack.
  destruct (Z.eqb_spec (pos h) (start h)) as [? | Hne]; [done|].
  destruct (Nat.eqb_spec (length (states h)) 0) as [? | Hl]; [done|].
  simpl. intros _. repeat split; [done|].
  intros Heq. by rewrite Heq in Hl.
Qed.

Lemma goForward_true (h : t A) :
  fst (goForward h) = true ->
  pos h <> end_ h /\ states h <> []
  /\ snd (goForward h)
     = {| maxLength := maxLength h; pos := posMod (pos h + 1) (maxLength h);
          start := start h; end_ := end_ h; states := states h;
          deepCopy := deepCopy h; lastReturnedState := lastReturnedState h |}.
Proof.
  unfold goForward, canGoForward.
  destruct (Z.eqb_spec (pos h) (end_ h)) as [? | Hne]; [done|].
  destruct (Nat.eqb_spec (length (states h)) 0) as [? | Hl]; [done|].
  simpl. intros _. repeat split; [done|].
  intros Heq. by rewrite Heq in Hl.
Qed.

Lemma goBack_false (h : t A) : fst (goBack h) = false -> snd (goBack h) = h.
Proof. unfold goBack. by destruct (negb _). Qed.

Lemma goForward_false (h : t A) : fst (goForward h) = false -> snd (goForward h) = h.
Proof. unfold goForward. by destruct (negb _). Qed.

Lemma offset_goBack (h : t A) :
  0 < maxLength h -> bounded h -> fst (goBack h) = true ->
  offset (snd (goBack h)) (pos (snd (goBack h))) = offset h (pos h) - 1
  /\ offset (snd (goBack h)) (end_ (snd (goBack h))) = offset h (end_ h).
Proof.
  intros HN (Hp & Hs & He & Hl) Hgo.
  destruct (goBack_true h Hgo) as (Hne & _ & ->).
  unfold offset; simpl. rewrite posMod_pred by done.
  split; [|done].
  destruct (Z.eqb_spec (pos h) 0), (Z.leb_spec (start h) (pos h)),
    (Z.leb_spec (start h) (maxLength h - 1)), (Z.leb_spec (start h) (pos h - 1)); lia.
Qed.

Lemma ring_goBack (h : t A) : ring h -> ring (snd (goBack h)).
Proof.
  intros Hr. destruct (fst (goBack h)) eqn:Hgo; [|by rewrite goBack_false].
  pose proof (offset_goBack h (ring_positive h Hr) (ring_bounded h Hr) Hgo) as [Ho1 Ho2].
  pose proof (HistoryFacts.bounded_after GoBack h
                (ring_positive h Hr) (ring_bounded h Hr)) as Hb'.
  simpl in Hb'.
  destruct Hr as [HN Hb Hbt Hall Hemp Hpart].
  destruct (goBack_true h Hgo) as (Hne & Hst & Heq).
  split.
  - by rewrite Heq.
  - done.
  - rewrite Ho1, Ho2. lia.
  - by rewrite Heq.
  - rewrite Heq. simpl. done.
  - rewrite Heq. simpl. done.
Qed.

Lemma offset_goForward (h : t A) :
  0 < maxLength h -> bounded h -> fst (goForward h) = true ->
  offset h (pos h) <= offset h (end_ h) ->
  offset (snd (goForward h)) (pos (snd (goForward h))) = offset h (pos h) + 1
  /\ offset (snd (goForward h)) (end_ (snd (goForward h))) = offset h (end_ h)
  /\ offset h (pos h) < offset h (end_ h).
Proof.
  intros HN (Hp & Hs & He & Hl) Hgo Hbt.
  destruct (goForward_true h Hgo) as (Hne & _ & ->).
  unfold offset in *; simpl. rewrite posMod_succ by done.
  destruct (Z.eqb_spec (pos h + 1) (maxLength h)), (Z.leb_spec (start h) (pos h)),
    (Z.leb_spec (start h) 0), (Z.leb_spec (start h) (pos h + 1)),
    (Z.leb_spec (start h) (end_ h)); lia.
Qed.

Lemma ring_goForward (h : t A) : ring h -> ring (snd (goForward h)).
Proof.
  intros Hr. destruct (fst (goForward h)) eqn:Hgo; [|by rewrite goForward_false].
  pose proof (offset_goForward h (ring_positive h Hr) (ring_bounded h Hr) Hgo
                (ring_between h Hr)) as (Ho1 & Ho2 & Ho3).
  pose proof (HistoryFacts.bounded_after GoForward h
                (ring_positive h Hr) (ring_bounded h Hr)) as Hb'.
  simpl in Hb'.
  destruct Hr as [HN Hb Hbt Hall Hemp Hpart].
  destruct (goForward_true h Hgo) as (Hne & Hst & Heq).
  split.
  - by rewrite Heq.
  - done.
  - rewrite Ho1, Ho2. lia.
  - by rewrite Heq.
  - rewrite Heq. simpl. done.
  - rewrite Heq. simpl. done.
Qed.

Lemma ring_after (c : call A) (h : t A) : ring h -> ring (after c h).
Proof.
  intros Hr. destruct c; simpl; try done.
  - by apply ring_addToHistory.
  - by apply ring_goBack.
  - by apply ring_goForward.
  - apply ring_clear. apply Hr.
Qed.

Lemma ring_run (cs : list (call A)) (N : Z) (dc : bool) :
  0 < N -> ring (run cs (new N dc)).
Proof.
  intros HN. induction cs as [|c cs IH] using rev_ind.
  - by apply ring_new.
  - rewrite HistoryFacts.run_snoc. by apply ring_after.
Qed.

Lemma getState_ring (h : t A) :
  ring h ->
  match getState h with
  | Return Null => states h = []
  | Return (Value v) =>
      states h <> []
      /\ exists x, array_get (states h) (pos h) = Some x
                   /\ v = if deepCopy h then getDeepCopyOfObject x else x
  | _ => False
  end.
Proof.
  intros Hr. unfold getState.
  destruct (Nat.eqb_spec (length (states h)) 0) as [Hz | Hnz].
  - by apply length_zero_iff_nil.
  - assert (Hne : states h <> []) by (intros Heq; by rewrite Heq in Hnz).
    pose proof (ring_pos_lt h Hr Hne) as Hpl.
    unfold array_get. destruct (Z.ltb_spec (pos h) 0) as [? | _]; [lia|].
    destruct (states h !! Z.to_nat (pos h)) as [e|] eqn:He.
    + pose proof (ring_no_hole h Hr) as Hall. rewrite Forall_forall in Hall.
      destruct (Hall e) as [x ->]; [apply list_elem_of_lookup; eauto|].
      simpl. split; [done|]. by exists x.
    + apply lookup_ge_None in He. lia.
Qed.

End WithSnapshots.
End HistoryLaws.

(** X3.  After any calls on a manager of positive capacity, [getState] neither
    throws nor returns [undefined]: it returns [null] when the history is
    empty and a stored state otherwise. *)
Theorem getState_never_fails {A : Type} `{JsValue A}
    (maxLength : Z) (deepCopy : bool) (calls : list (HistoryManager.call A)) :
  (0 < maxLength)%Z ->
  let h := HistoryManager.run calls (HistoryManager.new maxLength deepCopy) in
  (HistoryManager.states h = [] /\ HistoryManager.getState h = Return HistoryManager.Null)
  \/ (HistoryManager.states h <> []
      /\ exists v, HistoryManager.getState h = Return (HistoryManager.Value v)).
Proof.
  intros HN h.
  pose proof (HistoryLaws.getState_ring h (HistoryLaws.ring_run calls maxLength deepCopy HN))
    as Hg.
  destruct (HistoryManager.getState h) as [[| |v]|]; try done.
  - by left.
  - right. destruct Hg as [Hne _]. split; [done|]. by exists v.
Qed.

Lemma getState_never_fails_witness :
  let h :=
    HistoryManager.run
      [HistoryManager.AddToHistory 1%Z; HistoryManager.AddToHistory 2%Z;
       HistoryManager.GoBack; HistoryManager.AddToHistory 3%Z;
       HistoryManager.AddToHistory 4%Z; HistoryManager.AddToHistory 5%Z;
       HistoryManager.GoBack; HistoryManager.GoBack; HistoryManager.GoForward]
      (HistoryManager.new 3%Z true) in
  (HistoryManager.states h = [] /\ HistoryManager.getState h = Return HistoryManager.Null)
  \/ (HistoryManager.states h <> []
      /\ exists v, HistoryManager.getState h = Return (HistoryManager.Value v)).
Proof. apply (getState_never_fails 3%Z true); lia. Defined.

(** X4.  Undo then redo: when [goBack] succeeds, the [goForward] that follows
    succeeds too and the manager is what it was. *)
Theorem goForward_undoes_goBack {A : Type} `{JsValue A}
    (maxLength : Z) (deepCopy : bool) (calls : list (HistoryManager.call A)) :
  (0 < maxLength)%Z ->
  let h := HistoryManager.run calls (HistoryManager.new maxLength deepCopy) in
  fst (HistoryManager.goBack h) = true ->
  HistoryManager.goForward (snd (HistoryManager.goBack h)) = (true, h).
Proof.
  intros HN h Hgo.
  pose proof (HistoryLaws.ring_run calls maxLength deepCopy HN) as Hr. fold h in Hr.
  pose proof (HistoryLaws.offset_goBack h (HistoryLaws.ring_positive h Hr)
                (HistoryLaws.ring_bounded h Hr) Hgo) as [Ho1 Ho2].
  destruct (HistoryLaws.goBack_true h Hgo) as (Hne & Hst & Heq).
  pose proof (HistoryLaws.ring_between h Hr) as Hbt.
  pose proof (HistoryLaws.ring_bounded h Hr) as (Hp & Hs & He & Hl).
  pose proof (HistoryLaws.ring_positive h Hr) as Hpos.
  rewrite Heq in Ho1, Ho2 |- *. simpl in Ho1, Ho2.
  unfold HistoryManager.goForward, HistoryManager.canGoForward. simpl.
  destruct (Z.eqb_spec (posMod (HistoryManager.pos h - 1) (HistoryManager.maxLength h))
              (HistoryManager.end_ h)) as [Hend | _].
  { rewrite Hend in Ho1. unfold HistoryLaws.offset in Ho1, Ho2, Hbt. simpl in *. lia. }
  destruct (Nat.eqb_spec (length (HistoryManager.states h)) 0) as [Hz | _].
  { apply length_zero_iff_nil in Hz. done. }
  simpl. f_equal. destruct h as [N p s e st dc l]. simpl in *. f_equal.
  rewrite posMod_pred by done.
  destruct (Z.eqb_spec p 0) as [-> | ?].
  - replace (N - 1 + 1)%Z with N by lia. apply posMod_same. lia.
  - replace (p - 1 + 1)%Z with p by lia. apply posMod_small. lia.
Qed.

Lemma goForward_undoes_goBack_witness :
  let h :=
    HistoryManager.run
      [HistoryManager.AddToHistory 1%Z; HistoryManager.AddToHistory 2%Z;
       HistoryManager.AddToHistory 3%Z; HistoryManager.AddToHistory 4%Z]
      (HistoryManager.new 3%Z false) in
  HistoryManager.goForward (snd (HistoryManager.goBack h)) = (true, h).
Proof. apply (goForward_undoes_goBack 3%Z false); [lia | reflexivity]. Defined.

(** X5.  Redo then undo: when [goForward] succeeds, the [goBack] that follows
    succeeds too and the manager is what it was. *)
Theorem goBack_undoes_goForward {A : Type} `{JsValue A}
    (maxLength : Z) (deepCopy : bool) (calls : list (HistoryManager.call A)) :
  (0 < maxLength)%Z ->
  let h := HistoryManager.run calls (HistoryManager.new maxLength deepCopy) in
  fst (HistoryManager.goForward h) = true ->
  HistoryManager.goBack (snd (HistoryManager.goForward h)) = (true, h).
Proof.
  intros HN h Hgo.
  pose proof (HistoryLaws.ring_run calls maxLength deepCopy HN) as Hr. fold h in Hr.
  pose proof (HistoryLaws.offset_goForward h (HistoryLaws.ring_positive h Hr)
                (HistoryLaws.ring_bounded h Hr) Hgo (HistoryLaws.ring_between h Hr))
    as (Ho1 & Ho2 & Ho3).
  destruct (HistoryLaws.goForward_true h Hgo) as (Hne & Hst & Heq).
  pose proof (HistoryLaws.ring_bounded h Hr) as (Hp & Hs & He & Hl).
  pose proof (HistoryLaws.ring_positive h Hr) as Hpos.
  rewrite Heq in Ho1, Ho2 |- *. simpl in Ho1, Ho2.
  unfold HistoryManager.goBack, HistoryManager.canGoBack. simpl.
  destruct (Z.eqb_spec (posMod (HistoryManager.pos h + 1) (HistoryManager.maxLength h))
              (HistoryManager.start h)) as [Hstart | _].
  { rewrite Hstart in Ho1. unfold HistoryLaws.offset in Ho1, Ho2, Ho3. simpl in *.
    destruct (Z.leb_spec (HistoryManager.start h) (HistoryManager.start h)),
      (Z.leb_spec (HistoryManager.start h) (HistoryManager.pos h)); lia. }
  destruct (Nat.eqb_spec (length (HistoryManager.states h)) 0) as [Hz | _].
  { apply length_zero_iff_nil in Hz. done. }
  simpl. f_equal. destruct h as [N p s e st dc l]. simpl in *. f_equal.
  rewrite posMod_succ by done.
  destruct (Z.eqb_spec (p + 1) N) as [? | ?].
  - rewrite posMod_pred by lia. simpl. lia.
  - replace (p + 1 - 1)%Z with p by lia. apply posMod_small. lia.
Qed.

Lemma goBack_undoes_goForward_witness :
  let h :=
    HistoryManager.run
      [HistoryManager.AddToHistory 1%Z; HistoryManager.AddToHistory 2%Z;
       HistoryManager.AddToHistory 3%Z; HistoryManager.AddToHistory 4%Z;
       HistoryManager.GoBack; HistoryManager.GoBack]
      (HistoryManager.new 3%Z false) in
  HistoryManager.goBack (snd (HistoryManager.goForward h)) = (true, h).
Proof. apply (goBack_undoes_goForward 3%Z false); [lia | reflexivity]. Defined.

Module HistoryUndo.
Import HistoryManager.
Section WithSnapshots.
Context {A : Type} `{JsValue A}.
Local Open Scope Z_scope.

Definition back (h : t A) : t A := snd (goBack h).

Lemma canGoBack_goBack (h : t A) : fst (goBack h) = canGoBack h.
Proof. unfold goBack. by destruct (canGoBack h). Qed.

Lemma back_stuck (h : t A) (n : nat) :
  canGoBack h = false -> Nat.iter n back h = h.
Proof.
  intros Hno. induction n as [|n IH]; [done|]. simpl. rewrite IH.
  apply HistoryLaws.goBack_false. by rewrite canGoBack_goBack.
Qed.

Lemma offset_range (h : t A) (x : Z) :
  0 <= start h < maxLength h -> 0 <= x < maxLength h ->
  0 <= HistoryLaws.offset h x < maxLength h.
Proof.
  intros Hs Hx. unfold HistoryLaws.offset.
  destruct (Z.leb_spec (start h) x); lia.
Qed.

Lemma back_exhausts (n : nat) (h : t A) :
  0 < maxLength h -> bounded h ->
  HistoryLaws.offset h (pos h) <= Z.of_nat n ->
  canGoBack (Nat.iter n back h) = false.
Proof.
  revert h. induction n as [|n IH]; intros h HN Hb Hoff.
  - simpl. pose proof Hb as (Hp & Hs & _).
    unfold HistoryLaws.offset in Hoff. unfold canGoBack.
    destruct (Z.leb_spec (start h) (pos h)); [|lia].
    destruct (Z.eqb_spec (pos h) (start h)); [done | lia].
  - rewrite Nat.iter_succ_r.
    destruct (canGoBack h) eqn:Hcan.
    + rewrite <- canGoBack_goBack in Hcan.
      pose proof (HistoryLaws.offset_goBack h HN Hb Hcan) as [Ho _].
      pose proof (HistoryFacts.bounded_after GoBack h HN Hb) as Hb'.
      apply IH.
      * change (maxLength (HistoryManager.after GoBack h)) with
          (maxLength (back h)) in *.
        unfold back. by rewrite (HistoryFacts.maxLength_after GoBack h).
      * done.
      * unfold back. lia.
    + replace (back h) with h.
      * by rewrite back_stuck.
      * symmetry. apply HistoryLaws.goBack_false. by rewrite canGoBack_goBack.
Qed.

End WithSnapshots.
End HistoryUndo.

(** X6.  A manager of capacity [maxLength] allows at most [maxLength - 1] undos
    in a row: after that many calls of [goBack], [canGoBack] is false. *)
Theorem undo_depth_bounded {A : Type} `{JsValue A}
    (maxLength : Z) (deepCopy : bool) (calls : list (HistoryManager.call A))
    (n : nat) :
  (0 < maxLength)%Z -> (maxLength - 1 <= Z.of_nat n)%Z ->
  HistoryManager.canGoBack
    (Nat.iter n (fun h => snd (HistoryManager.goBack h))
       (HistoryManager.run calls (HistoryManager.new maxLength deepCopy)))
  = false.
Proof.
  intros HN Hn.
  pose proof (HistoryLaws.ring_run calls maxLength deepCopy HN) as Hr.
  set (h := HistoryManager.run calls (HistoryManager.new maxLength deepCopy)) in *.
  assert (Hmax : HistoryManager.maxLength h = maxLength)
    by apply HistoryFacts.maxLength_run.
  pose proof (HistoryLaws.ring_bounded h Hr) as Hb.
  pose proof Hb as (Hp & Hs & _).
  apply (HistoryUndo.back_exhausts n h); [lia | done |].
  pose proof (HistoryUndo.offset_range h (HistoryManager.pos h) Hs Hp). lia.
Qed.

Lemma undo_depth_bounded_witness :
  HistoryManager.canGoBack
    (Nat.iter 2 (fun h => snd (HistoryManager.goBack h))
       (HistoryManager.run
          [HistoryManager.AddToHistory 1%Z; HistoryManager.AddToHistory 2%Z;
           HistoryManager.AddToHistory 3%Z; HistoryManager.AddToHistory 4%Z;
           HistoryManager.AddToHistory 5%Z]
          (HistoryManager.new 3%Z false)))
  = false.
Proof. apply (undo_depth_bounded 3%Z false); lia. Defined.

(** X7.  After a call of [addToHistory] that returned true, [getState] returns
    the state that was added (as it prints), and there is nothing to redo. *)
Theorem added_state_is_current {A : Type} `{JsValue A}
    (maxLength : Z) (deepCopy : bool) (calls : list (HistoryManager.call A))
    (state : A) :
  (0 < maxLength)%Z ->
  let h := HistoryManager.run calls (HistoryManager.new maxLength deepCopy) in
  fst (HistoryManager.addToHistory state h) = Return true ->
  let h1 := snd (HistoryManager.addToHistory state h) in
  (exists v,
      HistoryManager.getState h1 = Return (HistoryManager.Value v)
      /\ stringify v = stringify state
      /\ (HistoryManager.deepCopy h = false -> v = state))
  /\ HistoryManager.canGoForward h1 = false.
Proof.
  intros HN h Hadd h1.
  pose proof (HistoryLaws.ring_run calls maxLength deepCopy HN) as Hr. fold h in Hr.
  pose proof (HistoryLaws.ring_bounded h Hr) as (Hp & Hs & He & Hl).
  pose proof (HistoryLaws.ring_positive h Hr) as Hpos.
  pose proof (HistoryLaws.addToHistory_true state h Hadd) as Heq. fold h1 in Heq.
  cbv zeta in Heq.
  set (pos' := if (length (HistoryManager.states h) =? 0)%nat then HistoryManager.pos h
               else posMod (HistoryManager.pos h + 1) (HistoryManager.maxLength h)) in *.
  assert (Hpos' : (0 <= pos')%Z).
  { subst pos'. destruct (length (HistoryManager.states h) =? 0)%nat; [lia|].
    pose proof (posMod_range (HistoryManager.pos h + 1) (HistoryManager.maxLength h) Hpos).
    lia. }
  split.
  - unfold HistoryManager.getState. rewrite Heq. simpl.
    rewrite HistoryFacts.length_array_set by done.
    destruct (Nat.eqb_spec (Nat.max (length (HistoryManager.states h))
                              (Z.to_nat pos' + 1)) 0) as [? | _]; [lia|].
    rewrite HistoryLaws.array_get_set_same by done.
    eexists. split; [done|]. split.
    + destruct (HistoryManager.deepCopy h); by rewrite ?stringify_copy.
    + by intros ->.
  - unfold HistoryManager.canGoForward. rewrite Heq. simpl.
    subst pos'. destruct (Nat.eqb_spec (length (HistoryManager.states h)) 0) as [Hz | _].
    + apply length_zero_iff_nil in Hz.
      destruct (HistoryLaws.ring_empty h Hr Hz) as (-> & _ & ->). done.
    + by rewrite Z.eqb_refl.
Qed.

Lemma added_state_is_current_witness :
  let h :=
    HistoryManager.run
      [HistoryManager.AddToHistory 1%Z; HistoryManager.AddToHistory 2%Z;
       HistoryManager.AddToHistory 3%Z; HistoryManager.GoBack]
      (HistoryManager.new 3%Z false) in
  let h1 := snd (HistoryManager.addToHistory 7%Z h) in
  (exists v,
      HistoryManager.getState h1 = Return (HistoryManager.Value v)
      /\ stringify v = stringify 7%Z
      /\ (HistoryManager.deepCopy h = false -> v = 7%Z))
  /\ HistoryManager.canGoForward h1 = false.
Proof. apply (added_state_is_current 3%Z false); [lia | reflexivity]. Defined.

(** X8.  Undo after a change: when a state was added to a non-empty history of
    capacity at least 2, [goBack] succeeds and [getState] returns what it
    returned before the state was added. *)
Theorem goBack_after_add_restores {A : Type} `{JsValue A}
    (maxLength : Z) (deepCopy : bool) (calls : list (HistoryManager.call A))
    (state : A) :
  (2 <= maxLength)%Z ->
  let h := HistoryManager.run calls (HistoryManager.new maxLength deepCopy) in
  HistoryManager.states h <> [] ->
  fst (HistoryManager.addToHistory state h) = Return true ->
  let h1 := snd (HistoryManager.addToHistory state h) in
  fst (HistoryManager.goBack h1) = true
  /\ HistoryManager.getState (snd (HistoryManager.goBack h1))
     = HistoryManager.getState h.
Proof.
  intros HN h Hne Hadd h1.
  pose proof (HistoryLaws.ring_run calls maxLength deepCopy ltac:(lia)) as Hr.
  fold h in Hr.
  assert (Hmax : HistoryManager.maxLength h = maxLength)
    by apply HistoryFacts.maxLength_run.
  pose proof (HistoryLaws.ring_bounded h Hr) as (Hp & Hs & He & Hl).
  pose proof (HistoryLaws.addToHistory_true state h Hadd) as Heq. fold h1 in Heq.
  cbv zeta in Heq.
  destruct (Nat.eqb_spec (length (HistoryManager.states h)) 0) as [Hz | Hnz].
  { apply length_zero_iff_nil in Hz. done. }
  rewrite posMod_succ in Heq by done.
  set (pos' := if (HistoryManager.pos h + 1 =? HistoryManager.maxLength h)%Z then 0%Z
               else (HistoryManager.pos h + 1)%Z) in *.
  assert (Hpos' : (0 <= pos' < HistoryManager.maxLength h)%Z
                  /\ pos' <> HistoryManager.pos h).
  { subst pos'.
    destruct (Z.eqb_spec (HistoryManager.pos h + 1) (HistoryManager.maxLength h)); lia. }
  destruct Hpos' as [Hpos' Hdiff].
  assert (Hgo : fst (HistoryManager.goBack h1) = true).
  { rewrite HistoryUndo.canGoBack_goBack. unfold HistoryManager.canGoBack.
    rewrite Heq. simpl. rewrite HistoryFacts.length_array_set by lia.
    destruct (Nat.eqb_spec (Nat.max (length (HistoryManager.states h))
                              (Z.to_nat pos' + 1)) 0) as [? | _]; [lia|].
    rewrite orb_false_r.
    destruct (Z.eqb_spec (HistoryManager.start h) pos') as [Hsp | Hsp].
    - rewrite posMod_succ by done.
      destruct (Z.eqb_spec (pos' + 1) (HistoryManager.maxLength h));
        [destruct (Z.eqb_spec pos' 0) | destruct (Z.eqb_spec pos' (pos' + 1))];
        try done; lia.
    - destruct (Z.eqb_spec pos' (HistoryManager.start h)); [congruence | done]. }
  split; [done|].
  destruct (HistoryLaws.goBack_true h1 Hgo) as (_ & _ & ->).
  unfold HistoryManager.getState. rewrite Heq. simpl.
  rewrite HistoryFacts.length_array_set by lia.
  destruct (Nat.eqb_spec (Nat.max (length (HistoryManager.states h))
                            (Z.to_nat pos' + 1)) 0) as [? | _]; [lia|].
  destruct (Nat.eqb_spec (length (HistoryManager.states h)) 0) as [? | _]; [done|].
  assert (Hback : posMod (pos' - 1) (HistoryManager.maxLength h) = HistoryManager.pos h).
  { rewrite posMod_pred by done. subst pos'.
    destruct (Z.eqb_spec (HistoryManager.pos h + 1) (HistoryManager.maxLength h));
      simpl; [lia|].
    destruct (Z.eqb_spec (HistoryManager.pos h + 1) 0); lia. }
  rewrite Hback. rewrite HistoryLaws.array_get_set_other by lia. done.
Qed.

Lemma goBack_after_add_restores_witness :
  let h :=
    HistoryManager.run
      [HistoryManager.AddToHistory 1%Z; HistoryManager.AddToHistory 2%Z;
       HistoryManager.AddToHistory 3%Z]
      (HistoryManager.new 3%Z false) in
  let h1 := snd (HistoryManager.addToHistory 4%Z h) in
  fst (HistoryManager.goBack h1) = true
  /\ HistoryManager.getState (snd (HistoryManager.goBack h1))
     = HistoryManager.getState h.
Proof.
  apply (goBack_after_add_restores 3%Z false); [lia | done | reflexivity].
Defined.

(** ** Moving between the suggestions *)

Lemma findIndex_none {E : Type} (p : E -> bool) (arr : list E) :
  Forall (fun x => p x = false) arr -> findIndex p arr = (-1)%Z.
Proof.
  induction 1 as [|x arr Hx _ IH]; simpl; [done|].
  by rewrite Hx, IH.
Qed.

Lemma findIndex_first {E : Type} (p : E -> bool) (l : list E) (c : E) (r : list E) :
  Forall (fun x => p x = false) l -> p c = true ->
  findIndex p (l ++ c :: r) = Z.of_nat (length l).
Proof.
  intros Hl Hc. induction Hl as [|x l Hx _ IH]; simpl.
  - by rewrite Hc.
  - rewrite Hx, IH. destruct (Z.ltb_spec (Z.of_nat (length l)) 0); lia.
Qed.

Lemma filter_ext_Forall {E : Type} (p q : E -> bool) (l : list E) :
  Forall (fun x => p x = q x) l -> List.filter p l = List.filter q l.
Proof.
  induction 1 as [|x l Hx _ IH]; simpl; [done|]. by rewrite Hx, IH.
Qed.

Lemma Forall_filter_list {E : Type} (p : E -> bool) (P : E -> Prop) (l : list E) :
  Forall P l -> Forall P (List.filter p l).
Proof.
  induction 1 as [|x l Hx _ IH]; simpl; [done|].
  destruct (p x); [by constructor | done].
Qed.

(** The two filters agree away from the current segment. *)
Lemma filter_active_or_current (current : string) (l : list TextSegment.t) :
  current ∉ map TextSegment._id l ->
  List.filter
    (fun ts => TextSegment.suggestionIsActive ts
               || String.eqb (TextSegment._id ts) current) l
  = getTextSegmentsWithActiveSuggestion l
  /\ Forall (fun ts => String.eqb (TextSegment._id ts) current = false)
       (getTextSegmentsWithActiveSuggestion l).
Proof.
  intros Hnot.
  assert (Hall : Forall (fun ts => String.eqb (TextSegment._id ts) current = false) l).
  { rewrite Forall_forall. intros ts Hts.
    destruct (String.eqb_spec (TextSegment._id ts) current) as [Heq | _]; [|done].
    exfalso. apply Hnot. rewrite <- Heq. by apply list_elem_of_fmap_2. }
  split.
  - unfold getTextSegmentsWithActiveSuggestion. apply filter_ext_Forall.
    eapply Forall_impl; [exact Hall|]. intros ts Hts. simpl in *.
    rewrite Hts. unfold hasActiveSuggestion. by rewrite orb_false_r.
  - by apply Forall_filter_list.
Qed.

Lemma adjacent_around (currentTextSegment c : TextSegment.t)
    (before0 after0 : list TextSegment.t) :
  TextSegment._id c = TextSegment._id currentTextSegment ->
  TextSegment._id currentTextSegment ∉ map TextSegment._id before0 ->
  TextSegment._id currentTextSegment ∉ map TextSegment._id after0 ->
  getIdOfAdjacentTextSegmentWithActiveSuggestion currentTextSegment
    (before0 ++ c :: after0) forward
  = getCleanId
      (option_map TextSegment._id (head (getTextSegmentsWithActiveSuggestion after0)))
  /\ getIdOfAdjacentTextSegmentWithActiveSuggestion currentTextSegment
       (before0 ++ c :: after0) backward
     = getCleanId
         (option_map TextSegment._id (last (getTextSegmentsWithActiveSuggestion before0))).
Proof.
  intros Hc Hb Ha.
  destruct (filter_active_or_current _ _ Hb) as [Hfb Hnb].
  destruct (filter_active_or_current _ _ Ha) as [Hfa Hna].
  unfold getIdOfAdjacentTextSegmentWithActiveSuggestion. cbv zeta.
  rewrite List.filter_app. simpl.
  rewrite Hc, String.eqb_refl, orb_true_r, Hfb, Hfa.
  rewrite findIndex_first; [|done|by rewrite Hc, String.eqb_refl].
  set (l := getTextSegmentsWithActiveSuggestion before0) in *.
  set (r := getTextSegmentsWithActiveSuggestion after0) in *.
  unfold element_at. split.
  - destruct (Z.ltb_spec (Z.of_nat (length l) + 1) 0) as [? | _]; [lia|].
    replace (Z.to_nat (Z.of_nat (length l) + 1)) with (length l + 1)%nat by lia.
    rewrite lookup_app_r by lia.
    replace (length l + 1 - length l)%nat with 1%nat by lia. simpl.
    by destruct r.
  - destruct l as [|x l _] using rev_ind; [done|].
    rewrite length_app. simpl.
    destruct (Z.ltb_spec (Z.of_nat (length l + 1) + -1) 0) as [? | _]; [lia|].
    replace (Z.to_nat (Z.of_nat (length l + 1) + -1)) with (length l) by lia.
    rewrite <- app_assoc. rewrite lookup_app_r by lia.
    rewrite Nat.sub_diag. simpl. by rewrite last_snoc.
Qed.

(** X9.  With the current segment among the segments (its identifier occurring
    once), [getIdOfAdjacentTextSegmentWithActiveSuggestion] returns the
    identifier of the first segment with an active suggestion behind it,
    respectively of the last one before it, and ['-1'] when there is none;
    whether the current segment has an active suggestion plays no role. *)
Theorem adjacent_suggestion_is_nearest (currentTextSegment c : TextSegment.t)
    (before0 after0 : list TextSegment.t) :
  TextSegment._id c = TextSegment._id currentTextSegment ->
  TextSegment._id currentTextSegment ∉ map TextSegment._id before0 ->
  TextSegment._id currentTextSegment ∉ map TextSegment._id after0 ->
  getIdOfAdjacentTextSegmentWithActiveSuggestion currentTextSegment
    (before0 ++ c :: after0) forward
  = getCleanId
      (option_map TextSegment._id (head (getTextSegmentsWithActiveSuggestion after0)))
  /\ getIdOfAdjacentTextSegmentWithActiveSuggestion currentTextSegment
       (before0 ++ c :: after0) backward
     = getCleanId
         (option_map TextSegment._id (last (getTextSegmentsWithActiveSuggestion before0))).
Proof. apply adjacent_around. Qed.

Lemma adjacent_suggestion_is_nearest_witness :
  getIdOfAdjacentTextSegmentWithActiveSuggestion (numberedSegment 5)
    (map numberedSegment (seq 0 5) ++ numberedSegment 5 :: map numberedSegment (seq 6 4))
    forward
  = getCleanId
      (option_map TextSegment._id
         (head (getTextSegmentsWithActiveSuggestion (map numberedSegment (seq 6 4)))))
  /\ getIdOfAdjacentTextSegmentWithActiveSuggestion (numberedSegment 5)
       (map numberedSegment (seq 0 5) ++ numberedSegment 5 :: map numberedSegment (seq 6 4))
       backward
     = getCleanId
         (option_map TextSegment._id
            (last (getTextSegmentsWithActiveSuggestion (map numberedSegment (seq 0 5))))).
Proof.
  apply (adjacent_suggestion_is_nearest (numberedSegment 5) (numberedSegment 5)).
  - reflexivity.
  - apply (bool_decide_unpack
             (TextSegment._id (numberedSegment 5)
              ∉ map TextSegment._id (map numberedSegment (seq 0 5)))).
    vm_compute. reflexivity.
  - apply (bool_decide_unpack
             (TextSegment._id (numberedSegment 5)
              ∉ map TextSegment._id (map numberedSegment (seq 6 4)))).
    vm_compute. reflexivity.
Defined.

(** X10.  When the current segment is not among the segments, going backward
    gives ['-1'], while going forward gives the first segment with an
    active suggestion. *)
Theorem adjacent_suggestion_of_stranger (currentTextSegment : TextSegment.t)
    (textSegments0 : list TextSegment.t) :
  TextSegment._id currentTextSegment ∉ map TextSegment._id textSegments0 ->
  getIdOfAdjacentTextSegmentWithActiveSuggestion currentTextSegment textSegments0 backward
  = defaultTextSegmentId
  /\ getIdOfAdjacentTextSegmentWithActiveSuggestion currentTextSegment textSegments0 forward
     = getCleanId
         (option_map TextSegment._id
            (head (getTextSegmentsWithActiveSuggestion textSegments0))).
Proof.
  intros Hnot. destruct (filter_active_or_current _ _ Hnot) as [Hf Hn].
  unfold getIdOfAdjacentTextSegmentWithActiveSuggestion. cbv zeta.
  rewrite Hf, findIndex_none by done. simpl. split; [done|].
  unfold element_at. simpl.
  by destruct (getTextSegmentsWithActiveSuggestion textSegments0).
Qed.

Lemma adjacent_suggestion_of_stranger_witness :
  getIdOfAdjacentTextSegmentWithActiveSuggestion (numberedSegment 9) [] backward
  = defaultTextSegmentId
  /\ getIdOfAdjacentTextSegmentWithActiveSuggestion (numberedSegment 9) [] forward
     = getCleanId
         (option_map TextSegment._id (head (getTextSegmentsWithActiveSuggestion []))).
Proof.
  apply (adjacent_suggestion_of_stranger (numberedSegment 9) []).
  apply not_elem_of_nil.
Defined.

(** ** Whitespace between highlights *)

(** A highlighted span, a plain span of whitespace and a highlighted span:
    what [highlightWhitespaceBetweenHighlights] turns into one span. *)
Definition mergeable (x y z : TextSegmentStructureElement) : bool :=
  highlight x && negb (highlight y) && highlight z
  && stringContainsOnlyWhitespace (value y).

Fixpoint gap_free (l : list TextSegmentStructureElement) : Prop :=
  match l with
  | x :: l' =>
      match l' with
      | y :: z :: _ => mergeable x y z = false
      | _ => True
      end
      /\ gap_free l'
  | [] => True
  end.

Lemma gap_free_snoc (l : list TextSegmentStructureElement) x y z :
  gap_free (l ++ [x; y]) -> mergeable x y z = false -> gap_free (l ++ [x; y; z]).
Proof.
  intros Hl Hm. induction l as [|w l IH]; simpl in *; [tauto|].
  destruct Hl as [Hw Hl]. split; [|by apply IH].
  destruct l as [|v1 [|v2 l]]; simpl in *; done.
Qed.

Lemma gap_free_init (l : list TextSegmentStructureElement) x :
  gap_free (l ++ [x]) -> gap_free l.
Proof.
  induction l as [|w l IH]; simpl; [done|].
  intros [Hw Hl]. split; [|by apply IH].
  destruct l as [|v1 [|v2 l]]; simpl in *; done.
Qed.

Lemma gap_free_last (l : list TextSegmentStructureElement) x m :
  gap_free (l ++ [x]) -> highlight m = highlight x -> gap_free (l ++ [m]).
Proof.
  intros Hl Hm. induction l as [|w l IH]; simpl in *; [done|].
  destruct Hl as [Hw Hl]. split; [|by apply IH].
  destruct l as [|v1 [|v2 l]]; simpl in *; try done.
  unfold mergeable in *. by rewrite Hm.
Qed.

Lemma gap_free_after_highlight (l : list TextSegmentStructureElement) y z :
  gap_free (l ++ [y]) -> (l <> [] -> highlight y = true) ->
  gap_free (l ++ [y; z]).
Proof.
  intros Hl Hy. induction l as [|w l IH]; simpl in *; [done|].
  destruct Hl as [Hw Hl]. split.
  - destruct l as [|v1 [|v2 l]]; simpl in *; try done.
    unfold mergeable. rewrite Hy by done. simpl. by rewrite andb_false_r.
  - destruct l as [|v l]; [simpl; tauto|]. apply IH; [done|].
    intros _. by apply Hy.
Qed.

Lemma gap_free_lookup (l1 l2 : list TextSegmentStructureElement) x y z :
  gap_free (l1 ++ x :: y :: z :: l2) -> mergeable x y z = false.
Proof.
  induction l1 as [|w l1 IH]; simpl; [tauto|]. intros [_ Hl]. by apply IH.
Qed.

Module WhitespaceGaps.
Import Whitespace WhitespaceFacts.

(** What holds of the accumulator between two steps. *)
Record closed (acc0 : acc) : Prop := {
  closed_view : gap_free (view acc0);
  closed_merged :
    a acc0 = None -> result acc0 <> [] ->
    exists eb, b acc0 = Some eb /\ highlight eb = true;
  closed_start : b acc0 = None -> a acc0 = None /\ result acc0 = []
}.

Lemma closed_initial : closed initialVal.
Proof. split; simpl; done. Qed.

Lemma step_closed (acc0 : acc) (c : TextSegmentStructureElement) :
  closed acc0 -> closed (step acc0 c).
Proof.
  intros [Hview Hmerged Hstart]. unfold step, view in *.
  destruct (a acc0) as [ea|] eqn:Ea, (b acc0) as [eb|] eqn:Eb; simpl in *.
  - fold (mergeable ea eb c).
    destruct (mergeable ea eb c) eqn:Hm.
    + assert (Hea : highlight ea = true).
      { unfold mergeable in Hm. by destruct (highlight ea). }
      split; unfold view; simpl.
      * apply (gap_free_last _ ea); [|done].
        apply (gap_free_init _ eb). by rewrite <- app_assoc.
      * intros _ _. by eexists.
      * done.
    + split; unfold view; simpl.
      * rewrite <- app_assoc. simpl. by apply gap_free_snoc.
      * done.
      * done.
  - by destruct (Hstart eq_refl).
  - split; unfold view; simpl.
    + apply gap_free_after_highlight; [done|].
      intros Hne. destruct (Hmerged eq_refl Hne) as (eb' & [= <-] & Hhl). done.
    + done.
    + done.
  - destruct (Hstart eq_refl) as [_ Hres]. rewrite Hres in *.
    split; unfold view; simpl; done.
Qed.

Lemma fold_closed (arr : list TextSegmentStructureElement) (acc0 : acc) :
  closed acc0 -> closed (fold_left step arr acc0).
Proof.
  revert acc0. induction arr as [|c arr IH]; intros acc0 Hc; [done|].
  simpl. by apply IH, step_closed.
Qed.

End WhitespaceGaps.

(** X11.  [highlightWhitespaceBetweenHighlights] keeps the text of the spans, and
    in what it returns no plain span of whitespace is left between two
    highlighted spans. *)
Theorem whitespace_between_highlights_closed (arr : list TextSegmentStructureElement) :
  spelled (highlightWhitespaceBetweenHighlights arr) = spelled arr
  /\ forall l1 x y z l2,
       highlightWhitespaceBetweenHighlights arr = l1 ++ x :: y :: z :: l2 ->
       ~ (highlight x = true /\ highlight y = false
          /\ stringContainsOnlyWhitespace (value y) = true /\ highlight z = true).
Proof.
  split; [apply merges_spelled, highlightWhitespace_merges|].
  intros l1 x y z l2 Heq (Hx & Hy & Hws & Hz).
  assert (Hfree : gap_free (highlightWhitespaceBetweenHighlights arr)).
  { unfold highlightWhitespaceBetweenHighlights.
    rewrite WhitespaceFacts.whitespace_reducer_unfold.
    destruct arr as [|c arr]; [done|].
    change (Whitespace.result (WhitespaceFacts.finish ?x)) with (WhitespaceFacts.view x).
    apply WhitespaceGaps.closed_view, WhitespaceGaps.fold_closed,
      WhitespaceGaps.closed_initial. }
  rewrite Heq in Hfree. apply gap_free_lookup in Hfree.
  unfold mergeable in Hfree. by rewrite Hx, Hy, Hz, Hws in Hfree.
Qed.

(** ** The store: suggestions and edits *)

(** The edits lead from [first] to [final]: each edit starts from the text
    the one before it ended with. *)
Fixpoint replays (first : jstring) (log : list TextSegmentEdit) (final : jstring)
    : Prop :=
  match log with
  | [] => first = final
  | e :: log' => before e = first /\ replays (after e) log' final
  end.

(** The edits of a segment lead from its machine translation to the text
    it displays. *)
Definition log_consistent (ts : TextSegment.t) : Prop :=
  replays (TextSegment.mtText ts) (TextSegment.edits ts) (TextSegment.hpeText ts).

Lemma replays_snoc (first : jstring) (log : list TextSegmentEdit)
    (final : jstring) (e : TextSegmentEdit) :
  replays first log final -> before e = final ->
  replays first (log ++ [e]) (after e).
Proof.
  revert first. induction log as [|e0 log IH]; intros first; simpl.
  - intros -> ->. done.
  - intros [-> Hl] He. split; [done|]. by apply IH.
Qed.

Lemma findTextSegment_Some (segments : list TextSegment.t) (id : string)
    (ts : TextSegment.t) :
  findTextSegment segments id = Some ts ->
  ts ∈ segments /\ TextSegment._id ts = id.
Proof.
  unfold findTextSegment. induction segments as [|s segments IH]; simpl; [done|].
  destruct (String.eqb_spec (TextSegment._id s) id) as [Heq | Hne].
  - intros [= <-]. split; [apply list_elem_of_here | done].
  - intros Hf. destruct (IH Hf) as [Hin Hid]. split; [by apply list_elem_of_further | done].
Qed.

Module StoreFacts.
Import Store.

Lemma forEachSegment_Forall (P : TextSegment.t -> Prop)
    (f : TextSegment.t -> completion TextSegment.t) (arr : list TextSegment.t) :
  (forall ts ts', P ts -> f ts = Return ts' -> P ts') ->
  Forall P arr -> Forall P (snd (forEachSegment f arr)).
Proof.
  intros Hf. induction 1 as [|ts arr Hts Harr IH]; simpl; [done|].
  destruct (f ts) as [ts'|] eqn:Hfts; simpl.
  - constructor; [by apply (Hf ts) | done].
  - by constructor.
Qed.

(** What [forEachSegment] returns when no call throws, and when one does. *)
Lemma forEachSegment_Return (f : TextSegment.t -> completion TextSegment.t)
    (g : TextSegment.t -> TextSegment.t) (arr : list TextSegment.t) :
  Forall (fun ts => f ts = Return (g ts)) arr ->
  forEachSegment f arr = (Return tt, map g arr).
Proof.
  induction 1 as [|ts arr Hts _ IH]; simpl; [done|].
  by rewrite Hts, IH.
Qed.

Lemma forEachSegment_Throw (f : TextSegment.t -> completion TextSegment.t)
    (arr : list TextSegment.t) :
  fst (forEachSegment f arr) = Throw <-> exists ts, ts ∈ arr /\ f ts = Throw.
Proof.
  induction arr as [|ts arr IH]; simpl.
  - split; [done|]. intros (ts & Hin & _). by apply elem_of_nil in Hin.
  - destruct (f ts) as [ts'|] eqn:Hf; simpl.
    + rewrite IH. split.
      * intros (x & Hx & Hfx). exists x. split; [by right | done].
      * intros (x & Hx & Hfx). apply elem_of_cons in Hx as [-> | Hx]; [congruence|].
        by exists x.
    + split; [|done]. intros _. exists ts. split; [by left | done].
Qed.

Lemma forEachSegment_ids (f : TextSegment.t -> completion TextSegment.t)
    (arr : list TextSegment.t) :
  (forall ts ts', f ts = Return ts' -> TextSegment._id ts' = TextSegment._id ts) ->
  map TextSegment._id (snd (forEachSegment f arr)) = map TextSegment._id arr.
Proof.
  intros Hf. induction arr as [|ts arr IH]; simpl; [done|].
  destruct (f ts) as [ts'|] eqn:Hfts; simpl; [|done].
  by rewrite IH, (Hf ts ts').
Qed.

Lemma acceptIn_consistent (id : string) (ts ts' : TextSegment.t) :
  log_consistent ts -> acceptIn id ts = Return ts' -> log_consistent ts'.
Proof.
  unfold acceptIn, log_consistent. intros Hts.
  destruct (String.eqb _ _); [|by intros [= <-]].
  destruct (negb _); [done|]. intros [= <-]. simpl.
  by apply (replays_snoc _ _ (TextSegment.hpeText ts)
              {| edit_type := accepted; before := TextSegment.hpeText ts;
                 after := TextSegment.apeText ts |}).
Qed.

Lemma rejectIn_consistent (id : string) (ts ts' : TextSegment.t) :
  log_consistent ts -> rejectIn id ts = Return ts' -> log_consistent ts'.
Proof.
  unfold rejectIn, log_consistent. intros Hts.
  destruct (String.eqb _ _); [|by intros [= <-]].
  destruct (negb _); [done|]. intros [= <-]. simpl.
  by apply (replays_snoc _ _ (TextSegment.hpeText ts)
              {| edit_type := rejected; before := TextSegment.hpeText ts;
                 after := TextSegment.mtText ts |}).
Qed.

Lemma acceptIn_id (id : string) (ts ts' : TextSegment.t) :
  acceptIn id ts = Return ts' -> TextSegment._id ts' = TextSegment._id ts.
Proof.
  unfold acceptIn. destruct (String.eqb _ _); [|by intros [= <-]].
  destruct (negb _); [done|]. by intros [= <-].
Qed.

Lemma rejectIn_id (id : string) (ts ts' : TextSegment.t) :
  rejectIn id ts = Return ts' -> TextSegment._id ts' = TextSegment._id ts.
Proof.
  unfold rejectIn. destruct (String.eqb _ _); [|by intros [= <-]].
  destruct (negb _); [done|]. by intros [= <-].
Qed.

(** The segment that [applyEdit] leaves in the place of an existing one. *)
Definition editedSegment (nts : Translatable.t) (existing : TextSegment.t)
    : TextSegment.t :=
  if negb (bool_decide (Translatable.srcText nts = TextSegment.hpeText existing)) then
    {| TextSegment._id := TextSegment._id existing;
       TextSegment.srcText := TextSegment.srcText existing;
       TextSegment.mtText := TextSegment.mtText existing;
       TextSegment.mtTextStructure := TextSegment.mtTextStructure existing;
       TextSegment.apeText := TextSegment.apeText existing;
       TextSegment.apeTextStructure := TextSegment.apeTextStructure existing;
       TextSegment.hpeText := Translatable.srcText nts;
       TextSegment.suggestionIsActive := false;
       TextSegment.edits :=
         TextSegment.edits existing
           ++ [ {| edit_type := edited; before := TextSegment.hpeText existing;
                   after := Translatable.srcText nts |} ] |}
  else existing.

(** [applyEdit] by recursion on the segments. *)
Lemma applyEdit_nil (nts : Translatable.t) : applyEdit [] nts = [createdSegment nts].
Proof. reflexivity. Qed.

Lemma applyEdit_cons (s : TextSegment.t) (segments : list TextSegment.t)
    (nts : Translatable.t) :
  applyEdit (s :: segments) nts
  = if String.eqb (TextSegment._id s) (Translatable._id nts)
    then editedSegment nts s :: segments
    else s :: applyEdit segments nts.
Proof.
  unfold applyEdit. simpl.
  destruct (String.eqb_spec (TextSegment._id s) (Translatable._id nts)) as [Heq | Hne].
  - rewrite decide_True by done. unfold editedSegment.
    by destruct (negb _).
  - rewrite decide_False by done.
    destruct (list_find _ segments) as [[i existing]|]; simpl; [|done].
    by destruct (negb _).
Qed.

Lemma editedSegment_id (nts : Translatable.t) (s : TextSegment.t) :
  TextSegment._id (editedSegment nts s) = TextSegment._id s.
Proof. unfold editedSegment. by destruct (negb _). Qed.

Lemma editedSegment_hpeText (nts : Translatable.t) (s : TextSegment.t) :
  TextSegment.hpeText (editedSegment nts s) = Translatable.srcText nts.
Proof.
  unfold editedSegment.
  destruct (decide (Translatable.srcText nts = TextSegment.hpeText s)) as [Heq | Hne].
  - by rewrite bool_decide_eq_true_2.
  - by rewrite bool_decide_eq_false_2.
Qed.

Lemma editedSegment_consistent (nts : Translatable.t) (s : TextSegment.t) :
  log_consistent s -> log_consistent (editedSegment nts s).
Proof.
  unfold editedSegment, log_consistent. intros Hs.
  destruct (negb _); [|done]. simpl.
  by apply (replays_snoc _ _ (TextSegment.hpeText s)
              {| edit_type := edited; before := TextSegment.hpeText s;
                 after := Translatable.srcText nts |}).
Qed.

Lemma applyEdit_consistent (segments : list TextSegment.t) (nts : Translatable.t) :
  Forall log_consistent segments -> Forall log_consistent (applyEdit segments nts).
Proof.
  induction 1 as [|s segments Hs Hsegs IH].
  - rewrite applyEdit_nil. constructor; [|done]. by unfold log_consistent.
  - rewrite applyEdit_cons. destruct (String.eqb _ _).
    + constructor; [by apply editedSegment_consistent | done].
    + by constructor.
Qed.

Lemma markDeleted_consistent (nts : list Translatable.t) (s : TextSegment.t) :
  log_consistent s -> log_consistent (markDeleted nts s).
Proof.
  unfold markDeleted, log_consistent. intros Hs.
  destruct (List.find _ nts); [done|]. simpl.
  by apply (replays_snoc _ _ (TextSegment.hpeText s)
              {| edit_type := deleted; before := TextSegment.hpeText s; after := [] |}).
Qed.

Lemma markDeleted_id (nts : list Translatable.t) (s : TextSegment.t) :
  TextSegment._id (markDeleted nts s) = TextSegment._id s.
Proof. unfold markDeleted. by destruct (List.find _ nts). Qed.

Lemma fold_applyEdit_consistent (nts : list Translatable.t)
    (segments : list TextSegment.t) :
  Forall log_consistent segments ->
  Forall log_consistent (fold_left applyEdit nts segments).
Proof.
  revert segments. induction nts as [|n nts IH]; intros segments Hs; [done|].
  simpl. by apply IH, applyEdit_consistent.
Qed.

Lemma after_consistent (c : call) (segments : list TextSegment.t) :
  Forall log_consistent segments ->
  exists segments',
    afterCall c (Some segments) = Some segments'
    /\ Forall log_consistent segments'.
Proof.
  intros Hs. destruct c as [ts | ts | nts]; simpl; eexists; (split; [done|]).
  - apply forEachSegment_Forall; [|done]. intros x x'. apply acceptIn_consistent.
  - apply forEachSegment_Forall; [|done]. intros x x'. apply rejectIn_consistent.
  - apply Forall_fmap. eapply Forall_impl.
    + by apply fold_applyEdit_consistent.
    + intros x Hx. by apply markDeleted_consistent.
Qed.

(** The identifiers: [applyEdit] adds at most one, at the end. *)
Lemma applyEdit_ids (segments : list TextSegment.t) (nts : Translatable.t) :
  map TextSegment._id (applyEdit segments nts)
  = map TextSegment._id segments
    ++ (if bool_decide (Translatable._id nts ∈ map TextSegment._id segments) then []
        else [Translatable._id nts]).
Proof.
  induction segments as [|s segments IH].
  - rewrite applyEdit_nil.
    rewrite (bool_decide_eq_false_2 (Translatable._id nts ∈ map TextSegment._id []));
      [done|].
    apply not_elem_of_nil.
  - rewrite applyEdit_cons.
    destruct (String.eqb_spec (TextSegment._id s) (Translatable._id nts)) as [Heq | Hne].
    + simpl. rewrite editedSegment_id, bool_decide_eq_true_2, app_nil_r; [done|].
      rewrite Heq. apply list_elem_of_here.
    + simpl. rewrite IH. f_equal.
      rewrite (bool_decide_ext
                 (Translatable._id nts ∈ TextSegment._id s :: map TextSegment._id segments)
                 (Translatable._id nts ∈ map TextSegment._id segments)); [done|].
      rewrite elem_of_cons. split; [|by right].
      intros [Heq | Hin]; [congruence | done].
Qed.

Lemma find_translatable_None (nts : list Translatable.t) (id : string) :
  List.find (fun s => String.eqb (Translatable._id s) id) nts = None
  <-> id ∉ map Translatable._id nts.
Proof.
  induction nts as [|n nts IH]; simpl.
  - split; [|done]. intros _. apply not_elem_of_nil.
  - destruct (String.eqb_spec (Translatable._id n) id) as [-> | Hne].
    + split; [done|]. intros Hn. exfalso. apply Hn. apply list_elem_of_here.
    + rewrite IH, not_elem_of_cons. split; [|by intros [_ ?]].
      intros Hn. split; [congruence | done].
Qed.

Lemma findTextSegment_fmap (f : TextSegment.t -> TextSegment.t)
    (segments : list TextSegment.t) (id : string) :
  (forall s, TextSegment._id (f s) = TextSegment._id s) ->
  findTextSegment (map f segments) id = option_map f (findTextSegment segments id).
Proof.
  intros Hf. unfold findTextSegment.
  induction segments as [|s segments IH]; simpl; [done|].
  rewrite Hf. by destruct (String.eqb _ _).
Qed.

(** The first segment with the identifier of [nts] after [applyEdit], and
    the first segment with any other identifier. *)
Lemma findTextSegment_applyEdit_same (segments : list TextSegment.t)
    (nts : Translatable.t) :
  exists ts,
    findTextSegment (applyEdit segments nts) (Translatable._id nts) = Some ts
    /\ TextSegment.hpeText ts = Translatable.srcText nts.
Proof.
  unfold findTextSegment. induction segments as [|s segments IH].
  - rewrite applyEdit_nil. simpl. rewrite String.eqb_refl. by eexists.
  - rewrite applyEdit_cons.
    destruct (String.eqb (TextSegment._id s) (Translatable._id nts)) eqn:Heq; simpl.
    + rewrite editedSegment_id, Heq. eexists. split; [done|].
      apply editedSegment_hpeText.
    + by rewrite Heq.
Qed.

Lemma findTextSegment_applyEdit_other (segments : list TextSegment.t)
    (nts : Translatable.t) (id : string) :
  id <> Translatable._id nts ->
  findTextSegment (applyEdit segments nts) id = findTextSegment segments id.
Proof.
  intros Hne. unfold findTextSegment. induction segments as [|s segments IH].
  - rewrite applyEdit_nil. simpl.
    by destruct (String.eqb_spec (Translatable._id nts) id) as [<- | _].
  - rewrite applyEdit_cons.
    destruct (String.eqb_spec (TextSegment._id s) (Translatable._id nts)) as [Heq | Hn];
      simpl.
    + rewrite editedSegment_id.
      destruct (String.eqb_spec (TextSegment._id s) id) as [<- | _]; [done|]. done.
    + destruct (String.eqb (TextSegment._id s) id); [done|]. apply IH.
Qed.

Lemma findTextSegment_fold_other (nts : list Translatable.t)
    (segments : list TextSegment.t) (id : string) :
  id ∉ map Translatable._id nts ->
  findTextSegment (fold_left applyEdit nts segments) id = findTextSegment segments id.
Proof.
  revert segments. induction nts as [|k nts IH]; intros segments Hid; [done|].
  simpl in *. apply not_elem_of_cons in Hid as [Hk Hid].
  rewrite IH by done. by apply findTextSegment_applyEdit_other.
Qed.

Lemma findTextSegment_fold_applyEdit (nts : list Translatable.t)
    (segments : list TextSegment.t) (n : Translatable.t) :
  NoDup (map Translatable._id nts) -> n ∈ nts ->
  exists ts,
    findTextSegment (fold_left applyEdit nts segments) (Translatable._id n) = Some ts
    /\ TextSegment.hpeText ts = Translatable.srcText n.
Proof.
  revert segments. induction nts as [|m nts IH]; intros segments Hnd Hin.
  - by apply elem_of_nil in Hin.
  - simpl in *. apply NoDup_cons in Hnd as [Hm Hnd].
    apply elem_of_cons in Hin as [-> | Hin]; [|by apply IH].
    rewrite findTextSegment_fold_other by done.
    apply findTextSegment_applyEdit_same.
Qed.

End StoreFacts.

(** X12.  Whatever suggestions are applied or discarded and whatever edits are
    applied after a translation arrived, the edits of every segment lead
    from its machine translation to the text it displays: the first edit
    starts from [mtText], each edit starts from the text the one before it
    ended with, and the last one ends with [hpeText]. *)
Theorem edit_log_replays (diffWords : jstring -> jstring -> list Change.t)
    (textSegmentsFromApi : list TranslationResult.t) (calls : list Store.call) :
  exists segments,
    Store.run calls (Some (map (Store.augment diffWords) textSegmentsFromApi))
    = Some segments
    /\ Forall log_consistent segments.
Proof.
  induction calls as [|c calls IH] using rev_ind.
  - eexists. split; [done|]. apply Forall_fmap, Forall_forall. intros ts _.
    by unfold log_consistent.
  - destruct IH as (segments & Hrun & Hcons).
    unfold Store.run in *. rewrite fold_left_app. simpl. rewrite Hrun.
    by apply StoreFacts.after_consistent.
Qed.

(** X13.  A suggestion is settled once: after [applySuggestion] succeeded on a
    segment that exists, the segment displays the suggested text and its
    suggestion is inactive, and applying or discarding the suggestion again
    throws. *)
Theorem applySuggestion_settles (textSegment : TextSegment.t)
    (segments : list TextSegment.t) :
  TextSegment._id textSegment ∈ map TextSegment._id segments ->
  fst (Store.applySuggestion textSegment (Some segments)) = Return tt ->
  exists segments',
    snd (Store.applySuggestion textSegment (Some segments)) = Some segments'
    /\ map TextSegment._id segments' = map TextSegment._id segments
    /\ (forall ts, ts ∈ segments' ->
          TextSegment._id ts = TextSegment._id textSegment ->
          TextSegment.hpeText ts = TextSegment.apeText ts
          /\ TextSegment.suggestionIsActive ts = false)
    /\ fst (Store.applySuggestion textSegment (Some segments')) = Throw
    /\ fst (Store.discardSuggestion textSegment (Some segments')) = Throw.
Proof.
  intros Hin Hok. simpl in *. eexists. split; [done|].
  set (id := TextSegment._id textSegment) in *.
  assert (Hall : Forall (fun ts => exists ts', Store.acceptIn id ts = Return ts') segments).
  { rewrite Forall_forall. intros ts Hts.
    destruct (Store.acceptIn id ts) as [ts'|] eqn:Hf; [by eexists|].
    assert (Hth : fst (Store.forEachSegment (Store.acceptIn id) segments) = Throw)
      by (apply StoreFacts.forEachSegment_Throw; eauto).
    congruence. }
  clear Hok.
  assert (Hsettled :
            Forall (fun ts =>
                      TextSegment._id ts = id ->
                      TextSegment.hpeText ts = TextSegment.apeText ts
                      /\ TextSegment.suggestionIsActive ts = false)
              (snd (Store.forEachSegment (Store.acceptIn id) segments))).
  { clear Hin. induction Hall as [|ts segments (ts' & Hts) _ IH]; simpl; [constructor|].
    rewrite Hts. simpl. constructor; [|done].
    unfold Store.acceptIn in Hts.
    destruct (String.eqb_spec (TextSegment._id ts) id) as [Heq | Hne].
    - destruct (TextSegment.suggestionIsActive ts); simpl in Hts; [|done].
      by simplify_eq.
    - simplify_eq. done. }
  assert (Hids : map TextSegment._id
                   (snd (Store.forEachSegment (Store.acceptIn id) segments))
                 = map TextSegment._id segments).
  { apply StoreFacts.forEachSegment_ids. intros ts ts'. apply StoreFacts.acceptIn_id. }
  split; [done|]. split; [by rewrite Forall_forall in Hsettled|].
  rewrite <- Hids in Hin. apply list_elem_of_fmap in Hin as (ts & Hid & Hts).
  rewrite Forall_forall in Hsettled. destruct (Hsettled ts Hts) as [_ Hoff]; [done|].
  split; apply StoreFacts.forEachSegment_Throw; exists ts; (split; [done|]).
  - unfold Store.acceptIn. by rewrite <- Hid, String.eqb_refl, Hoff.
  - unfold Store.rejectIn. by rewrite <- Hid, String.eqb_refl, Hoff.
Qed.

Lemma applySuggestion_settles_witness :
  exists segments',
    snd (Store.applySuggestion sampleTarget (Some sampleStore)) = Some segments'
    /\ map TextSegment._id segments' = map TextSegment._id sampleStore
    /\ (forall ts, ts ∈ segments' ->
          TextSegment._id ts = TextSegment._id sampleTarget ->
          TextSegment.hpeText ts = TextSegment.apeText ts
          /\ TextSegment.suggestionIsActive ts = false)
    /\ fst (Store.applySuggestion sampleTarget (Some segments')) = Throw
    /\ fst (Store.discardSuggestion sampleTarget (Some segments')) = Throw.
Proof.
  apply (applySuggestion_settles sampleTarget sampleStore).
  - apply (bool_decide_unpack
             (TextSegment._id sampleTarget ∈ map TextSegment._id sampleStore)).
    vm_compute. reflexivity.
  - reflexivity.
Defined.

(** X14.  The same for [discardSuggestion]: the segment displays the machine
    translation, and the suggestion cannot be applied or discarded again. *)
Theorem discardSuggestion_settles (textSegment : TextSegment.t)
    (segments : list TextSegment.t) :
  TextSegment._id textSegment ∈ map TextSegment._id segments ->
  fst (Store.discardSuggestion textSegment (Some segments)) = Return tt ->
  exists segments',
    snd (Store.discardSuggestion textSegment (Some segments)) = Some segments'
    /\ map TextSegment._id segments' = map TextSegment._id segments
    /\ (forall ts, ts ∈ segments' ->
          TextSegment._id ts = TextSegment._id textSegment ->
          TextSegment.hpeText ts = TextSegment.mtText ts
          /\ TextSegment.suggestionIsActive ts = false)
    /\ fst (Store.applySuggestion textSegment (Some segments')) = Throw
    /\ fst (Store.discardSuggestion textSegment (Some segments')) = Throw.
Proof.
  intros Hin Hok. simpl in *. eexists. split; [done|].
  set (id := TextSegment._id textSegment) in *.
  assert (Hall : Forall (fun ts => exists ts', Store.rejectIn id ts = Return ts') segments).
  { rewrite Forall_forall. intros ts Hts.
    destruct (Store.rejectIn id ts) as [ts'|] eqn:Hf; [by eexists|].
    assert (Hth : fst (Store.forEachSegment (Store.rejectIn id) segments) = Throw)
      by (apply StoreFacts.forEachSegment_Throw; eauto).
    congruence. }
  clear Hok.
  assert (Hsettled :
            Forall (fun ts =>
                      TextSegment._id ts = id ->
                      TextSegment.hpeText ts = TextSegment.mtText ts
                      /\ TextSegment.suggestionIsActive ts = false)
              (snd (Store.forEachSegment (Store.rejectIn id) segments))).
  { clear Hin. induction Hall as [|ts segments (ts' & Hts) _ IH]; simpl; [constructor|].
    rewrite Hts. simpl. constructor; [|done].
    unfold Store.rejectIn in Hts.
    destruct (String.eqb_spec (TextSegment._id ts) id) as [Heq | Hne].
    - destruct (TextSegment.suggestionIsActive ts); simpl in Hts; [|done].
      by simplify_eq.
    - simplify_eq. done. }
  assert (Hids : map TextSegment._id
                   (snd (Store.forEachSegment (Store.rejectIn id) segments))
                 = map TextSegment._id segments).
  { apply StoreFacts.forEachSegment_ids. intros ts ts'. apply StoreFacts.rejectIn_id. }
  split; [done|]. split; [by rewrite Forall_forall in Hsettled|].
  rewrite <- Hids in Hin. apply list_elem_of_fmap in Hin as (ts & Hid & Hts).
  rewrite Forall_forall in Hsettled. destruct (Hsettled ts Hts) as [_ Hoff]; [done|].
  split; apply StoreFacts.forEachSegment_Throw; exists ts; (split; [done|]).
  - unfold Store.acceptIn. by rewrite <- Hid, String.eqb_refl, Hoff.
  - unfold Store.rejectIn. by rewrite <- Hid, String.eqb_refl, Hoff.
Qed.

Lemma discardSuggestion_settles_witness :
  exists segments',
    snd (Store.discardSuggestion sampleTarget (Some sampleStore)) = Some segments'
    /\ map TextSegment._id segments' = map TextSegment._id sampleStore
    /\ (forall ts, ts ∈ segments' ->
          TextSegment._id ts = TextSegment._id sampleTarget ->
          TextSegment.hpeText ts = TextSegment.mtText ts
          /\ TextSegment.suggestionIsActive ts = false)
    /\ fst (Store.applySuggestion sampleTarget (Some segments')) = Throw
    /\ fst (Store.discardSuggestion sampleTarget (Some segments')) = Throw.
Proof.
  apply (discardSuggestion_settles sampleTarget sampleStore).
  - apply (bool_decide_unpack
             (TextSegment._id sampleTarget ∈ map TextSegment._id sampleStore)).
    vm_compute. reflexivity.
  - reflexivity.
Defined.

(** X15.  After [applyEdits] on segments with pairwise distinct identifiers, the
    store displays every one of them with its new text (the first segment
    with its identifier, the one the builder looks up), and every segment
    whose identifier is not among them is empty and without suggestion. *)
Theorem applyEdits_shows_new_text (newTextSegments : list Translatable.t)
    (segments : list TextSegment.t) :
  NoDup (map Translatable._id newTextSegments) ->
  exists segments',
    Store.applyEdits newTextSegments (Some segments) = (Return tt, Some segments')
    /\ (forall nts, nts ∈ newTextSegments ->
          exists ts,
            findTextSegment segments' (Translatable._id nts) = Some ts
            /\ TextSegment.hpeText ts = Translatable.srcText nts)
    /\ (forall ts, ts ∈ segments' ->
          TextSegment._id ts ∉ map Translatable._id newTextSegments ->
          TextSegment.hpeText ts = [] /\ TextSegment.suggestionIsActive ts = false).
Proof.
  intros Hnd. simpl. eexists. split; [done|]. split.
  - intros nts Hnts.
    destruct (StoreFacts.findTextSegment_fold_applyEdit newTextSegments segments nts
                Hnd Hnts) as (ts & Hts & Hhpe).
    rewrite StoreFacts.findTextSegment_fmap
      by apply StoreFacts.markDeleted_id.
    rewrite Hts. simpl. eexists. split; [done|].
    unfold Store.markDeleted.
    destruct (List.find _ newTextSegments) eqn:Hfind; [done|].
    apply StoreFacts.find_translatable_None in Hfind. exfalso. apply Hfind.
    apply findTextSegment_Some in Hts as [_ ->].
    by apply list_elem_of_fmap_2.
  - intros ts Hts Hnot. apply list_elem_of_fmap in Hts as (s & -> & Hs).
    rewrite StoreFacts.markDeleted_id in Hnot.
    apply StoreFacts.find_translatable_None in Hnot.
    unfold Store.markDeleted. by rewrite Hnot.
Qed.

Lemma applyEdits_shows_new_text_witness :
  exists segments',
    Store.applyEdits
      [Translatable.mk "b" (js "Earth"); Translatable.mk "c" (js "!")]
      (Some sampleStore)
    = (Return tt, Some segments')
    /\ (forall nts,
          nts ∈ [Translatable.mk "b" (js "Earth"); Translatable.mk "c" (js "!")] ->
          exists ts,
            findTextSegment segments' (Translatable._id nts) = Some ts
            /\ TextSegment.hpeText ts = Translatable.srcText nts)
    /\ (forall ts, ts ∈ segments' ->
          TextSegment._id ts
          ∉ map Translatable._id
              [Translatable.mk "b" (js "Earth"); Translatable.mk "c" (js "!")] ->
          TextSegment.hpeText ts = [] /\ TextSegment.suggestionIsActive ts = false).
Proof.
  apply (applyEdits_shows_new_text
           [Translatable.mk "b" (js "Earth"); Translatable.mk "c" (js "!")]
           sampleStore).
  apply (bool_decide_unpack
           (NoDup (map Translatable._id
                     [Translatable.mk "b" (js "Earth"); Translatable.mk "c" (js "!")]))).
  vm_compute. reflexivity.
Defined.

Module StoreIds.
Import Store.

(** The identifiers grow at the end only, and stay pairwise distinct. *)
Definition extends (ids ids' : list string) : Prop :=
  (exists extra, ids' = ids ++ extra) /\ (NoDup ids -> NoDup ids').

Lemma extends_refl (ids : list string) : extends ids ids.
Proof. split; [exists []; by rewrite app_nil_r | done]. Qed.

Lemma extends_trans (ids1 ids2 ids3 : list string) :
  extends ids1 ids2 -> extends ids2 ids3 -> extends ids1 ids3.
Proof.
  intros [[e1 ->] Hn1] [[e2 ->] Hn2]. split.
  - exists (e1 ++ e2). by rewrite app_assoc.
  - intros Hnd. by apply Hn2, Hn1.
Qed.

Lemma applyEdit_extends (segments : list TextSegment.t) (nts : Translatable.t) :
  extends (map TextSegment._id segments) (map TextSegment._id (applyEdit segments nts)).
Proof.
  rewrite StoreFacts.applyEdit_ids.
  destruct (decide (Translatable._id nts ∈ map TextSegment._id segments)) as [Hin | Hnot].
  - rewrite bool_decide_eq_true_2, app_nil_r by done. apply extends_refl.
  - rewrite bool_decide_eq_false_2 by done. split; [by eexists|].
    intros Hnd. apply NoDup_app. split; [done|]. split; [|apply NoDup_singleton].
    intros x Hx Hx'. apply list_elem_of_singleton in Hx' as ->. done.
Qed.

Lemma fold_applyEdit_extends (nts : list Translatable.t) (segments : list TextSegment.t) :
  extends (map TextSegment._id segments)
    (map TextSegment._id (fold_left applyEdit nts segments)).
Proof.
  revert segments. induction nts as [|n nts IH]; intros segments; simpl.
  - apply extends_refl.
  - eapply extends_trans; [apply applyEdit_extends | apply IH].
Qed.

Lemma afterCall_extends (c : call) (segments : list TextSegment.t) :
  exists segments',
    afterCall c (Some segments) = Some segments'
    /\ extends (map TextSegment._id segments) (map TextSegment._id segments').
Proof.
  destruct c as [ts | ts | nts]; simpl; eexists; (split; [done|]).
  - rewrite StoreFacts.forEachSegment_ids; [apply extends_refl|].
    intros x x'. apply StoreFacts.acceptIn_id.
  - rewrite StoreFacts.forEachSegment_ids; [apply extends_refl|].
    intros x x'. apply StoreFacts.rejectIn_id.
  - rewrite map_map.
    rewrite (map_ext _ TextSegment._id (StoreFacts.markDeleted_id nts)).
    apply fold_applyEdit_extends.
Qed.

End StoreIds.

(** X16.  No call of [applySuggestion], [discardSuggestion] or [applyEdits]
    removes a segment or moves one: the identifiers of the segments only
    grow at the end, and when they were pairwise distinct they stay so. *)
Theorem store_keeps_segments (segments : list TextSegment.t) (calls : list Store.call) :
  exists segments' extra,
    Store.run calls (Some segments) = Some segments'
    /\ map TextSegment._id segments' = map TextSegment._id segments ++ extra
    /\ (NoDup (map TextSegment._id segments) -> NoDup (map TextSegment._id segments')).
Proof.
  assert (Hgen : exists segments',
             Store.run calls (Some segments) = Some segments'
             /\ StoreIds.extends (map TextSegment._id segments)
                  (map TextSegment._id segments')).
  { induction calls as [|c calls IH] using rev_ind.
    - eexists. split; [done|]. apply StoreIds.extends_refl.
    - destruct IH as (segments1 & Hrun & Hext).
      unfold Store.run in *. rewrite fold_left_app. simpl. rewrite Hrun.
      destruct (StoreIds.afterCall_extends c segments1) as (segments2 & Hc & Hext2).
      exists segments2. split; [done|]. by eapply StoreIds.extends_trans. }
  destruct Hgen as (segments' & Hrun & [[extra Hextra] Hnd]).
  by exists segments', extra.
Qed.

(** ** Settling a suggestion and moving on *)

Lemma forEachSegment_around (f : TextSegment.t -> completion TextSegment.t)
    (c c' : TextSegment.t) (before0 after0 : list TextSegment.t) :
  Forall (fun ts => f ts = Return ts) before0 ->
  Forall (fun ts => f ts = Return ts) after0 ->
  f c = Return c' ->
  Store.forEachSegment f (before0 ++ c :: after0) = (Return tt, before0 ++ c' :: after0).
Proof.
  intros Hb Ha Hc.
  assert (Hafter : Store.forEachSegment f after0 = (Return tt, after0)).
  { clear Hb. induction Ha as [|ts l Hts _ IH]; simpl; [done|]. by rewrite Hts, IH. }
  induction Hb as [|ts l Hts _ IH]; simpl.
  - by rewrite Hc, Hafter.
  - by rewrite Hts, IH.
Qed.

Lemma other_ids_untouched (f : string -> TextSegment.t -> completion TextSegment.t)
    (id : string) (l : list TextSegment.t) :
  (forall ts, TextSegment._id ts <> id -> f id ts = Return ts) ->
  id ∉ map TextSegment._id l ->
  Forall (fun ts => f id ts = Return ts) l.
Proof.
  intros Hf Hnot. rewrite Forall_forall. intros ts Hts. apply Hf.
  intros Heq. apply Hnot. rewrite <- Heq. by apply list_elem_of_fmap_2.
Qed.

(** X17.  Settling a suggestion changes one segment only and does not change
    where the selection moves next: when the segment occurs once in the
    store and its suggestion is active, [applySuggestion] and
    [discardSuggestion] succeed, the segments before and after it are the
    same as before, the segment itself keeps its identifier, shows the
    suggested (resp. the translated) text and has no active suggestion any
    more, and [getIdOfAdjacentTextSegmentWithActiveSuggestion] leads from
    the segment to the same neighbour as before, in either direction. *)
Theorem settling_keeps_neighbours (textSegment c : TextSegment.t)
    (before0 after0 : list TextSegment.t) (direction : Direction) :
  TextSegment._id c = TextSegment._id textSegment ->
  TextSegment.suggestionIsActive c = true ->
  TextSegment._id textSegment ∉ map TextSegment._id before0 ->
  TextSegment._id textSegment ∉ map TextSegment._id after0 ->
  let segments := before0 ++ c :: after0 in
  exists accepted0 discarded0,
    Store.applySuggestion textSegment (Some segments)
    = (Return tt, Some (before0 ++ accepted0 :: after0))
    /\ Store.discardSuggestion textSegment (Some segments)
       = (Return tt, Some (before0 ++ discarded0 :: after0))
    /\ (TextSegment._id accepted0 = TextSegment._id c
        /\ TextSegment.hpeText accepted0 = TextSegment.apeText c
        /\ TextSegment.suggestionIsActive accepted0 = false)
    /\ (TextSegment._id discarded0 = TextSegment._id c
        /\ TextSegment.hpeText discarded0 = TextSegment.mtText c
        /\ TextSegment.suggestionIsActive discarded0 = false)
    /\ getIdOfAdjacentTextSegmentWithActiveSuggestion textSegment
         (before0 ++ accepted0 :: after0) direction
       = getIdOfAdjacentTextSegmentWithActiveSuggestion textSegment segments direction
    /\ getIdOfAdjacentTextSegmentWithActiveSuggestion textSegment
         (before0 ++ discarded0 :: after0) direction
       = getIdOfAdjacentTextSegmentWithActiveSuggestion textSegment segments direction.
Proof.
  intros Hc Hact Hb Ha segments. subst segments.
  set (id := TextSegment._id textSegment) in *.
  assert (Haccept : forall ts, TextSegment._id ts <> id -> Store.acceptIn id ts = Return ts).
  { intros ts Hne. unfold Store.acceptIn.
    by destruct (String.eqb_spec (TextSegment._id ts) id). }
  assert (Hreject : forall ts, TextSegment._id ts <> id -> Store.rejectIn id ts = Return ts).
  { intros ts Hne. unfold Store.rejectIn.
    by destruct (String.eqb_spec (TextSegment._id ts) id). }
  destruct (Store.acceptIn id c) as [ca|] eqn:Hca;
    [|unfold Store.acceptIn in Hca; by rewrite Hc, String.eqb_refl, Hact in Hca].
  destruct (Store.rejectIn id c) as [cr|] eqn:Hcr;
    [|unfold Store.rejectIn in Hcr; by rewrite Hc, String.eqb_refl, Hact in Hcr].
  exists ca, cr.
  unfold Store.applySuggestion, Store.discardSuggestion. fold id.
  rewrite (forEachSegment_around (Store.acceptIn id) c ca before0 after0);
    [|by apply other_ids_untouched..|done].
  rewrite (forEachSegment_around (Store.rejectIn id) c cr before0 after0);
    [|by apply other_ids_untouched..|done].
  split; [done|]. split; [done|].
  split.
  { unfold Store.acceptIn in Hca. rewrite Hc, String.eqb_refl, Hact in Hca.
    simpl in Hca. by injection Hca as <-. }
  split.
  { unfold Store.rejectIn in Hcr. rewrite Hc, String.eqb_refl, Hact in Hcr.
    simpl in Hcr. by injection Hcr as <-. }
  apply StoreFacts.acceptIn_id in Hca. apply StoreFacts.rejectIn_id in Hcr.
  destruct (adjacent_around textSegment c before0 after0 Hc Hb Ha) as [Hf0 Hb0].
  destruct (adjacent_around textSegment ca before0 after0 (eq_trans Hca Hc) Hb Ha)
    as [Hf1 Hb1].
  destruct (adjacent_around textSegment cr before0 after0 (eq_trans Hcr Hc) Hb Ha)
    as [Hf2 Hb2].
  destruct direction; split; congruence.
Qed.

Lemma settling_keeps_neighbours_witness :
  let before0 := map numberedSegment (seq 0 4) in
  let after0 := map numberedSegment (seq 5 5) in
  let segments := before0 ++ numberedSegment 4 :: after0 in
  exists accepted0 discarded0,
    Store.applySuggestion (numberedSegment 4) (Some segments)
    = (Return tt, Some (before0 ++ accepted0 :: after0))
    /\ Store.discardSuggestion (numberedSegment 4) (Some segments)
       = (Return tt, Some (before0 ++ discarded0 :: after0))
    /\ (TextSegment._id accepted0 = TextSegment._id (numberedSegment 4)
        /\ TextSegment.hpeText accepted0 = TextSegment.apeText (numberedSegment 4)
        /\ TextSegment.suggestionIsActive accepted0 = false)
    /\ (TextSegment._id discarded0 = TextSegment._id (numberedSegment 4)
        /\ TextSegment.hpeText discarded0 = TextSegment.mtText (numberedSegment 4)
        /\ TextSegment.suggestionIsActive discarded0 = false)
    /\ getIdOfAdjacentTextSegmentWithActiveSuggestion (numberedSegment 4)
         (before0 ++ accepted0 :: after0) forward
       = getIdOfAdjacentTextSegmentWithActiveSuggestion (numberedSegment 4) segments forward
    /\ getIdOfAdjacentTextSegmentWithActiveSuggestion (numberedSegment 4)
         (before0 ++ discarded0 :: after0) forward
       = getIdOfAdjacentTextSegmentWithActiveSuggestion (numberedSegment 4) segments forward.
Proof.
  apply (settling_keeps_neighbours (numberedSegment 4) (numberedSegment 4)
           (map numberedSegment (seq 0 4)) (map numberedSegment (seq 5 5)) forward).
  - reflexivity.
  - reflexivity.
  - apply (bool_decide_unpack
             (TextSegment._id (numberedSegment 4)
              ∉ map TextSegment._id (map numberedSegment (seq 0 4)))).
    vm_compute. reflexivity.
  - apply (bool_decide_unpack
             (TextSegment._id (numberedSegment 4)
              ∉ map TextSegment._id (map numberedSegment (seq 5 5)))).
    vm_compute. reflexivity.
Defined.

(** ** Merging segments: the text *)

(** The text a list of segments spells. *)
Definition segmentsText (l : list ParsedSegment) : jstring :=
  concat (map Translatable.srcText l).

Lemma segmentsText_app (l1 l2 : list ParsedSegment) :
  segmentsText (l1 ++ l2) = segmentsText l1 ++ segmentsText l2.
Proof. unfold segmentsText. by rewrite map_app, concat_app. Qed.

Lemma truthy_text_false (s : option jstring) :
  match s with Some t => truthy_text t | None => false end = false ->
  default [] s = [].
Proof. destruct s as [[|c t]|]; simpl; done. Qed.

Module MergeText.
Import Merge MergeFacts.

(** The state of the loop after the segments of [p], all of which have a
    non-empty identifier. *)
Record keeps (v : vars) (p : list ParsedSegment) : Prop := {
  keeps_text :
    segmentsText (cleanedTextSegments v) ++ default [] (currentText v)
    = segmentsText p;
  keeps_id : is_Some (currentText v) -> truthy_idValue (currentId v) = true;
  keeps_nonempty :
    Forall (fun ts => Translatable.srcText ts <> []) (cleanedTextSegments v);
  keeps_truthy :
    Forall (fun ts => truthy_value (Translatable._id ts) = true)
      (cleanedTextSegments v)
}.

Lemma keeps_initial : keeps initial [].
Proof. split; simpl; done. Qed.

Lemma push_keeps (v : vars) :
  truthy_currentText v = true -> truthy_idValue (currentId v) = true ->
  Forall (fun ts => Translatable.srcText ts <> []) (cleanedTextSegments v) ->
  Forall (fun ts => truthy_value (Translatable._id ts) = true) (cleanedTextSegments v) ->
  segmentsText (cleanedTextSegments (push v))
  = segmentsText (cleanedTextSegments v) ++ default [] (currentText v)
  /\ Forall (fun ts => Translatable.srcText ts <> []) (cleanedTextSegments (push v))
  /\ Forall (fun ts => truthy_value (Translatable._id ts) = true)
       (cleanedTextSegments (push v)).
Proof.
  intros Ht Hi Hne Htr. unfold push. simpl. rewrite segmentsText_app.
  unfold truthy_currentText in Ht.
  destruct (currentText v) as [t|]; [|done].
  destruct (currentId v) as [c|]; [|done]. simpl in *.
  split; [unfold segmentsText; simpl; by rewrite app_nil_r|].
  split; apply Forall_app; (split; [done|]); constructor; try done.
  simpl. by destruct t.
Qed.

Lemma step_keeps (v : vars) (p : list ParsedSegment) (ts : ParsedSegment) :
  truthy_value (Translatable._id ts) = true ->
  keeps v p -> keeps (step v ts) (p ++ [ts]).
Proof.
  intros Hid [Htext Hcur Hne Htr]. unfold step.
  assert (Hp : segmentsText (p ++ [ts]) = segmentsText p ++ Translatable.srcText ts).
  { rewrite segmentsText_app. unfold segmentsText at 2. simpl. by rewrite app_nil_r. }
  destruct (decide (Some (Translatable._id ts) = currentId v)) as [Heq | Hneq].
  - rewrite bool_decide_eq_true_2 by done. simpl.
    split; simpl; try done.
    + by rewrite Hp, app_assoc, Htext.
    + intros _. by rewrite <- Heq.
  - rewrite bool_decide_eq_false_2 by done. simpl.
    destruct (truthy_currentText v && truthy_idValue (currentId v)) eqn:Hpush.
    + apply andb_prop in Hpush as [Ht Hi].
      destruct (push_keeps v Ht Hi Hne Htr) as (Hp1 & Hp2 & Hp3).
      split; cbn [cleanedTextSegments currentText currentId default]; try done.
      by rewrite Hp, Hp1, Htext.
    + split; simpl; try done.
      rewrite Hp, <- Htext. f_equal.
      assert (Hempty : default [] (currentText v) = []); [|by rewrite Hempty, app_nil_r].
      apply andb_false_elim in Hpush as [Ht | Hi].
      * by apply truthy_text_false.
      * destruct (currentText v) as [t|] eqn:Et; [|done].
        rewrite Hcur in Hi by (by eexists). done.
Qed.

Lemma fold_keeps (rest p : list ParsedSegment) (v : vars) :
  Forall (fun ts => truthy_value (Translatable._id ts) = true) rest ->
  keeps v p -> keeps (fold_left step rest v) (p ++ rest).
Proof.
  revert p v. induction rest as [|ts rest IH]; intros p v Hall Hk; simpl.
  - by rewrite app_nil_r.
  - apply Forall_cons in Hall as [Hts Hall].
    replace (p ++ ts :: rest) with ((p ++ [ts]) ++ rest) by (by rewrite <- app_assoc).
    apply IH; [done|]. by apply step_keeps.
Qed.

Lemma finish_keeps (v : vars) (p : list ParsedSegment) :
  keeps v p ->
  segmentsText (cleanedTextSegments (finish v)) = segmentsText p
  /\ Forall (fun ts => Translatable.srcText ts <> []) (cleanedTextSegments (finish v))
  /\ Forall (fun ts => truthy_value (Translatable._id ts) = true)
       (cleanedTextSegments (finish v)).
Proof.
  intros [Htext Hcur Hne Htr]. unfold finish.
  destruct (truthy_currentText v) eqn:Ht.
  - assert (Hi : truthy_idValue (currentId v) = true).
    { apply Hcur. unfold truthy_currentText in Ht.
      destruct (currentText v); [by eexists | done]. }
    destruct (push_keeps v Ht Hi Hne Htr) as (Hp1 & Hp2 & Hp3).
    by rewrite Hp1, Htext.
  - split; [|done]. rewrite <- Htext.
    rewrite (truthy_text_false (currentText v)) by done. by rewrite app_nil_r.
Qed.

End MergeText.

(** X18.  [mergeTextSegmentsWithSameId] loses no text: for segments with
    non-empty identifiers, the merged segments spell what the segments
    spelled; none of them has an empty text or an empty identifier. *)
Theorem merge_keeps_text (textSegments0 : list ParsedSegment) :
  Forall (fun ts => truthy_value (Translatable._id ts) = true) textSegments0 ->
  segmentsText (mergeTextSegmentsWithSameId textSegments0) = segmentsText textSegments0
  /\ Forall (fun ts => Translatable.srcText ts <> []
                       /\ truthy_value (Translatable._id ts) = true)
       (mergeTextSegmentsWithSameId textSegments0).
Proof.
  intros Hall. rewrite MergeFacts.merge_unfold.
  destruct textSegments0 as [|ts l]; [by split|].
  destruct (MergeText.finish_keeps _ (ts :: l)
              (MergeText.fold_keeps (ts :: l) [] Merge.initial Hall
                 MergeText.keeps_initial)) as (Ht & Hne & Htr).
  split; [done|].
  rewrite Forall_forall in Hne, Htr |- *. intros x Hx. split; [by apply Hne | by apply Htr].
Qed.

Lemma merge_keeps_text_witness :
  segmentsText
    (mergeTextSegmentsWithSameId
       [Translatable.mk (IdString "a") (js "This "); Translatable.mk (IdString "a") (js "can");
        Translatable.mk (IdString "b") (js ""); Translatable.mk (IdString "c") (js "happen.")])
  = segmentsText
      [Translatable.mk (IdString "a") (js "This "); Translatable.mk (IdString "a") (js "can");
       Translatable.mk (IdString "b") (js ""); Translatable.mk (IdString "c") (js "happen.")]
  /\ Forall (fun ts => Translatable.srcText ts <> []
                       /\ truthy_value (Translatable._id ts) = true)
       (mergeTextSegmentsWithSameId
          [Translatable.mk (IdString "a") (js "This "); Translatable.mk (IdString "a") (js "can");
           Translatable.mk (IdString "b") (js ""); Translatable.mk (IdString "c") (js "happen.")]).
Proof.
  apply (merge_keeps_text
           [Translatable.mk (IdString "a") (js "This "); Translatable.mk (IdString "a") (js "can");
            Translatable.mk (IdString "b") (js ""); Translatable.mk (IdString "c") (js "happen.")]).
  repeat constructor.
Defined.

(** ** Removing duplicate text nodes *)

(** The loop of [removeDuplicateTextNodes], by recursion on the nodes. *)
Fixpoint dedupFrom (lastId : option IdValue) (content0 : list ParsedStructure)
    : list ParsedStructure :=
  match content0 with
  | [] => []
  | node :: content1 =>
      (if negb (truthy_idValue (textSegmentId node))
          || negb (bool_decide (lastId = textSegmentId node))
       then [node] else [])
      ++ dedupFrom (textSegmentId node) content1
  end.

Lemma removeDuplicateTextNodes_dedupFrom (content0 : list ParsedStructure) :
  removeDuplicateTextNodes content0 = dedupFrom None content0.
Proof.
  unfold removeDuplicateTextNodes.
  assert (Hgen : forall l acc lastId,
             fst (fold_left
                    (fun '(newContent, lastId) node =>
                       (if negb (truthy_idValue (textSegmentId node))
                           || negb (bool_decide (lastId = textSegmentId node))
                        then newContent ++ [node] else newContent,
                        textSegmentId node))
                    l (acc, lastId))
             = acc ++ dedupFrom lastId l).
  { induction l as [|node l IH]; intros acc lastId; simpl.
    - by rewrite app_nil_r.
    - rewrite IH. destruct (negb _ || negb _); simpl; [by rewrite <- app_assoc | done]. }
  apply (Hgen content0 [] None).
Qed.

Lemma dedupFrom_sublist (lastId : option IdValue) (content0 : list ParsedStructure) :
  dedupFrom lastId content0 `sublist_of` content0.
Proof.
  revert lastId. induction content0 as [|node l IH]; intros lastId; simpl; [done|].
  destruct (negb _ || negb _); simpl.
  - by apply sublist_skip.
  - by apply sublist_cons.
Qed.

Lemma dedupFrom_head (lastId : option IdValue) (content0 : list ParsedStructure)
    (y : ParsedStructure) (rest : list ParsedStructure) :
  dedupFrom lastId content0 = y :: rest ->
  truthy_idValue lastId = true -> lastId <> textSegmentId y.
Proof.
  revert lastId. induction content0 as [|node l IH]; intros lastId; simpl; [done|].
  destruct (truthy_idValue (textSegmentId node)) eqn:Hnode; simpl.
  - destruct (decide (lastId = textSegmentId node)) as [Heq | Hne].
    + rewrite bool_decide_eq_true_2 by done. simpl. intros Hy Hl.
      rewrite Heq. apply (IH _ Hy). done.
    + rewrite bool_decide_eq_false_2 by done. simpl. intros [= <- _] _. done.
  - intros [= <- _] Hl Heq. rewrite Heq in Hl. congruence.
Qed.

(** No node follows a node with the same non-empty [textSegmentId]. *)
Fixpoint no_repeat (content0 : list ParsedStructure) : Prop :=
  match content0 with
  | x :: content1 =>
      match content1 with
      | y :: _ => truthy_idValue (textSegmentId x) = true -> textSegmentId x <> textSegmentId y
      | [] => True
      end
      /\ no_repeat content1
  | [] => True
  end.

Lemma dedupFrom_no_repeat (lastId : option IdValue) (content0 : list ParsedStructure) :
  no_repeat (dedupFrom lastId content0).
Proof.
  revert lastId. induction content0 as [|node l IH]; intros lastId; simpl; [done|].
  destruct (negb _ || negb _); simpl; [|apply IH].
  split; [|apply IH].
  destruct (dedupFrom (textSegmentId node) l) as [|y rest] eqn:Hd; [done|].
  intros Ht. by apply (dedupFrom_head _ _ _ _ Hd).
Qed.

Lemma no_repeat_lookup (l1 l2 : list ParsedStructure) (x y : ParsedStructure) :
  no_repeat (l1 ++ x :: y :: l2) ->
  truthy_idValue (textSegmentId x) = true -> textSegmentId x <> textSegmentId y.
Proof.
  induction l1 as [|w l1 IH]; simpl; [tauto|]. intros [_ Hl]. by apply IH.
Qed.

Lemma dedupFrom_keeps_plain (lastId : option IdValue) (content0 : list ParsedStructure) :
  List.filter (fun node => negb (truthy_idValue (textSegmentId node)))
    (dedupFrom lastId content0)
  = List.filter (fun node => negb (truthy_idValue (textSegmentId node))) content0.
Proof.
  revert lastId. induction content0 as [|node l IH]; intros lastId; simpl; [done|].
  destruct (truthy_idValue (textSegmentId node)) eqn:Hnode; simpl.
  - destruct (negb (bool_decide _)); simpl; rewrite ?Hnode; simpl; apply IH.
  - rewrite Hnode. simpl. by rewrite IH.
Qed.

(** X19.  [removeDuplicateTextNodes] returns a sub-list of the nodes that still
    holds every node without a [textSegmentId], and in which no node
    follows a node with the same non-empty [textSegmentId]. *)
Theorem removeDuplicateTextNodes_no_repeat (content0 : list ParsedStructure) :
  removeDuplicateTextNodes content0 `sublist_of` content0
  /\ List.filter (fun node => negb (truthy_idValue (textSegmentId node)))
       (removeDuplicateTextNodes content0)
     = List.filter (fun node => negb (truthy_idValue (textSegmentId node))) content0
  /\ forall l1 x y l2,
       removeDuplicateTextNodes content0 = l1 ++ x :: y :: l2 ->
       truthy_idValue (textSegmentId x) = true ->
       textSegmentId x <> textSegmentId y.
Proof.
  rewrite removeDuplicateTextNodes_dedupFrom. split; [apply dedupFrom_sublist|].
  split; [apply dedupFrom_keeps_plain|].
  intros l1 x y l2 Heq.
  pose proof (dedupFrom_no_repeat None content0) as Hn. rewrite Heq in Hn.
  by apply (no_repeat_lookup l1 l2).
Qed.

(** ** The structure the parser returns *)

(** X20.  Whatever the document, the structure that [parseEditorContent] returns
    is a skeleton: each of its nodes has at most one of [text],
    [textSegmentId] and [content], which is what the builder expects. *)
Theorem parsed_structure_is_skeleton (uuid : nat -> string) (T : JSONContent) :
  match snd (parseEditorContent uuid T) with
  | Some structure => skeleton structure
  | None => True
  end.
Proof.
  unfold parseEditorContent. cbv zeta. cbn [snd].
  pose proof (parse_skeleton uuid T [] ∅ 0) as Hsk.
  destruct (structures (parseEditorContentInternal uuid T [] ∅ 0)) as [|s rest];
    [done|].
  by apply Forall_cons in Hsk as [Hsk _].
Qed.

(** ** What the builder displays *)

(** The text with which the builder displays a segment. *)
Definition shownText (ts : TextSegment.t) (takeSource : bool) : jstring :=
  if takeSource then TextSegment.srcText ts
  else if TextSegment.suggestionIsActive ts
       then spelled (TextSegment.mtTextStructure ts)
       else TextSegment.hpeText ts.

(** The text of a skeleton once every segment leaf is replaced by the text
    its segment is displayed with. *)
Fixpoint displayText (segments : list TextSegment.t) (takeSource : bool)
    (structure : JSONContent) : jstring :=
  match structure with
  | mkJSONContent _ _ content0 text0 _ id0 =>
      match text0 with
      | Some text1 => text1
      | None =>
          match id0 with
          | Some id =>
              match findTextSegment segments id with
              | Some ts => shownText ts takeSource
              | None => []
              end
          | None =>
              match content0 with
              | Some content1 => concat (map (displayText segments takeSource) content1)
              | None => []
              end
          end
      end
  end.

(** No text node of the tree is empty. *)
Definition no_empty_text (node : JSONContent) : Prop :=
  Forall (fun n => text n <> Some []) (nodes node).

Definition nonEmptyRegion (x : JSONContent) : bool :=
  negb (bool_decide (text x = Some [])).

Lemma nonEmptyRegion_textRegion (t : jstring) (m : list Mark.t) :
  nonEmptyRegion (textRegion t m) = truthy_text t.
Proof.
  unfold nonEmptyRegion. cbn [textRegion text]. destruct t as [|c t].
  - by rewrite bool_decide_eq_true_2.
  - by rewrite bool_decide_eq_false_2.
Qed.

Lemma no_empty_text_textRegion (c : N) (t : jstring) (m : list Mark.t) :
  no_empty_text (textRegion (c :: t) m).
Proof. unfold no_empty_text. simpl. by constructor. Qed.

Lemma spans_filtered (m : TextSegmentStructureElement -> list Mark.t)
    (l : list TextSegmentStructureElement) :
  concat (map leafText
            (List.filter nonEmptyRegion (map (fun s => textRegion (value s) (m s)) l)))
  = spelled l
  /\ Forall no_empty_text
       (List.filter nonEmptyRegion (map (fun s => textRegion (value s) (m s)) l)).
Proof.
  unfold spelled. induction l as [|s l [IH1 IH2]]; [by split|].
  cbn [map List.filter concat]. rewrite nonEmptyRegion_textRegion.
  destruct (value s) as [|c t]; cbn [truthy_text].
  - by split.
  - cbn [map concat leafText textRegion default app].
    rewrite app_nil_r, IH1. split; [done|].
    constructor; [apply no_empty_text_textRegion | done].
Qed.

Lemma regions_filtered (ts : TextSegment.t) (takeSource : bool) :
  concat (map leafText (List.filter nonEmptyRegion (textSegmentRegions ts takeSource)))
  = shownText ts takeSource
  /\ Forall no_empty_text (List.filter nonEmptyRegion (textSegmentRegions ts takeSource)).
Proof.
  assert (Hone : forall t m,
             concat (map leafText (List.filter nonEmptyRegion [textRegion t m])) = t
             /\ Forall no_empty_text (List.filter nonEmptyRegion [textRegion t m])).
  { intros t m. cbn [List.filter]. rewrite nonEmptyRegion_textRegion.
    destruct t as [|c t]; cbn [truthy_text]; [by split|].
    cbn [map concat leafText textRegion default app]. rewrite !app_nil_r.
    split; [done|]. constructor; [apply no_empty_text_textRegion | done]. }
  unfold textSegmentRegions, shownText, hasActiveSuggestion. cbv zeta.
  destruct (TextSegment.suggestionIsActive ts); [|destruct takeSource; apply Hone].
  destruct takeSource; [apply Hone|].
  apply spans_filtered.
Qed.

Lemma skeleton_child (type0 : option string) (attrs0 : option Attrs)
    (children : list JSONContent) (text0 : option jstring)
    (marks0 : option (list Mark.t)) (id0 : option string) (child : JSONContent) :
  skeleton (mkJSONContent type0 attrs0 (Some children) text0 marks0 id0) ->
  child ∈ children -> skeleton child.
Proof.
  unfold skeleton. simpl. intros Hsk Hin.
  apply Forall_cons in Hsk as [_ Hsk].
  rewrite Forall_forall in Hsk |- *. intros n Hn. apply Hsk.
  apply elem_of_concat_map. by exists child.
Qed.

Lemma buildEach_facts (segments : list TextSegment.t) (takeSource : bool)
    (children acc newContent : list JSONContent) :
  Forall (fun child =>
            forall objs,
              buildEditorContentWithMarksInternal child segments takeSource = Return objs ->
              concat (map leafText objs) = displayText segments takeSource child
              /\ Forall no_empty_text objs) children ->
  buildEach
    (fun element => buildEditorContentWithMarksInternal element segments takeSource)
    children acc = Return newContent ->
  Forall no_empty_text acc ->
  concat (map leafText newContent)
  = concat (map leafText acc) ++ concat (map (displayText segments takeSource) children)
  /\ Forall no_empty_text newContent.
Proof.
  intros Hall. revert acc. induction Hall as [|child children Hchild _ IH];
    intros acc Hb Hacc; simpl in *.
  - simplify_eq. by rewrite app_nil_r.
  - destruct (buildEditorContentWithMarksInternal child segments takeSource)
      as [objs|] eqn:Hc; [|done].
    destruct (Hchild objs eq_refl) as [Htext Hne].
    destruct (IH _ Hb) as [Ht Hn]; [by apply Forall_app|].
    split; [|done]. by rewrite Ht, map_app, concat_app, Htext, <- app_assoc.
Qed.

Lemma build_facts (structure : JSONContent) (segments : list TextSegment.t)
    (takeSource : bool) (objs : list JSONContent) :
  skeleton structure ->
  buildEditorContentWithMarksInternal structure segments takeSource = Return objs ->
  concat (map leafText objs) = displayText segments takeSource structure
  /\ Forall no_empty_text objs.
Proof.
  revert objs.
  induction structure as [type0 attrs0 content0 text0 marks0 id0 IH]
    using JSONContent_tree_ind.
  intros objs Hsk Hb.
  pose proof Hsk as Hrole. unfold skeleton in Hrole. simpl in Hrole.
  apply Forall_cons in Hrole as [Hrole _]. unfold one_role in Hrole. simpl in Hrole.
  simpl in Hb |- *. destruct text0 as [text1|].
  - destruct id0; [done|]. destruct content0; [done|].
    destruct text1 as [|c t]; simpl in Hb; simplify_eq; simpl; [by split|].
    split; [by rewrite !app_nil_r|].
    constructor; [|done]. unfold no_empty_text. simpl. by constructor.
  - destruct id0 as [id|].
    + destruct (findTextSegment segments id) as [ts|]; [|done]. simplify_eq.
      apply regions_filtered.
    + destruct content0 as [children|].
      * destruct (buildEach _ children []) as [newContent|] eqn:Heach; [|done].
        simplify_eq.
        destruct (buildEach_facts segments takeSource children [] newContent)
          as [Ht Hn]; [|done|done|].
        { rewrite Forall_forall in IH |- *. intros child Hchild objs Hobjs.
          apply IH; [done| |done]. by eapply skeleton_child. }
        simpl in *. rewrite app_nil_r. split; [done|].
        constructor; [|done]. unfold no_empty_text. simpl.
        constructor; [done|].
        rewrite Forall_forall in Hn |- *. intros n Hin.
        apply elem_of_concat_map in Hin as (child & Hchild & Hin).
        specialize (Hn child Hchild). unfold no_empty_text in Hn.
        rewrite Forall_forall in Hn. by apply Hn.
      * simplify_eq. simpl. split; [done|].
        constructor; [|done]. unfold no_empty_text. simpl. by constructor.
Qed.

(** X21.  The builder adds no text and drops none: the text of the tree it
    returns for a skeleton is the text of the skeleton's literals and, for
    each segment leaf, the text its segment is displayed with (the source
    text, the spans of the machine translation, or the post-edited text). *)
Theorem build_displays_segments (structure : JSONContent)
    (segments : list TextSegment.t) (takeSource : bool) (built : JSONContent) :
  skeleton structure ->
  text structure = None -> textSegmentId structure = None ->
  buildEditorContentWithMarks structure segments takeSource = Return (Some built) ->
  leafText built = displayText segments takeSource structure.
Proof.
  intros Hsk Htext Hid. unfold buildEditorContentWithMarks.
  destruct (buildEditorContentWithMarksInternal structure segments takeSource)
    as [objs|] eqn:Hb; [|done].
  destruct (build_facts structure segments takeSource objs Hsk Hb) as [Ht _].
  intros [= Hhead]. rewrite <- Ht.
  destruct structure as [type0 attrs0 content0 text0 marks0 id0].
  simpl in Htext, Hid. subst. simpl in Hb.
  destruct content0 as [children|].
  - destruct (buildEach _ children []); [|done]. simplify_eq.
    simpl in Hhead. simplify_eq. simpl. by rewrite !app_nil_r.
  - simplify_eq. simpl in Hhead. by simplify_eq.
Qed.

Lemma sampleSkeleton_skeleton : skeleton sampleSkeleton.
Proof. unfold skeleton. simpl. repeat constructor. Qed.

Lemma build_displays_segments_witness :
  leafText sampleBuilt = displayText sampleStore false sampleSkeleton.
Proof.
  apply (build_displays_segments sampleSkeleton sampleStore false sampleBuilt).
  - apply sampleSkeleton_skeleton.
  - reflexivity.
  - reflexivity.
  - reflexivity.
Defined.

(** X22.  Text nodes cannot be empty: in the tree the builder returns for a
    skeleton, no node has the empty string as its text. *)
Theorem build_makes_no_empty_text (structure : JSONContent)
    (segments : list TextSegment.t) (takeSource : bool) (built : JSONContent) :
  skeleton structure ->
  buildEditorContentWithMarks structure segments takeSource = Return (Some built) ->
  Forall (fun node => text node <> Some []) (nodes built).
Proof.
  intros Hsk. unfold buildEditorContentWithMarks.
  destruct (buildEditorContentWithMarksInternal structure segments takeSource)
    as [objs|] eqn:Hb; [|done].
  destruct (build_facts structure segments takeSource objs Hsk Hb) as [_ Hn].
  intros [= Hhead].
  destruct objs as [|o objs]; [done|]. simpl in Hhead. simplify_eq.
  by apply Forall_cons in Hn as [Hn _].
Qed.

Lemma build_makes_no_empty_text_witness :
  Forall (fun node => text node <> Some []) (nodes sampleBuilt).
Proof.
  apply (build_makes_no_empty_text sampleSkeleton sampleStore false sampleBuilt).
  - apply sampleSkeleton_skeleton.
  - reflexivity.
Defined.

(** ** A translation that has just arrived *)

Lemma regions_text (ts : TextSegment.t) (takeSource : bool) :
  concat (map leafText (textSegmentRegions ts takeSource)) = shownText ts takeSource.
Proof.
  unfold textSegmentRegions, shownText, hasActiveSuggestion. cbv zeta.
  destruct (TextSegment.suggestionIsActive ts);
    [|destruct takeSource; simpl; by rewrite !app_nil_r].
  destruct takeSource; [simpl; by rewrite !app_nil_r|].
  unfold spelled. induction (TextSegment.mtTextStructure ts) as [|s l IH]; [done|].
  cbn [map concat leafText textRegion default]. by rewrite app_nil_r, IH.
Qed.

(** X23.  When the diff function returns edit scripts, the segments that
    [updateState] derives from the translation are displayed with their
    machine translation in the editor of the translation and with their
    source text in the editor of the source, whether or not a suggestion
    is active; a suggestion is active exactly when the two translations
    differ, and the spans of the suggestion spell the suggested text. *)
Theorem fresh_translation_displays (diffWords : jstring -> jstring -> list Change.t)
    (ts : TranslationResult.t) :
  edit_script
    (diffWords (TranslationResult.mtText ts) (TranslationResult.apeText ts))
    (TranslationResult.mtText ts) (TranslationResult.apeText ts) ->
  let augmented := Store.augment diffWords ts in
  concat (map leafText (textSegmentRegions augmented false)) = TranslationResult.mtText ts
  /\ concat (map leafText (textSegmentRegions augmented true))
     = TranslationResult.srcText ts
  /\ spelled (TextSegment.apeTextStructure augmented) = TranslationResult.apeText ts
  /\ (TextSegment.suggestionIsActive augmented = false
      <-> TranslationResult.mtText ts = TranslationResult.apeText ts).
Proof.
  intros [Hfrom Hto] augmented. rewrite !regions_text. subst augmented.
  unfold shownText. simpl.
  rewrite !getHighlightsWithStrategy_spelled, Hfrom, Hto.
  split; [by destruct (negb _)|]. split; [done|]. split; [done|].
  rewrite negb_false_iff. apply bool_decide_eq_true.
Qed.

Lemma fresh_translation_displays_witness :
  let ts :=
    TranslationResult.mk "a" (js "kleine Welt") (js "small World") (js "little World") in
  let augmented := Store.augment coarseDiff ts in
  concat (map leafText (textSegmentRegions augmented false)) = TranslationResult.mtText ts
  /\ concat (map leafText (textSegmentRegions augmented true))
     = TranslationResult.srcText ts
  /\ spelled (TextSegment.apeTextStructure augmented) = TranslationResult.apeText ts
  /\ (TextSegment.suggestionIsActive augmented = false
      <-> TranslationResult.mtText ts = TranslationResult.apeText ts).
Proof.
  apply (fresh_translation_displays coarseDiff
           (TranslationResult.mk "a" (js "kleine Welt") (js "small World")
              (js "little World"))).
  split; reflexivity.
Defined.

(** ** From an edit to the next display *)



Module MergeCover.
Import Merge MergeFacts.






End MergeCover.






Section ParseRefers.
Variable uuid : nat -> string.
Hypothesis uuid_truthy : forall j, truthy_string (uuid j) = true.











End ParseRefers.

(** *** Results of the declared types *)


Module MergeIds.
Import Merge MergeFacts.






End MergeIds.


Section ParseStrings.
Variable uuid : nat -> string.






End ParseStrings.










Section ParseDeclared.
Variable uuid : nat -> string.








End ParseDeclared.



(** The condition is needed: a mark that carries [__proto__] makes the
    parser return the object [Object.prototype] for an identifier, which is
    no value of the declared type. *)
Lemma prototype_name_breaks_types :
  ~ exists segments structure,
      parseEditorContent sampleUuid
        (docNode [paragraph [markedText "__proto__" "Three"]])
      = (map segmentAtRunTime segments,
         match structure with Some tree => Some (atRunTime tree) | None => None end).
Proof.
  intros (segments & structure & Heq).
  assert (Hfst : fst (parseEditorContent sampleUuid
                        (docNode [paragraph [markedText "__proto__" "Three"]]))
                 = map segmentAtRunTime segments) by (by rewrite Heq).
  vm_compute in Hfst. destruct segments as [|ts segments]; [done|].
  simpl in Hfst. by injection Hfst.
Qed.




(** Without the condition on the marks the cycle breaks: a mark that
    carries [__proto__] makes the parser return the object
    [Object.prototype] for an identifier, which is no value of the declared
    type. *)
Example edit_cycle_prototype :
  parseEditorContent sampleUuid (docNode [paragraph [markedText "__proto__" "Three"]])
  = ( [Translatable.mk ObjectPrototype (js "Three")],
      Some (docNode [paragraph [segmentLeaf (Some "text") None ObjectPrototype]]) ).
Proof. reflexivity. Qed.

(** ** A segment that is built and parsed again *)

(** A text node that the builder makes for the segment [id]. *)
Definition regionOf (id : string) (r : JSONContent) : Prop :=
  exists t m,
    r = textRegion t m /\ t <> [] /\ getTextSegmentIdFromMarks m = Some id.

Lemma regions_regionOf (ts : TextSegment.t) (takeSource : bool) :
  Forall (regionOf (TextSegment._id ts))
    (List.filter nonEmptyRegion (textSegmentRegions ts takeSource)).
Proof.
  assert (Hone : forall t m,
             getTextSegmentIdFromMarks m = Some (TextSegment._id ts) ->
             Forall (regionOf (TextSegment._id ts))
               (List.filter nonEmptyRegion [textRegion t m])).
  { intros t m Hm. cbn [List.filter]. rewrite nonEmptyRegion_textRegion.
    destruct t as [|c t]; cbn [truthy_text]; [constructor|].
    constructor; [|constructor]. by exists (c :: t), m. }
  assert (Hboth :
            getTextSegmentIdFromMarks
              [ Mark.mk TextSegmentMark_name
                  (Some [ (TextSegmentMark_idName, AString (TextSegment._id ts));
                          ("hasSuggestion",
                           ABoolean (TextSegment.suggestionIsActive ts)) ]);
                Mark.mk SuggestionMark_name
                  (Some [ (TextSegmentMark_idName, AString (TextSegment._id ts)) ]) ]
            = Some (TextSegment._id ts)).
  { unfold getTextSegmentIdFromMarks. simpl.
    by destruct (truthy_string (TextSegment._id ts)). }
  assert (Hsingle :
            getTextSegmentIdFromMarks
              [ Mark.mk TextSegmentMark_name
                  (Some [ (TextSegmentMark_idName, AString (TextSegment._id ts));
                          ("hasSuggestion",
                           ABoolean (TextSegment.suggestionIsActive ts)) ]) ]
            = Some (TextSegment._id ts)) by done.
  unfold textSegmentRegions, hasActiveSuggestion. cbv zeta.
  destruct (TextSegment.suggestionIsActive ts) eqn:Hact;
    [|destruct takeSource; by apply Hone].
  destruct takeSource; [by apply Hone|].
  induction (TextSegment.mtTextStructure ts) as [|s l IH]; [constructor|].
  cbn [map List.filter]. rewrite nonEmptyRegion_textRegion.
  destruct (value s) as [|c t]; cbn [truthy_text]; [exact IH|].
  constructor; [|exact IH].
  eexists (c :: t), _. split; [done|]. split; [done|].
  by destruct (highlight s).
Qed.

Section DissectedSegment.
Variable uuid : nat -> string.
Variable id : string.
Hypothesis id_truthy : truthy_string id = true.
Hypothesis id_plain : id ∉ prototypeNames.

Definition leaf : ParsedStructure := segmentLeaf (Some "text") None (IdString id).

Lemma parse_region (r : JSONContent) (hist : list IdValue) (k : nat) :
  regionOf id r ->
  IdString id ∉ hist \/ last hist = Some (IdString id) ->
  parseEditorContentInternal uuid r hist ∅ k
  = {| textSegments := [Translatable.mk (IdString id) (leafText r)];
       structures := [leaf]; parseHistory := [IdString id];
       idReplacements := ∅; uuidCalls := k |}.
Proof.
  intros (t & m & -> & Ht & Hm) Hhist.
  assert (Hreq : requiresNewTextSegmentId (Some (IdString id)) hist = false).
  { unfold requiresNewTextSegmentId, getLastElementInArray.
    cbn [truthy_value]. rewrite id_truthy.
    destruct Hhist as [Hnot | Hlast].
    - by rewrite (bool_decide_eq_false_2 (IdString id ∈ hist)), andb_false_r.
    - by rewrite (bool_decide_eq_true_2 (last hist = Some (IdString id))). }
  assert (Hres : getTextSegmentIdFromMarksWithReplacement m ∅ = Some (IdString id)).
  { unfold getTextSegmentIdFromMarksWithReplacement. cbv zeta. rewrite Hm.
    change (truthy_id (Some id)) with (truthy_string id). rewrite id_truthy.
    cbn [negb]. by rewrite (get_absent ∅ id (lookup_empty id) id_plain). }
  unfold textRegion. cbn [parseEditorContentInternal leafText default].
  unfold parseMarkedLeaf. cbv zeta. rewrite Hres, Hreq.
  change (truthy_idValue (Some (IdString id))) with (truthy_string id).
  rewrite id_truthy.
  cbn [negb orb]. by rewrite app_nil_r.
Qed.

Lemma last_replicate_id (j : nat) :
  j <> 0 -> last (replicate j (IdString id)) = Some (IdString id).
Proof.
  destruct j as [|j]; [done|]. intros _.
  induction j as [|j IH]; [done|].
  change (replicate (S (S j)) (IdString id))
    with (IdString id :: replicate (S j) (IdString id)).
  by rewrite last_cons, IH.
Qed.

Lemma parse_regions (rs : list JSONContent) (segments : list ParsedSegment) (j k : nat) :
  Forall (regionOf id) rs ->
  forEachChild (parseEditorContentInternal uuid) [] rs
    {| textSegments := segments; structures := replicate j leaf;
       parseHistory := replicate j (IdString id); idReplacements := ∅; uuidCalls := k |}
  = {| textSegments :=
         segments ++ map (fun r => Translatable.mk (IdString id) (leafText r)) rs;
       structures := replicate (j + length rs) leaf;
       parseHistory := replicate (j + length rs) (IdString id);
       idReplacements := ∅; uuidCalls := k |}.
Proof.
  intros Hall. revert segments j. induction Hall as [|r rs Hr _ IH]; intros segments j.
  - simpl. by rewrite app_nil_r, Nat.add_0_r.
  - cbn [forEachChild]. cbn [parseHistory idReplacements uuidCalls textSegments structures].
    rewrite parse_region; [|done|].
    + cbn [parseHistory idReplacements uuidCalls textSegments structures].
      replace (replicate j leaf ++ [leaf]) with (replicate (S j) leaf)
        by (by rewrite <- replicate_cons_app).
      replace (replicate j (IdString id) ++ [IdString id])
        with (replicate (S j) (IdString id))
        by (by rewrite <- replicate_cons_app).
      rewrite IH, <- app_assoc. cbn [map app].
      replace (j + length (r :: rs)) with (S j + length rs) by (simpl; lia).
      done.
    + simpl. destruct j as [|j].
      * left. apply not_elem_of_nil.
      * right. by apply last_replicate_id.
Qed.

Lemma merge_same_id (texts : list jstring) :
  concat texts <> [] ->
  mergeTextSegmentsWithSameId (map (Translatable.mk (IdString id)) texts)
  = [Translatable.mk (IdString id) (concat texts)].
Proof.
  intros Hne. rewrite MergeFacts.merge_unfold.
  destruct texts as [|t texts]; [done|]. cbn [map].
  assert (Hfold : forall rest cleaned cur,
             fold_left MergeFacts.step (map (Translatable.mk (IdString id)) rest)
               {| Merge.cleanedTextSegments := cleaned;
                  Merge.currentId := Some (IdString id);
                  Merge.currentText := Some cur |}
             = {| Merge.cleanedTextSegments := cleaned;
                  Merge.currentId := Some (IdString id);
                  Merge.currentText := Some (cur ++ concat rest) |}).
  { induction rest as [|x rest IH]; intros cleaned cur; simpl.
    - by rewrite app_nil_r.
    - unfold MergeFacts.step at 2. simpl.
      rewrite bool_decide_eq_true_2 by done. simpl.
      by rewrite IH, <- app_assoc. }
  cbn [fold_left]. unfold MergeFacts.step at 2. simpl.
  rewrite Hfold. unfold MergeFacts.finish, Merge.truthy_currentText. simpl in *.
  destruct (t ++ concat texts) eqn:Ht; [done|]. done.
Qed.

Lemma dedup_same_id (n : nat) :
  removeDuplicateTextNodes (replicate (S n) leaf) = [leaf].
Proof.
  rewrite removeDuplicateTextNodes_dedupFrom. simpl.
  rewrite id_truthy. simpl. f_equal.
  induction n as [|n IH]; [done|]. simpl.
  rewrite id_truthy. simpl. by rewrite bool_decide_eq_true_2.
Qed.

Lemma parse_paragraph_of_regions (rs : list JSONContent) (k : nat) :
  Forall (regionOf id) rs ->
  concat (map leafText rs) <> [] ->
  parseEditorContentInternal uuid (paragraph rs) [] ∅ k
  = {| textSegments := [Translatable.mk (IdString id) (concat (map leafText rs))];
       structures := [paragraph [leaf]];
       parseHistory := replicate (length rs) (IdString id) ++ [IdString "break"];
       idReplacements := ∅; uuidCalls := k |}.
Proof.
  intros Hall Htexts. unfold paragraph. cbn [parseEditorContentInternal].
  pose proof (parse_regions rs [] 0 k Hall) as Hloop.
  cbn [replicate Nat.add app] in Hloop. rewrite Hloop.
  unfold finishNode.
  cbn [parseHistory idReplacements uuidCalls textSegments structures].
  rewrite <- (map_map leafText (Translatable.mk (IdString id))).
  rewrite merge_same_id by done.
  destruct rs as [|r rs]; [done|].
  cbn [length]. by rewrite dedup_same_id.
Qed.

End DissectedSegment.

(** X25.  The unit test of dissected segments in general: the text nodes that
    the builder makes for one segment (one per span of the suggestion) are
    parsed back as that one segment, with its identifier and the whole text
    it was displayed with, and as one leaf of the structure.  The identifier
    is not the name of a member of [Object.prototype]. *)
Theorem dissected_segment_parses_back (uuid : nat -> string)
    (segments : list TextSegment.t) (ts : TextSegment.t) (takeSource : bool) :
  findTextSegment segments (TextSegment._id ts) = Some ts ->
  truthy_string (TextSegment._id ts) = true ->
  TextSegment._id ts ∉ prototypeNames ->
  shownText ts takeSource <> [] ->
  let structure :=
    docNode [paragraph [segmentLeaf (Some "text") None (TextSegment._id ts)]] in
  exists built,
    buildEditorContentWithMarks structure segments takeSource = Return (Some built)
    /\ parseEditorContent uuid built
       = (map segmentAtRunTime
            [Translatable.mk (TextSegment._id ts) (shownText ts takeSource)],
          Some (atRunTime structure)).
Proof.
  intros Hfind Hid Hplain Hshown structure.
  pose proof (regions_regionOf ts takeSource) as Hregions.
  destruct (regions_filtered ts takeSource) as [Htext _].
  set (rs := List.filter nonEmptyRegion (textSegmentRegions ts takeSource)) in *.
  exists (docNode [paragraph rs]). split.
  { unfold buildEditorContentWithMarks. simpl. by rewrite Hfind. }
  assert (Htexts : concat (map leafText rs) <> []) by (by rewrite Htext).
  unfold parseEditorContent. cbv zeta. unfold docNode.
  cbn [parseEditorContentInternal forEachChild].
  cbn [parseHistory idReplacements uuidCalls textSegments structures app].
  rewrite (parse_paragraph_of_regions uuid (TextSegment._id ts) Hid Hplain rs 0
             Hregions Htexts).
  unfold finishNode.
  cbn [parseHistory idReplacements uuidCalls textSegments structures app].
  replace [Translatable.mk (IdString (TextSegment._id ts)) (concat (map leafText rs))]
    with (map (Translatable.mk (IdString (TextSegment._id ts)))
            [concat (map leafText rs)])
    by done.
  rewrite merge_same_id by (simpl; by rewrite app_nil_r).
  simpl. by rewrite app_nil_r, Htext.
Qed.

Lemma dissected_segment_parses_back_witness :
  let ts :=
    {| TextSegment._id := "b"; TextSegment.srcText := js "kleine Welt";
       TextSegment.mtText := js "small World";
       TextSegment.mtTextStructure :=
         [ {| value := js "small"; highlight := true |};
           {| value := []; highlight := false |};
           {| value := js " World"; highlight := false |} ];
       TextSegment.apeText := js "little World"; TextSegment.apeTextStructure := [];
       TextSegment.hpeText := js "small World"; TextSegment.suggestionIsActive := true;
       TextSegment.edits := [] |} in
  let structure :=
    docNode [paragraph [segmentLeaf (Some "text") None (TextSegment._id ts)]] in
  exists built,
    buildEditorContentWithMarks structure sampleStore false = Return (Some built)
    /\ parseEditorContent sampleUuid built
       = (map segmentAtRunTime
            [Translatable.mk (TextSegment._id ts) (shownText ts false)],
          Some (atRunTime structure)).
Proof.
  apply (dissected_segment_parses_back sampleUuid sampleStore).
  - reflexivity.
  - reflexivity.
  - apply (bool_decide_unpack ("b" ∉ prototypeNames)). vm_compute. reflexivity.
  - simpl. discriminate.
Defined.

(** ** Unique values *)

Lemma indexOf_None (self : list string) (value0 : string) :
  indexOf self value0 = None <-> value0 ∉ self.
Proof.
  induction self as [|x self IH]; simpl.
  - split; [|done]. intros _. apply not_elem_of_nil.
  - destruct (String.eqb_spec x value0) as [-> | Hne].
    + split; [done|]. intros Hn. exfalso. apply Hn. apply list_elem_of_here.
    + rewrite not_elem_of_cons. destruct (indexOf self value0) eqn:Hi; simpl.
      * split; [done|]. intros [_ Hn]. by apply IH in Hn.
      * split; [|done]. intros _. split; [congruence | by apply IH].
Qed.

Lemma indexOf_lt (self : list string) (value0 : string) (i : nat) :
  indexOf self value0 = Some i -> i < length self.
Proof.
  revert i. induction self as [|x self IH]; intros i; simpl; [done|].
  destruct (String.eqb x value0).
  - intros [= <-]. lia.
  - destruct (indexOf self value0) as [j|]; simpl; [|done].
    intros [= <-]. specialize (IH j eq_refl). lia.
Qed.

Lemma indexOf_app (pre rest : list string) (value0 : string) :
  indexOf (pre ++ rest) value0
  = match indexOf pre value0 with
    | Some i => Some i
    | None => option_map (fun j => length pre + j) (indexOf rest value0)
    end.
Proof.
  induction pre as [|x pre IH]; simpl.
  - by destruct (indexOf rest value0).
  - destruct (String.eqb x value0); [done|]. rewrite IH.
    destruct (indexOf pre value0); [done|].
    by destruct (indexOf rest value0).
Qed.

Lemma onlyUniqueValues_first (pre rest : list string) (x : string) :
  onlyUniqueValues x (length pre) (pre ++ x :: rest) = bool_decide (x ∉ pre).
Proof.
  unfold onlyUniqueValues. apply bool_decide_ext. rewrite indexOf_app.
  destruct (indexOf pre x) as [i|] eqn:Hi.
  - split.
    + intros [= ->]. apply indexOf_lt in Hi. lia.
    + intros Hnot. apply indexOf_None in Hnot. congruence.
  - simpl. rewrite String.eqb_refl. simpl. split.
    + intros _. by apply indexOf_None.
    + intros _. f_equal. lia.
Qed.

Lemma filter_onlyUniqueValues (rest pre : list string) :
  let out := filter_from onlyUniqueValues (pre ++ rest) (length pre) rest in
  NoDup out /\ forall x, x ∈ out <-> x ∈ rest /\ x ∉ pre.
Proof.
  revert pre. induction rest as [|y rest IH]; intros pre; simpl.
  - split; [constructor|]. intros x. split; [by intros ?%elem_of_nil | by intros [?%elem_of_nil _]].
  - specialize (IH (pre ++ [y])). rewrite <- app_assoc, length_app in IH.
    simpl in IH. replace (length pre + 1) with (S (length pre)) in IH by lia.
    destruct IH as [Hnd Hel].
    rewrite onlyUniqueValues_first.
    destruct (decide (y ∉ pre)) as [Hy | Hy].
    + rewrite bool_decide_eq_true_2 by done. split.
      * constructor; [|done]. intros Hin. apply Hel in Hin as [_ Hn].
        apply Hn. apply elem_of_app. right. apply list_elem_of_here.
      * intros x. rewrite !elem_of_cons, Hel, not_elem_of_app, not_elem_of_cons.
        split.
        -- intros [-> | (Hx & Hp & _)]; [by split; [left|] | by split; [right|]].
        -- intros [[-> | Hx] Hp]; [by left|].
           destruct (decide (x = y)) as [-> | Hne]; [by left|].
           right. split; [done|]. split; [done|].
           split; [done | apply not_elem_of_nil].
    + rewrite bool_decide_eq_false_2 by done. split; [done|].
      intros x. rewrite Hel, elem_of_cons, not_elem_of_app, not_elem_of_cons.
      split.
      * intros (Hx & Hp & _). by split; [right|].
      * intros [[-> | Hx] Hp]; [done|].
        split; [done|]. split; [done|]. split; [|apply not_elem_of_nil].
        intros ->. done.
Qed.

(** X26.  [arr.filter(onlyUniqueValues)] holds every value of [arr], once. *)
Theorem onlyUniqueValues_filter (arr : list string) :
  NoDup (filter_indexed onlyUniqueValues arr)
  /\ forall x, x ∈ filter_indexed onlyUniqueValues arr <-> x ∈ arr.
Proof.
  destruct (filter_onlyUniqueValues arr []) as [Hnd Hel]. simpl in *.
  split; [done|]. intros x. rewrite (Hel x). split; [by intros [? _]|].
  intros Hx. split; [done | apply not_elem_of_nil].
Qed.

(** ** Trailing whitespace *)

Definition plain (s : jstring) : jstring :=
  List.filter (fun c => negb (isWhitespace c)) s.

Lemma removeTrailingWhitespace_skip (s : jstring) (k : nat) :
  removeTrailingWhitespace_from s k = removeTrailingWhitespace_from (drop k s) 0.
Proof.
  revert k. induction s as [|c s IH]; intros k; [by destruct k|].
  destruct k as [|k]; [done|]. simpl. apply IH.
Qed.

Lemma matchTrailing_from_le (s : jstring) (k j : nat) :
  matchTrailing_from s k = Some j -> j <= k.
Proof.
  induction k as [|k IH]; simpl.
  - destruct (atLineEnd (drop 0 s)); [|done]. intros [= <-]. lia.
  - destruct (atLineEnd _); [intros [= <-]; lia|]. intros Hj. specialize (IH Hj). lia.
Qed.

Lemma matchTrailing_from_all (s : jstring) (k : nat) :
  length s <= k -> matchTrailing_from s k = Some k.
Proof.
  intros Hk. destruct k as [|k]; simpl.
  - destruct s; [done | simpl in Hk; lia].
  - rewrite drop_ge by lia. done.
Qed.

Lemma span_plain (s : jstring) (k : nat) :
  k <= span isWhitespace s -> plain (take k s) = [].
Proof.
  revert k. induction s as [|c s IH]; intros k Hk; [by destruct k|].
  destruct k as [|k]; [done|]. cbn [span] in Hk.
  destruct (isWhitespace c) eqn:Hc; [|lia].
  unfold plain in *. cbn [take List.filter]. rewrite Hc. cbn [negb].
  apply IH. lia.
Qed.

Lemma span_all (s : jstring) : plain s = [] -> span isWhitespace s = length s.
Proof.
  induction s as [|c s IH]; [done|]. unfold plain in *. cbn [List.filter span length].
  destruct (isWhitespace c); cbn [negb]; [|done]. intros Hs. by rewrite IH.
Qed.

Lemma plain_take_drop (s : jstring) (k : nat) :
  plain s = plain (take k s) ++ plain (drop k s).
Proof. unfold plain. by rewrite <- List.filter_app, take_drop. Qed.

(** What a step of the scan does. *)
Lemma removeTrailingWhitespace_cons (c : N) (s : jstring) :
  (exists n,
      matchTrailing (c :: s) = Some (S n) /\ S n <= span isWhitespace (c :: s)
      /\ removeTrailingWhitespace (c :: s) = removeTrailingWhitespace (drop n s))
  \/ ((plain (c :: s) <> [])
      /\ removeTrailingWhitespace (c :: s) = c :: removeTrailingWhitespace s).
Proof.
  unfold removeTrailingWhitespace. cbn [removeTrailingWhitespace_from].
  destruct (matchTrailing (c :: s)) as [[|n]|] eqn:Hm.
  - right. split; [|done]. intros Hp.
    unfold matchTrailing in Hm. rewrite (span_all _ Hp) in Hm.
    rewrite matchTrailing_from_all in Hm by done. done.
  - left. exists n. split; [done|]. split.
    + by apply matchTrailing_from_le in Hm.
    + apply removeTrailingWhitespace_skip.
  - right. split; [|done]. intros Hp.
    unfold matchTrailing in Hm. rewrite (span_all _ Hp) in Hm.
    rewrite matchTrailing_from_all in Hm by done. done.
Qed.

Lemma removeTrailingWhitespace_facts (n : nat) (s : jstring) :
  length s <= n ->
  plain (removeTrailingWhitespace s) = plain s
  /\ removeTrailingWhitespace s `sublist_of` s
  /\ forall c, last (removeTrailingWhitespace s) = Some c -> isWhitespace c = false.
Proof.
  revert s. induction n as [|n IH]; intros s Hn.
  - destruct s; [|simpl in Hn; lia]. by split.
  - destruct s as [|c s]; [by split|]. simpl in Hn.
    destruct (removeTrailingWhitespace_cons c s) as [(k & Hm & Hk & ->) | [Hp ->]].
    + destruct (IH (drop k s)) as (Hplain & Hsub & Hlast).
      { rewrite length_drop. lia. }
      split; [|split; [|done]].
      * rewrite Hplain. rewrite (plain_take_drop (c :: s) (S k)).
        by rewrite span_plain.
      * etrans; [exact Hsub|]. apply sublist_cons. apply sublist_drop.
    + destruct (IH s) as (Hplain & Hsub & Hlast); [lia|].
      split; [|split].
      * unfold plain in *. cbn [List.filter].
        destruct (negb (isWhitespace c)); by rewrite Hplain.
      * by apply sublist_skip.
      * intros c'. destruct (removeTrailingWhitespace s) as [|d rest] eqn:Hr.
        -- cbn [last]. intros [= <-]. unfold plain in Hp, Hplain.
           cbn [List.filter] in Hp, Hplain.
           destruct (isWhitespace c); [|done]. cbn [negb] in Hp. congruence.
        -- rewrite last_cons_cons. apply Hlast.
Qed.

(** X27.  [removeTrailingWhitespace] removes whitespace only, keeps the order of
    what it leaves, and what it returns does not end with whitespace. *)
Theorem removeTrailingWhitespace_trims (str : jstring) :
  plain (removeTrailingWhitespace str) = plain str
  /\ removeTrailingWhitespace str `sublist_of` str
  /\ forall c, last (removeTrailingWhitespace str) = Some c -> isWhitespace c = false.
Proof. by apply (removeTrailingWhitespace_facts (length str)). Qed.

(** ** Whitespace is never a segment of raw text *)

(** Segments whose text holds a character that is not whitespace. *)
Definition lettered (l : list ParsedSegment) : Prop :=
  Forall (fun ts => stringContainsOnlyWhitespace (Translatable.srcText ts) = false) l.

Lemma stringContainsOnlyWhitespace_cons (c : N) (s : jstring) :
  stringContainsOnlyWhitespace (c :: s)
  = isWhitespace c && stringContainsOnlyWhitespace s.
Proof.
  unfold stringContainsOnlyWhitespace. cbn [filter list_filter].
  destruct (isWhitespace c) eqn:Hc; reflexivity.
Qed.

Lemma stringContainsOnlyWhitespace_app (s t : jstring) :
  stringContainsOnlyWhitespace (s ++ t)
  = stringContainsOnlyWhitespace s && stringContainsOnlyWhitespace t.
Proof.
  induction s as [|c s IH]; [done|].
  cbn [app]. by rewrite !stringContainsOnlyWhitespace_cons, IH, andb_assoc.
Qed.

Module MergeLettered.
Import Merge MergeFacts.

Record inked (v : vars) : Prop := {
  inked_cleaned : lettered (cleanedTextSegments v);
  inked_current :
    forall t, currentText v = Some t -> stringContainsOnlyWhitespace t = false
}.

Lemma inked_initial : inked initial.
Proof. split; [constructor | done]. Qed.

Lemma push_inked (v : vars) :
  truthy_currentText v = true -> inked v -> lettered (cleanedTextSegments (push v)).
Proof.
  intros Ht [Hc Hcur]. unfold push. simpl. apply Forall_app. split; [done|].
  constructor; [|constructor]. simpl.
  unfold truthy_currentText in Ht. destruct (currentText v) as [t|]; [|done].
  by apply Hcur.
Qed.

Lemma step_inked (v : vars) (ts : ParsedSegment) :
  stringContainsOnlyWhitespace (Translatable.srcText ts) = false ->
  inked v -> inked (step v ts).
Proof.
  intros Hts Hv. pose proof Hv as [Hc Hcur]. unfold step.
  destruct (negb (bool_decide _)).
  - split; simpl.
    + destruct (truthy_currentText v && truthy_idValue (currentId v)) eqn:Hpush; [|done].
      apply andb_prop in Hpush as [Ht _]. by apply push_inked.
    + by intros t [= <-].
  - split; simpl; [done|]. intros t [= <-].
    by rewrite stringContainsOnlyWhitespace_app, Hts, andb_false_r.
Qed.

Lemma fold_inked (l : list ParsedSegment) (v : vars) :
  lettered l -> inked v -> inked (fold_left step l v).
Proof.
  revert v. induction l as [|ts l IH]; intros v Hl Hv; [done|].
  apply Forall_cons in Hl as [Hts Hl]. simpl. by apply IH, step_inked.
Qed.

End MergeLettered.

Lemma merge_lettered (l : list ParsedSegment) :
  lettered l -> lettered (mergeTextSegmentsWithSameId l).
Proof.
  intros Hl. rewrite MergeFacts.merge_unfold.
  destruct l as [|ts l]; [constructor|].
  pose proof (MergeLettered.fold_inked (ts :: l) Merge.initial Hl
                MergeLettered.inked_initial) as Hv.
  unfold MergeFacts.finish.
  destruct (Merge.truthy_currentText _) eqn:Ht.
  - by apply MergeLettered.push_inked.
  - apply Hv.
Qed.

Lemma parseRawText_lettered (uuid : nat -> string) type0 attrs0 (text0 : jstring)
    (repl : IdReplacements.t) (k : nat) :
  lettered (textSegments (parseRawText uuid type0 attrs0 text0 repl k)).
Proof.
  unfold parseRawText.
  assert (Hfold : forall pieces r,
             lettered (textSegments r) ->
             lettered (textSegments (fold_left (parseRawPiece uuid type0 attrs0) pieces r))).
  { induction pieces as [|str pieces IH]; intros r Hr; [done|].
    simpl. apply IH. unfold parseRawPiece.
    destruct (stringContainsOnlyWhitespace str) eqn:Hws; simpl; [done|].
    apply Forall_app. split; [done|]. constructor; [done | constructor]. }
  apply Hfold. constructor.
Qed.

Lemma forEachChild_lettered
    (parseChild : JSONContent -> list IdValue -> IdReplacements.t -> nat -> ParseResult)
    (hist : list IdValue) (children : list JSONContent) (r : ParseResult) :
  Forall (fun child => forall h repl k, lettered (textSegments (parseChild child h repl k)))
    children ->
  lettered (textSegments r) ->
  lettered (textSegments (forEachChild parseChild hist children r)).
Proof.
  intros Hall. revert r. induction Hall as [|child children Hchild _ IH];
    intros r Hr; simpl; [done|].
  apply IH. simpl. apply Forall_app. split; [done | apply Hchild].
Qed.

Lemma parse_lettered (uuid : nat -> string) (node : JSONContent) (hist : list IdValue)
    (repl : IdReplacements.t) (k : nat) :
  Forall (fun n => marks n = None) (nodes node) ->
  lettered (textSegments (parseEditorContentInternal uuid node hist repl k)).
Proof.
  revert hist repl k.
  induction node as [type0 attrs0 content0 text0 marks0 id0 IH]
    using JSONContent_tree_ind.
  intros hist repl k Hraw. simpl in Hraw.
  apply Forall_cons in Hraw as [Hroot Hraw]. simpl in Hroot. subst marks0.
  simpl. destruct text0 as [text1|]; [apply parseRawText_lettered|].
  destruct content0 as [children|]; [|constructor].
  simpl. apply merge_lettered. apply forEachChild_lettered; [|constructor].
  rewrite Forall_forall in IH, Hraw |- *. intros child Hchild h repl' k'.
  apply IH; [done|]. rewrite Forall_forall. intros n Hn. apply Hraw.
  apply elem_of_concat_map. by exists child.
Qed.

(** X28.  In a document without marks, whitespace is never wrapped into a
    segment: every segment that [parseEditorContent] returns holds a
    character that is not whitespace. *)
Theorem raw_segments_hold_text (uuid : nat -> string) (T : JSONContent) :
  Forall (fun n => marks n = None) (nodes T) ->
  Forall (fun ts => stringContainsOnlyWhitespace (Translatable.srcText ts) = false)
    (fst (parseEditorContent uuid T)).
Proof. intros Hraw. unfold parseEditorContent. simpl. by apply parse_lettered. Qed.

Lemma raw_segments_hold_text_witness :
  Forall (fun ts => stringContainsOnlyWhitespace (Translatable.srcText ts) = false)
    (fst (parseEditorContent sampleUuid
            (docNode [paragraph [rawText "Sentence 1.   Sentence 2."];
                      paragraph [rawText "   "]]))).
Proof.
  apply (raw_segments_hold_text sampleUuid
           (docNode [paragraph [rawText "Sentence 1.   Sentence 2."];
                     paragraph [rawText "   "]])).
  simpl. repeat constructor.
Defined.
